(** * MobilityNebula: a shallow embedding of the MEOS aggregation, the
      registrars, the CSV ordering filter and the JSON sink's base64 encoder.

    Each module embeds one source file:
    - [Base64]: [encodeBase64] of the JSON sink format (SinksParsing/JSONFormat.cpp);
    - [PagedStore], [TemporalSequence]: the TEMPORAL_SEQUENCE aggregation
      (TemporalSequenceAggregationPhysicalFunction.cpp);
    - [Registrar]: the physical-function registrars of the two MEOS functions;
    - [CsvFilter]: [iter_filtered_csv_lines] of scripts/tcp_source_csv_server.py;
    - [Geometry]: the evaluation lambdas of TemporalAtStBoxPhysicalFunction.cpp and
      TemporalIntersectsGeometryPhysicalFunction.cpp;
    - [JSONFormat]: the constructor of the JSON sink format;
    - [Metrics]: the latency histogram and the metrics registry
      (Metrics/Histogram.hpp, Metrics/MetricsRegistry.hpp) with their caller
      [PrintSink::execute];
    - [MeosInit]: [ensureMeosInitialized] of MEOSWrapper.cpp. *)

From Stdlib Require Import ZArith List Lia Bool Ascii String DecimalString.
From Stdlib Require Import Floats.
From Stdlib Require DecimalFacts DecimalPos.
Import ListNotations.

Local Open Scope Z_scope.

(** ** Shared helpers *)

(** [static_cast<uint32_t>(static_cast<unsigned char>(c))] *)
Definition uchar (c : ascii) : Z := Z.of_N (N_of_ascii c).

(** Arithmetic on [uint32_t]: every result is reduced modulo 2^32. *)
Definition u32 (z : Z) : Z := z mod 2 ^ 32.
Definition shl32 (x n : Z) : Z := u32 (Z.shiftl x n).
Definition shr32 (x n : Z) : Z := Z.shiftr x n.
Definition or32 (x y : Z) : Z := Z.lor x y.
Definition and32 (x y : Z) : Z := Z.land x y.

(** All integers [0 .. n-1], used to check a finite table entry by entry. *)
Definition Zupto (n : nat) : list Z := map Z.of_nat (seq 0 n).

Lemma Zupto_forallb (P : Z -> bool) (n : nat) :
  forallb P (Zupto n) = true ->
  forall i, 0 <= i < Z.of_nat n -> P i = true.
Proof.
  intros H i Hi. unfold Zupto in H.
  rewrite forallb_forall in H. apply H.
  apply in_map_iff. exists (Z.to_nat i). split; [lia|].
  apply in_seq. lia.
Qed.

Lemma last_cons {A : Type} (x d : A) (l : list A) :
  List.last (x :: l) d = List.last l x.
Proof.
  revert x d. induction l as [|y l IH]; intros x d; [reflexivity|].
  change (List.last (x :: y :: l) d) with (List.last (y :: l) d).
  now rewrite !IH.
Qed.

Lemma last_app_default {A : Type} (l1 l2 : list A) (d : A) :
  List.last (l1 ++ l2) d = List.last l2 (List.last l1 d).
Proof.
  revert d. induction l1 as [|x l1 IH]; intros d; [reflexivity|].
  cbn [app]. now rewrite !last_cons, IH.
Qed.

Lemma uchar_range (c : ascii) : 0 <= uchar c < 256.
Proof.
  unfold uchar. pose proof (N_ascii_bounded c). lia.
Qed.

Lemma ascii_of_uchar (c : ascii) : ascii_of_N (Z.to_N (uchar c)) = c.
Proof.
  unfold uchar. rewrite N2Z.id. apply ascii_N_embedding.
Qed.

(** ** The JSON sink's base64 encoder *)
Module Base64.

Local Open Scope string_scope.

(** [kAlphabet] *)
Definition kAlphabet : string :=
  "ABCDEFGHIJKLMNOPQRSTUVWXYZabcdefghijklmnopqrstuvwxyz0123456789+/".

(** [kAlphabet[i]]; the array holds 64 characters and the terminating NUL. *)
Definition alphabet_at (i : Z) : ascii :=
  match String.get (Z.to_nat i) kAlphabet with
  | Some c => c
  | None => Ascii.zero
  end.

Definition pad : ascii := "="%char.

(** The 24-bit block built from three input bytes (a missing byte is 0). *)
Definition block3 (a b c : ascii) : Z :=
  or32 (or32 (shl32 (uchar a) 16) (shl32 (uchar b) 8)) (uchar c).
Definition block2 (a b : ascii) : Z :=
  or32 (shl32 (uchar a) 16) (shl32 (uchar b) 8).
Definition block1 (a : ascii) : Z := shl32 (uchar a) 16.

(** [kAlphabet[(block >> n) & 0x3F]] *)
Definition sextet (block n : Z) : ascii :=
  alphabet_at (and32 (shr32 block n) 63).

(** [input[idx]] *)
Definition input_at (input : string) (idx : nat) : ascii :=
  match String.get idx input with
  | Some c => c
  | None => Ascii.zero
  end.

(** Four calls of [encoded.push_back]. *)
Definition push4 (encoded : string) (c1 c2 c3 c4 : ascii) : string :=
  encoded ++ String c1 (String c2 (String c3 (String c4 EmptyString))).

(** The loop [while (idx + 2 < size)]; it stops before [fuel] runs out when
    [fuel] is at least the size of the input. *)
Fixpoint encode_loop (fuel : nat) (input : string) (idx : nat)
    (encoded : string) : nat * string :=
  match fuel with
  | O => (idx, encoded)
  | S fuel' =>
      if (idx + 2 <? String.length input)%nat then
        let block :=
          block3 (input_at input idx) (input_at input (idx + 1))
            (input_at input (idx + 2)) in
        encode_loop fuel' input (idx + 3)
          (push4 encoded (sextet block 18) (sextet block 12)
             (sextet block 6) (sextet block 0))
      else (idx, encoded)
  end.

(** The handling of the one or two bytes the loop leaves. *)
Definition encode_tail (input : string) (idx : nat) (encoded : string) : string :=
  let tail := (String.length input - idx)%nat in
  if (tail =? 1)%nat then
    let block := block1 (input_at input idx) in
    push4 encoded (sextet block 18) (sextet block 12) pad pad
  else if (tail =? 2)%nat then
    let block := block2 (input_at input idx) (input_at input (idx + 1)) in
    push4 encoded (sextet block 18) (sextet block 12) (sextet block 6) pad
  else encoded.

Definition encodeBase64 (input : string) : string :=
  match input with
  | EmptyString => EmptyString
  | _ =>
      let '(idx, encoded) :=
        encode_loop (String.length input) input 0 EmptyString in
      encode_tail input idx encoded
  end.

(** The same encoding by recursion on the input that is left: three bytes
    give four characters, and the last one or two bytes are padded. *)
Fixpoint encode_from (input : string) : string :=
  match input with
  | String a (String b (String c rest)) =>
      let block := block3 a b c in
      String (sextet block 18) (String (sextet block 12)
        (String (sextet block 6) (String (sextet block 0) (encode_from rest))))
  | String a (String b EmptyString) =>
      let block := block2 a b in
      String (sextet block 18) (String (sextet block 12)
        (String (sextet block 6) (String pad EmptyString)))
  | String a EmptyString =>
      let block := block1 a in
      String (sextet block 18) (String (sextet block 12)
        (String pad (String pad EmptyString)))
  | EmptyString => EmptyString
  end.

(** *** Reference decoder (RFC 4648, standard alphabet, mandatory padding) *)

Fixpoint index_from (c : ascii) (tbl : string) (i : Z) : option Z :=
  match tbl with
  | EmptyString => None
  | String d tbl' => if Ascii.eqb c d then Some i else index_from c tbl' (i + 1)
  end.

(** The six-bit value of a character of the base64 alphabet. *)
Definition value_of (c : ascii) : option Z := index_from c kAlphabet 0.

Definition byte_of (z : Z) : ascii := ascii_of_N (Z.to_N (z mod 256)).

(** A quantum of four characters carries [v1*2^18 + v2*2^12 + v3*2^6 + v4];
    its three bytes are the base-256 digits of that number. *)
Definition quantum (v1 v2 v3 v4 : Z) : Z :=
  v1 * 2 ^ 18 + v2 * 2 ^ 12 + v3 * 2 ^ 6 + v4.

Fixpoint decode_std (s : string) : option string :=
  match s with
  | EmptyString => Some EmptyString
  | String c1 (String c2 (String c3 (String c4 rest))) =>
      match value_of c1, value_of c2 with
      | Some v1, Some v2 =>
          if Ascii.eqb c4 pad then
            match rest with
            | EmptyString =>
                if Ascii.eqb c3 pad then
                  let q := quantum v1 v2 0 0 in
                  Some (String (byte_of (q / 2 ^ 16)) EmptyString)
                else
                  match value_of c3 with
                  | Some v3 =>
                      let q := quantum v1 v2 v3 0 in
                      Some (String (byte_of (q / 2 ^ 16))
                             (String (byte_of (q / 2 ^ 8)) EmptyString))
                  | None => None
                  end
            | _ => None
            end
          else
            match value_of c3, value_of c4, decode_std rest with
            | Some v3, Some v4, Some out =>
                let q := quantum v1 v2 v3 v4 in
                Some (String (byte_of (q / 2 ^ 16))
                       (String (byte_of (q / 2 ^ 8))
                          (String (byte_of q) out)))
            | _, _, _ => None
            end
      | _, _ => None
      end
  | _ => None
  end.

(** Characters of the 64-character alphabet. *)
Definition in_alphabet (c : ascii) : Prop := exists i, 0 <= i < 64 /\ c = alphabet_at i.

Fixpoint string_Forall (P : ascii -> Prop) (s : string) : Prop :=
  match s with
  | EmptyString => True
  | String c s' => P c /\ string_Forall P s'
  end.

(** The shape of an encoded string: alphabet characters followed by at most
    two padding characters, which end the string. *)
Definition padding (p : string) : Prop :=
  p = EmptyString \/ p = String pad EmptyString
  \/ p = String pad (String pad EmptyString).

(** *** Arithmetic reading of the bit operations *)

Lemma lor_disjoint (x y n : Z) :
  0 <= n -> 0 <= y < 2 ^ n -> Z.lor (x * 2 ^ n) y = x * 2 ^ n + y.
Proof.
  intros Hn Hy.
  assert (Hland : Z.land (x * 2 ^ n) y = 0).
  { apply Z.bits_inj'. intros m Hm.
    rewrite Z.land_spec, Z.bits_0, <- Z.shiftl_mul_pow2 by lia.
    destruct (Z.lt_ge_cases m n) as [Hlt | Hge].
    - rewrite Z.shiftl_spec_low by lia. reflexivity.
    - rewrite <- (Z.mod_small y (2 ^ n)) by lia.
      rewrite Z.mod_pow2_bits_high by lia. apply andb_false_r. }
  rewrite (Z.add_nocarry_lxor _ _ Hland).
  symmetry. apply Z.lxor_lor. exact Hland.
Qed.

Lemma shl32_small (x n : Z) :
  0 <= n -> 0 <= x -> x * 2 ^ n < 2 ^ 32 -> shl32 x n = x * 2 ^ n.
Proof.
  intros Hn Hx Hlt. unfold shl32, u32.
  rewrite Z.shiftl_mul_pow2 by lia.
  apply Z.mod_small. split; [|lia].
  apply Z.mul_nonneg_nonneg; [lia|]. apply Z.pow_nonneg. lia.
Qed.

(** Evaluate the closed powers of two of a goal. *)
Ltac pow2 :=
  repeat match goal with
  | |- context [2 ^ ?n] =>
      let v := eval vm_compute in (2 ^ n) in change (2 ^ n) with v
  end.

Lemma block3_value (a b c : ascii) :
  block3 a b c = uchar a * 65536 + uchar b * 256 + uchar c.
Proof.
  pose proof (uchar_range a). pose proof (uchar_range b).
  pose proof (uchar_range c).
  unfold block3, or32.
  rewrite !shl32_small by (pow2; lia).
  rewrite (lor_disjoint (uchar a) (uchar b * 2 ^ 8) 16) by (pow2; lia).
  replace (uchar a * 2 ^ 16 + uchar b * 2 ^ 8)
    with ((uchar a * 256 + uchar b) * 2 ^ 8) by (pow2; ring).
  rewrite lor_disjoint by (pow2; lia).
  pow2. ring.
Qed.

Lemma block2_value (a b : ascii) :
  block2 a b = uchar a * 65536 + uchar b * 256.
Proof.
  pose proof (uchar_range a). pose proof (uchar_range b).
  unfold block2, or32.
  rewrite !shl32_small by (pow2; lia).
  rewrite (lor_disjoint (uchar a) (uchar b * 2 ^ 8) 16) by (pow2; lia).
  pow2. ring.
Qed.

Lemma block1_value (a : ascii) : block1 a = uchar a * 65536.
Proof.
  pose proof (uchar_range a). unfold block1.
  rewrite shl32_small by (pow2; lia). reflexivity.
Qed.

(** The index handed to [kAlphabet] is the base-64 digit of the block. *)
Lemma sextet_index (block n : Z) :
  0 <= n -> and32 (shr32 block n) 63 = (block / 2 ^ n) mod 64.
Proof.
  intros Hn. unfold and32, shr32.
  rewrite Z.shiftr_div_pow2 by lia.
  change 63 with (Z.ones 6). rewrite Z.land_ones by lia. reflexivity.
Qed.

Lemma sextet_digit (block n : Z) :
  0 <= n -> sextet block n = alphabet_at ((block / 2 ^ n) mod 64).
Proof.
  intros Hn. unfold sextet. rewrite sextet_index by lia. reflexivity.
Qed.

(** *** The alphabet table, entry by entry *)

Lemma value_of_alphabet_at (i : Z) :
  0 <= i < 64 -> value_of (alphabet_at i) = Some i.
Proof.
  intros Hi.
  pose (P := fun i => match value_of (alphabet_at i) with
                      | Some j => Z.eqb j i
                      | None => false
                      end).
  assert (HP : P i = true).
  { apply (Zupto_forallb P 64); [vm_compute; reflexivity | exact Hi]. }
  unfold P in HP. destruct (value_of (alphabet_at i)); [|discriminate].
  apply Z.eqb_eq in HP. congruence.
Qed.

Lemma alphabet_at_not_pad (i : Z) :
  0 <= i < 64 -> Ascii.eqb (alphabet_at i) pad = false.
Proof.
  intros Hi.
  apply (Zupto_forallb (fun i => negb (Ascii.eqb (alphabet_at i) pad)) 64) in Hi;
    [|vm_compute; reflexivity].
  now apply negb_true_iff in Hi.
Qed.

Lemma digit_range (x n : Z) : 0 <= (x / n) mod 64 < 64.
Proof. apply Z.mod_pos_bound. lia. Qed.

Lemma sextet_in_alphabet (block n : Z) : 0 <= n -> in_alphabet (sextet block n).
Proof.
  intros Hn. exists ((block / 2 ^ n) mod 64). split.
  - apply digit_range.
  - apply sextet_digit. exact Hn.
Qed.

Lemma byte_of_uchar (z : Z) (a : ascii) : z mod 256 = uchar a -> byte_of z = a.
Proof.
  intros H. unfold byte_of. rewrite H. apply ascii_of_uchar.
Qed.

(** *** Induction following the loop: three bytes at a time *)

Lemma string_ind3 (P : string -> Prop) :
  P EmptyString ->
  (forall a, P (String a EmptyString)) ->
  (forall a b, P (String a (String b EmptyString))) ->
  (forall a b c rest, P rest -> P (String a (String b (String c rest)))) ->
  forall s, P s.
Proof.
  intros H0 H1 H2 H3.
  fix IH 1. intros [|a [|b [|c rest]]].
  - exact H0.
  - apply H1.
  - apply H2.
  - apply H3. apply IH.
Qed.

(** *** The loop computes the recursive encoding *)

Lemma get_append (pre s : string) (k : nat) :
  String.get (String.length pre + k) (pre ++ s) = String.get k s.
Proof.
  induction pre as [|c pre IH]; [reflexivity|]. cbn. exact IH.
Qed.

Lemma input_at_append (pre s : string) (k : nat) :
  input_at (pre ++ s) (String.length pre + k) = input_at s k.
Proof. unfold input_at. now rewrite get_append. Qed.

Lemma input_at_append0 (pre s : string) :
  input_at (pre ++ s) (String.length pre) = input_at s 0.
Proof.
  pose proof (input_at_append pre s 0) as H.
  now rewrite Nat.add_0_r in H.
Qed.

Lemma length_append (s1 s2 : string) :
  String.length (s1 ++ s2) = (String.length s1 + String.length s2)%nat.
Proof. induction s1 as [|c s1 IH]; cbn; [reflexivity|now rewrite IH]. Qed.

Lemma append_assoc (s1 s2 s3 : string) : (s1 ++ s2) ++ s3 = s1 ++ (s2 ++ s3).
Proof. induction s1 as [|c s1 IH]; cbn; [reflexivity|now rewrite IH]. Qed.

Lemma append_empty (s : string) : s ++ EmptyString = s.
Proof. induction s as [|c s IH]; cbn; [reflexivity|now rewrite IH]. Qed.

(** With [pre] consumed and [rest] left, loop and tail append the recursive
    encoding of [rest]. *)
Lemma encode_loop_from (rest : string) :
  forall (fuel : nat) (pre encoded : string),
    (String.length rest <= fuel)%nat ->
    (let '(idx, encoded') :=
       encode_loop fuel (pre ++ rest) (String.length pre) encoded in
     encode_tail (pre ++ rest) idx encoded')
    = encoded ++ encode_from rest.
Proof.
  induction rest as [| a | a b | a b c rest IH] using string_ind3;
    intros fuel pre encoded Hfuel.
  - assert (Hstop : encode_loop fuel (pre ++ EmptyString) (String.length pre) encoded
                    = (String.length pre, encoded)).
    { destruct fuel; [reflexivity|]. cbn [encode_loop].
      rewrite length_append. cbn [String.length].
      destruct (Nat.ltb_spec (String.length pre + 2) (String.length pre + 0));
        [lia|reflexivity]. }
    rewrite Hstop. unfold encode_tail. rewrite length_append. cbn [String.length].
    replace (String.length pre + 0 - String.length pre)%nat with 0%nat by lia.
    cbn. now rewrite append_empty.
  - assert (Hstop : encode_loop fuel (pre ++ String a EmptyString)
                      (String.length pre) encoded
                    = (String.length pre, encoded)).
    { destruct fuel; [reflexivity|]. cbn [encode_loop].
      rewrite length_append. cbn [String.length].
      destruct (Nat.ltb_spec (String.length pre + 2) (String.length pre + 1));
        [lia|reflexivity]. }
    rewrite Hstop. unfold encode_tail. rewrite length_append. cbn [String.length].
    replace (String.length pre + 1 - String.length pre)%nat with 1%nat by lia.
    cbn [Nat.eqb].
    rewrite !input_at_append0. reflexivity.
  - assert (Hstop : encode_loop fuel (pre ++ String a (String b EmptyString))
                      (String.length pre) encoded
                    = (String.length pre, encoded)).
    { destruct fuel; [reflexivity|]. cbn [encode_loop].
      rewrite length_append. cbn [String.length].
      destruct (Nat.ltb_spec (String.length pre + 2) (String.length pre + 2));
        [lia|reflexivity]. }
    rewrite Hstop. unfold encode_tail. rewrite length_append. cbn [String.length].
    replace (String.length pre + 2 - String.length pre)%nat with 2%nat by lia.
    cbn [Nat.eqb].
    rewrite !input_at_append0, !input_at_append. reflexivity.
  - destruct fuel as [|fuel]; [cbn [String.length] in Hfuel; lia|].
    cbn [encode_loop]. rewrite length_append. cbn [String.length].
    destruct (Nat.ltb_spec (String.length pre + 2)
                (String.length pre + S (S (S (String.length rest)))));
      [|lia].
    rewrite !input_at_append0, !input_at_append.
    change (input_at (String a (String b (String c rest))) 0) with a.
    change (input_at (String a (String b (String c rest))) 1) with b.
    change (input_at (String a (String b (String c rest))) 2) with c.
    set (block := block3 a b c).
    set (pre' := pre ++ String a (String b (String c EmptyString))).
    assert (Hpre : pre ++ String a (String b (String c rest)) = pre' ++ rest)
      by (unfold pre'; now rewrite append_assoc).
    assert (Hlen : (String.length pre + 3)%nat = String.length pre')
      by (unfold pre'; now rewrite length_append).
    rewrite Hpre, Hlen.
    rewrite IH by (cbn [String.length] in Hfuel; lia).
    unfold push4. rewrite append_assoc. reflexivity.
Qed.

Lemma encodeBase64_encode_from (s : string) : encodeBase64 s = encode_from s.
Proof.
  destruct s as [|c s]; [reflexivity|].
  unfold encodeBase64.
  exact (encode_loop_from (String c s) (String.length (String c s))
           EmptyString EmptyString (Nat.le_refl _)).
Qed.

Lemma encode_from_length (s : string) :
  Z.of_nat (String.length (encode_from s))
  = 4 * ((Z.of_nat (String.length s) + 2) / 3).
Proof.
  induction s as [| a | a b | a b c rest IH] using string_ind3.
  - reflexivity.
  - reflexivity.
  - reflexivity.
  - cbn [encode_from String.length].
    rewrite !Nat2Z.inj_succ, IH.
    replace (Z.succ (Z.succ (Z.succ (Z.of_nat (String.length rest)))) + 2)
      with (Z.of_nat (String.length rest) + 2 + 1 * 3) by lia.
    rewrite Z.div_add by lia. lia.
Qed.

Lemma encode_from_shape (s : string) :
  exists body p,
    encode_from s = (body ++ p)%string
    /\ string_Forall in_alphabet body /\ padding p.
Proof.
  induction s as [| a | a b | a b c rest IH] using string_ind3.
  - exists EmptyString, EmptyString. cbn. unfold padding. auto.
  - exists (String (sextet (block1 a) 18) (String (sextet (block1 a) 12) EmptyString)),
      (String pad (String pad EmptyString)).
    cbn. unfold padding. repeat split; auto using sextet_in_alphabet with zarith.
    all: apply sextet_in_alphabet; lia.
  - exists (String (sextet (block2 a b) 18) (String (sextet (block2 a b) 12)
              (String (sextet (block2 a b) 6) EmptyString))),
      (String pad EmptyString).
    cbn. unfold padding. repeat split; auto.
    all: apply sextet_in_alphabet; lia.
  - destruct IH as (body & p & Heq & Hbody & Hp).
    exists (String (sextet (block3 a b c) 18) (String (sextet (block3 a b c) 12)
              (String (sextet (block3 a b c) 6)
                 (String (sextet (block3 a b c) 0) body)))), p.
    cbn [encode_from]. rewrite Heq. cbn. repeat split; auto.
    all: apply sextet_in_alphabet; lia.
Qed.

Lemma decode_encode_from (s : string) : decode_std (encode_from s) = Some s.
Proof.
  induction s as [| a | a b | a b c rest IH] using string_ind3.
  - reflexivity.
  - cbn [encode_from decode_std]. rewrite !sextet_digit by lia.
    rewrite !value_of_alphabet_at by apply digit_range.
    change (Ascii.eqb pad pad) with true. cbv iota.
    rewrite block1_value. pose proof (uchar_range a).
    f_equal. f_equal. apply byte_of_uchar. unfold quantum.
    change (2 ^ 18) with 262144. change (2 ^ 12) with 4096.
    change (2 ^ 16) with 65536. change (2 ^ 6) with 64.
    Z.div_mod_to_equations. lia.
  - cbn [encode_from decode_std]. rewrite !sextet_digit by lia.
    rewrite !value_of_alphabet_at by apply digit_range.
    change (Ascii.eqb pad pad) with true. cbv iota.
    rewrite alphabet_at_not_pad by apply digit_range.
    rewrite block2_value. pose proof (uchar_range a). pose proof (uchar_range b).
    unfold quantum.
    change (2 ^ 18) with 262144. change (2 ^ 12) with 4096.
    change (2 ^ 16) with 65536. change (2 ^ 6) with 64. change (2 ^ 8) with 256.
    f_equal. f_equal; [|f_equal]; apply byte_of_uchar; Z.div_mod_to_equations; lia.
  - cbn [encode_from decode_std]. rewrite !sextet_digit by lia.
    rewrite !value_of_alphabet_at by apply digit_range.
    rewrite alphabet_at_not_pad by apply digit_range.
    rewrite IH.
    rewrite block3_value. pose proof (uchar_range a). pose proof (uchar_range b).
    pose proof (uchar_range c).
    unfold quantum.
    change (2 ^ 18) with 262144. change (2 ^ 12) with 4096.
    change (2 ^ 16) with 65536. change (2 ^ 6) with 64. change (2 ^ 8) with 256.
    change (2 ^ 0) with 1.
    f_equal. f_equal; [|f_equal; [|f_equal]];
      apply byte_of_uchar; Z.div_mod_to_equations; lia.
Qed.

(** C10. For every byte string [s], [encodeBase64 s] has length
    [4 * ceil(|s| / 3)], consists of characters of the 64-character alphabet
    followed by the ['='] padding, which occurs only at the end (at most two
    characters), and the standard base64 decoding of it is exactly [s]; the
    empty input gives the empty output. *)
Theorem encodeBase64_correct (s : string) :
  Z.of_nat (String.length (encodeBase64 s))
    = 4 * ((Z.of_nat (String.length s) + 2) / 3)
  /\ (exists body p,
        encodeBase64 s = (body ++ p)%string
        /\ string_Forall in_alphabet body /\ padding p)
  /\ decode_std (encodeBase64 s) = Some s
  /\ encodeBase64 EmptyString = EmptyString.
Proof.
  rewrite encodeBase64_encode_from.
  split; [apply encode_from_length|].
  split; [apply encode_from_shape|].
  split; [apply decode_encode_from | reflexivity].
Qed.

(** *** The encoded text inside a JSON string, and encoding by chunks *)

(** A character that stands for itself between the quotes of a JSON string:
    printable ASCII other than the quote and the backslash. *)
Definition json_plain (c : ascii) : bool :=
  negb (Ascii.eqb c "034"%char) && negb (Ascii.eqb c "\"%char)
  && (32 <? uchar c)%Z && (uchar c <? 127)%Z.

Lemma alphabet_json_plain (i : Z) :
  0 <= i < 64 -> json_plain (alphabet_at i) = true.
Proof.
  intros Hi.
  apply (Zupto_forallb (fun i => json_plain (alphabet_at i)) 64);
    [vm_compute; reflexivity|exact Hi].
Qed.

Lemma string_Forall_append (P : ascii -> Prop) (s1 s2 : string) :
  string_Forall P s1 -> string_Forall P s2 -> string_Forall P (s1 ++ s2).
Proof.
  induction s1 as [|c s1 IH]; cbn; [auto|]. intros [Hc H1] H2. auto.
Qed.

Lemma string_Forall_impl (P Q : ascii -> Prop) (s : string) :
  (forall c, P c -> Q c) -> string_Forall P s -> string_Forall Q s.
Proof.
  intros HPQ. induction s as [|c s IH]; cbn; [auto|]. intros [Hc Hs]. auto.
Qed.

(** X1. Whatever the payload, [encodeBase64] produces only characters that need
    no escaping in the JSON string the sink puts them in. *)
Theorem encodeBase64_json_plain (s : string) :
  string_Forall (fun c => json_plain c = true) (encodeBase64 s).
Proof.
  rewrite encodeBase64_encode_from.
  destruct (encode_from_shape s) as (body & p & -> & Hbody & Hp).
  apply string_Forall_append.
  - eapply string_Forall_impl; [|exact Hbody].
    intros c (i & Hi & ->). now apply alphabet_json_plain.
  - destruct Hp as [-> | [-> | ->]]; cbn; auto.
Qed.

(** X2. A payload cut after a multiple of three bytes can be encoded piece by
    piece: the encodings concatenate. *)
Theorem encodeBase64_chunks (s1 s2 : string) :
  (String.length s1 mod 3 = 0)%nat ->
  encodeBase64 (s1 ++ s2) = encodeBase64 s1 ++ encodeBase64 s2.
Proof.
  rewrite !encodeBase64_encode_from.
  induction s1 as [| a | a b | a b c rest IH] using string_ind3; intros Hlen.
  - reflexivity.
  - discriminate Hlen.
  - discriminate Hlen.
  - cbn [append encode_from]. rewrite IH; [reflexivity|].
    cbn [String.length] in Hlen.
    replace (S (S (S (String.length rest)))) with (String.length rest + 1 * 3)%nat
      in Hlen by lia.
    now rewrite Nat.Div0.mod_add in Hlen.
Qed.

Lemma encodeBase64_chunks_witness :
  encodeBase64 ("Man" ++ "y hands") = encodeBase64 "Man" ++ encodeBase64 "y hands".
Proof. apply encodeBase64_chunks. reflexivity. Defined.

End Base64.

(** ** Outcomes of calls that may throw *)

(** A call returns, throws a C++ exception, ends the process through a
    failed [PRECONDITION], or does what the language leaves undefined (an
    index past the end of a vector, the end of a non-void function). *)
Inductive exn : Type :=
| runtime_error (what : string).

Inductive outcome (A : Type) : Type :=
| Returned (a : A)
| Thrown (e : exn)
| Aborted (message : string)
| Undefined.
Arguments Returned {A} a.
Arguments Thrown {A} e.
Arguments Aborted {A} message.
Arguments Undefined {A}.

(** ** The paged store behind an aggregation state *)
Module PagedStore.

Section Store.

(** The type of a stored record. *)
Variable Rec : Type.

(** Modelled from the spec: [Nautilus::Interface::PagedVector] is not under
    src/.  A paged store is an ordered sequence of pages, each with its own
    records; the total record count is the sum of the pages' counts. *)
Record Page : Type := mkPage { entries : list Rec }.

Record PagedVector : Type := mkPagedVector { pages : list Page }.

(** [PagedVector()], the store the placement [new] of [reset] constructs. *)
Definition empty : PagedVector := mkPagedVector [].

Definition numberOfEntries (pg : Page) : Z := Z.of_nat (List.length (entries pg)).

(** [getTotalNumberOfEntries] *)
Definition getTotalNumberOfEntries (v : PagedVector) : Z :=
  fold_right (fun pg acc => numberOfEntries pg + acc) 0 (pages v).

(** The records met by an iteration from [begin] to [end]: page after page,
    each page in insertion order. *)
Definition records (v : PagedVector) : list Rec :=
  flat_map entries (pages v).

(** Number of records a page holds (fixed by the memory layout). *)
Variable capacity : nat.

(** [PagedVectorRef::writeRecord]: the record goes to the last page, or to a
    page of its own when there is no page or the last one is full. *)
Fixpoint write_pages (ps : list Page) (r : Rec) : list Page :=
  match ps with
  | [] => [mkPage [r]]
  | [pg] =>
      if (List.length (entries pg) <? capacity)%nat
      then [mkPage (entries pg ++ [r])]
      else [pg; mkPage [r]]
  | pg :: ps' => pg :: write_pages ps' r
  end.

Definition writeRecord (v : PagedVector) (r : Rec) : PagedVector :=
  mkPagedVector (write_pages (pages v) r).

(** Modelled from the spec: [PagedVector::copyFrom] is not under src/.  A
    store is "merged by splicing another store's pages onto its tail
    (ownership of source pages transfers, source store becomes empty but
    remains valid)".  The result is this store and [other] as the call
    leaves them. *)
Definition copyFrom (v other : PagedVector) : PagedVector * PagedVector :=
  (mkPagedVector (pages v ++ pages other), empty).

(** *** Facts on the store *)

Lemma total_is_length (v : PagedVector) :
  getTotalNumberOfEntries v = Z.of_nat (List.length (records v)).
Proof.
  destruct v as [ps]. unfold getTotalNumberOfEntries, records. cbn.
  induction ps as [|pg ps IH]; cbn; [reflexivity|].
  rewrite length_app, Nat2Z.inj_add, IH. reflexivity.
Qed.

Lemma records_empty : records empty = [].
Proof. reflexivity. Qed.

Lemma write_pages_records (ps : list Page) (r : Rec) :
  flat_map entries (write_pages ps r) = flat_map entries ps ++ [r].
Proof.
  induction ps as [|pg ps IH]; [reflexivity|].
  destruct ps as [|pg' ps'].
  - cbn [write_pages].
    destruct (List.length (entries pg) <? capacity)%nat; cbn;
      rewrite ?app_nil_r; reflexivity.
  - change (write_pages (pg :: pg' :: ps') r)
      with (pg :: write_pages (pg' :: ps') r).
    cbn [flat_map]. rewrite IH. cbn [flat_map]. now rewrite app_assoc.
Qed.

Lemma records_writeRecord (v : PagedVector) (r : Rec) :
  records (writeRecord v r) = records v ++ [r].
Proof. apply write_pages_records. Qed.

Lemma records_copyFrom (v other : PagedVector) :
  records (fst (copyFrom v other)) = records v ++ records other
  /\ snd (copyFrom v other) = empty.
Proof.
  unfold records, copyFrom. cbn. split; [apply flat_map_app|reflexivity].
Qed.

End Store.

Arguments empty {Rec}.
Arguments pages {Rec} _.
Arguments entries {Rec} _.
Arguments records {Rec} _.
Arguments getTotalNumberOfEntries {Rec} _.
Arguments writeRecord {Rec} _ _ _.
Arguments copyFrom {Rec} _ _.

End PagedStore.

(** ** The TEMPORAL_SEQUENCE aggregation function *)
Module TemporalSequence.

Import PagedStore.

(** Arithmetic on [int64_t] (two's complement). *)
Definition wrap64 (z : Z) : Z := (z + 2 ^ 63) mod 2 ^ 64 - 2 ^ 63.

(** The [%lld] conversion of [sprintf]. *)
Definition lld (z : Z) : string := NilZero.string_of_int (Z.to_int z).

(** [sprintf(buffer, "BINARY(%lld)", totalPoints)] *)
Definition sprintf_BINARY (totalPoints : Z) : string :=
  ("BINARY(" ++ lld totalPoints ++ ")")%string.

Definition strlen (s : string) : nat := String.length s.

(** Variable-sized data of the arena: a byte is [None] until it is written. *)
Definition VariableSizedData : Type := list (option ascii).

Definition allocateVariableSizedData (len : nat) : VariableSizedData :=
  repeat None len.

(** [memcpy(dest, src, len)]; reading more than the characters of [src] or
    writing more than [dest] holds is undefined and gives [None]. *)
Definition memcpy (dest : VariableSizedData) (src : string) (len : nat)
  : option VariableSizedData :=
  if ((len <=? String.length src) && (len <=? List.length dest))%nat
  then Some (map Some (firstn len (list_ascii_of_string src)) ++ skipn len dest)
  else None.

(** The bytes of a fully written value. *)
Definition written (s : string) : VariableSizedData :=
  map Some (list_ascii_of_string s).

(** A [Nautilus::Record] produced by [lower]: field identifiers with values. *)
Definition ResultRecord : Type := list (string * VariableSizedData).

Definition write (r : ResultRecord) (field : string) (v : VariableSizedData)
  : ResultRecord :=
  (field, v) :: filter (fun fv => negb (String.eqb (fst fv) field)) r.

(** *** Decimal numerals, to read the finalized text *)

Definition is_digit (c : ascii) : bool :=
  ((48 <=? uchar c) && (uchar c <=? 57))%Z.

Fixpoint all_digits (s : string) : bool :=
  match s with
  | EmptyString => true
  | String c s' => is_digit c && all_digits s'
  end.

(** The number that the digits of [s] denote after the digits that gave
    [acc], the most significant digit first. *)
Fixpoint digits_value (s : string) (acc : Z) : Z :=
  match s with
  | EmptyString => acc
  | String c s' => digits_value s' (10 * acc + (uchar c - 48))
  end.

(** No text but "0" itself starts with the digit 0, and no text is empty. *)
Definition no_leading_zero (s : string) : bool :=
  match s with
  | EmptyString => false
  | String c EmptyString => true
  | String c (String _ _) => negb (Ascii.eqb c "0"%char)
  end.

(** [s] is the decimal numeral of the natural number [n]: digits only, at
    least one, without a leading zero, and of value [n]. *)
Definition numeral_of (n : Z) (s : string) : Prop :=
  all_digits s = true /\ no_leading_zero s = true /\ digits_value s 0 = n.

Example numeral_of_56 :
  numeral_of 56 "56"
  /\ ~ numeral_of 56 "056" /\ ~ numeral_of 56 "0" /\ ~ numeral_of 56 "5 6".
Proof.
  split; [now repeat split|].
  split; [|split]; intros (Hd & Hz & Hv); discriminate.
Qed.

Lemma string_of_uint_digits (d : Decimal.uint) :
  all_digits (NilEmpty.string_of_uint d) = true.
Proof.
  induction d; cbn [NilEmpty.string_of_uint all_digits]; [reflexivity|..];
    rewrite IHd; reflexivity.
Qed.

Lemma string_of_uint_value (d : Decimal.uint) :
  forall acc,
    digits_value (NilEmpty.string_of_uint d) (Z.pos acc)
    = Z.pos (Pos.of_uint_acc d acc).
Proof.
  induction d as [|d IH|d IH|d IH|d IH|d IH|d IH|d IH|d IH|d IH|d IH];
    intros acc; cbn [NilEmpty.string_of_uint digits_value Pos.of_uint_acc];
    [reflexivity|..];
    match goal with
    | |- digits_value _ ?a = Z.pos (Pos.of_uint_acc _ ?b) =>
        replace a with (Z.pos b) by (vm_compute (uchar _); lia)
    end; apply IH.
Qed.

(** The numeral of a positive number starts with a digit other than 0. *)
Lemma to_uint_head (p : positive) :
  match Pos.to_uint p with
  | Decimal.Nil | Decimal.D0 _ => False
  | _ => True
  end.
Proof.
  pose proof (DecimalPos.Unsigned.to_uint_nonnil p) as Hnn.
  pose proof (DecimalPos.Unsigned.to_uint_nonzero p) as Hnz.
  assert (Hnorm : Decimal.unorm (Pos.to_uint p) = Pos.to_uint p).
  { rewrite <- (DecimalPos.Unsigned.to_of (Pos.to_uint p)).
    now rewrite DecimalPos.Unsigned.of_to. }
  destruct (Pos.to_uint p) as [|d|d|d|d|d|d|d|d|d|d]; try exact I;
    [congruence|].
  unfold Decimal.unorm in Hnorm. cbn [Decimal.nzhead] in Hnorm.
  pose proof (DecimalFacts.nb_digits_nzhead d) as Hle.
  destruct (Decimal.nzhead d) eqn:Ez; try discriminate Hnorm.
  - injection Hnorm as <-. now apply Hnz.
  - rewrite Hnorm in Hle. cbn [Decimal.nb_digits] in Hle. lia.
Qed.

(** The [%lld] conversion of a natural number is its decimal numeral. *)
Lemma lld_numeral (n : Z) : 0 <= n -> numeral_of n (lld n).
Proof.
  intros Hn. unfold lld. destruct n as [|p|p]; [now repeat split| |lia].
  cbn [Z.to_int NilZero.string_of_int].
  pose proof (to_uint_head p) as Hh.
  pose proof (DecimalPos.Unsigned.of_to p) as Hof.
  pose proof (string_of_uint_digits (Pos.to_uint p)) as Hd.
  destruct (Pos.to_uint p) as [|d|d|d|d|d|d|d|d|d|d]; try contradiction;
    cbn [NilZero.string_of_uint];
    (split; [exact Hd|]);
    (split;
     [cbn [NilEmpty.string_of_uint no_leading_zero];
      destruct (NilEmpty.string_of_uint d); reflexivity|]);
    cbn [NilEmpty.string_of_uint digits_value];
    cbn [Pos.of_uint] in Hof; injection Hof as <-;
    match goal with
    | |- digits_value _ ?a = Z.pos (Pos.of_uint_acc _ ?b) =>
        replace a with (Z.pos b) by (vm_compute (uchar _); lia)
    end; apply string_of_uint_value.
Qed.

Section Aggregation.

(** Input records and the values the field functions compute from them. *)
Variables InRec VarVal : Type.

(** The record kept per input: [lon], [lat] and [timestamp]. *)
Record StateRecord : Type := mkStateRecord {
  lon : VarVal;
  lat : VarVal;
  timestamp : VarVal
}.

(** The members of the aggregation function that its operations use;
    [pageCapacity] stands for the layout of [memProviderPagedVector]. *)
Record AggregationFunction : Type := mkAggregationFunction {
  lonFunction : InRec -> VarVal;
  latFunction : InRec -> VarVal;
  timestampFunction : InRec -> VarVal;
  resultFieldIdentifier : string;
  pageCapacity : nat
}.

(** [AggregationState*]: the address of a caller-provided region. *)
Definition AggregationState : Type := nat.

(** The regions that hold a constructed paged vector. *)
Definition Memory : Type := AggregationState -> option (PagedVector StateRecord).

Definition store (m : Memory) (p : AggregationState)
    (v : PagedVector StateRecord) : Memory :=
  fun q => if Nat.eqb q p then Some v else m q.

Variable f : AggregationFunction.

(** [reset]: placement-constructs an empty paged vector in the region. *)
Definition reset (m : Memory) (p : AggregationState) : Memory :=
  store m p empty.

(** [lift]; [None] stands for the use of a region that was never reset. *)
Definition lift (m : Memory) (p : AggregationState) (record : InRec)
  : option Memory :=
  match m p with
  | None => None
  | Some v =>
      let lonValue := lonFunction f record in
      let latValue := latFunction f record in
      let timestampValue := timestampFunction f record in
      let aggregateStateRecord :=
        mkStateRecord lonValue latValue timestampValue in
      Some (store m p (writeRecord (pageCapacity f) v aggregateStateRecord))
  end.

(** [combine]: [vector1->copyFrom( *vector2 )]; both regions then hold what
    the call leaves in their vectors. *)
Definition combine (m : Memory) (p1 p2 : AggregationState) : option Memory :=
  match m p1, m p2 with
  | Some vector1, Some vector2 =>
      let '(vector1', vector2') := copyFrom vector1 vector2 in
      Some (store (store m p2 vector2') p1 vector1')
  | _, _ => None
  end.

(** The counting loop of [lower] over the iterator range. *)
Definition count_points (rs : list StateRecord) : Z :=
  fold_left (fun pointCounter _ => wrap64 (pointCounter + 1)) rs 0.

(** [lower]: the state is read, never written.  The initialisation of the
    MEOS library it triggers touches process-wide state only. *)
Definition lower (m : Memory) (p : AggregationState) : option ResultRecord :=
  match m p with
  | None => None
  | Some v =>
      let numberOfEntries := getTotalNumberOfEntries v in
      if numberOfEntries =? 0 then
        let emptyBinaryStr := "BINARY(0)"%string in
        let strLen := strlen emptyBinaryStr in
        let variableSized := allocateVariableSizedData strLen in
        match memcpy variableSized "BINARY(0)"%string strLen with
        | None => None
        | Some content => Some (write [] (resultFieldIdentifier f) content)
        end
      else
        let pointCounter := count_points (records v) in
        let binaryFormatStr := sprintf_BINARY pointCounter in
        let formatStrLen := strlen binaryFormatStr in
        let variableSized := allocateVariableSizedData formatStrLen in
        match memcpy variableSized binaryFormatStr formatStrLen with
        | None => None
        | Some content => Some (write [] (resultFieldIdentifier f) content)
        end
  end.

(** [cleanup]: the destructor ends the paged vector of the region. *)
Definition cleanup (m : Memory) (p : AggregationState) : Memory :=
  fun q => if Nat.eqb q p then None else m q.

(** [lift] once per record, in arrival order. *)
Fixpoint lift_all (m : Memory) (p : AggregationState) (rs : list InRec)
  : option Memory :=
  match rs with
  | [] => Some m
  | r :: rs' =>
      match lift m p r with
      | None => None
      | Some m' => lift_all m' p rs'
      end
  end.

(** The record [lift] stores for an input record. *)
Definition stored (record : InRec) : StateRecord :=
  mkStateRecord (lonFunction f record) (latFunction f record)
    (timestampFunction f record).

(** The records a region holds ([[]] for a region without a vector). *)
Definition contents (m : Memory) (p : AggregationState) : list StateRecord :=
  match m p with
  | Some v => records v
  | None => []
  end.

(** The finalized value for [n] points. *)
Definition finalized (n : Z) : ResultRecord :=
  [(resultFieldIdentifier f, written (sprintf_BINARY n))].

(** The regions are built one after the other, each by [reset] and one
    [lift] per record. *)
Definition build (m : Memory) (p : AggregationState) (rs : list InRec)
  : option Memory :=
  lift_all (reset m p) p rs.

Definition bind {A B : Type} (a : option A) (k : A -> option B) : option B :=
  match a with
  | Some x => k x
  | None => None
  end.

(** [lower(combine(combine(A, B), C))] *)
Definition lower_left (m : Memory) (pA pB pC : AggregationState)
  : option ResultRecord :=
  bind (combine m pA pB) (fun m1 =>
  bind (combine m1 pA pC) (fun m2 => lower m2 pA)).

(** [lower(combine(A, combine(B, C)))] *)
Definition lower_right (m : Memory) (pA pB pC : AggregationState)
  : option ResultRecord :=
  bind (combine m pB pC) (fun m1 =>
  bind (combine m1 pA pB) (fun m2 => lower m2 pA)).

(** The aggregate over all records, computed in one region. *)
Definition lower_union (m : Memory) (p : AggregationState) (rs : list InRec)
  : option ResultRecord :=
  bind (build m p rs) (fun m1 => lower m1 p).

(** *** Memory *)

Lemma store_same (m : Memory) p v : store m p v p = Some v.
Proof. unfold store. now rewrite Nat.eqb_refl. Qed.

Lemma store_other (m : Memory) p q v : q <> p -> store m p v q = m q.
Proof.
  intros H. unfold store. destruct (Nat.eqb_spec q p); [contradiction|reflexivity].
Qed.

Lemma contents_store_same (m : Memory) p v : contents (store m p v) p = records v.
Proof. unfold contents. now rewrite store_same. Qed.

Lemma contents_store_other (m : Memory) p q v :
  q <> p -> contents (store m p v) q = contents m q.
Proof. intros H. unfold contents. now rewrite store_other. Qed.

(** *** The counter and the copied bytes *)

Lemma wrap64_small (z : Z) : - 2 ^ 63 <= z < 2 ^ 63 -> wrap64 z = z.
Proof.
  intros H. unfold wrap64. rewrite Z.mod_small; lia.
Qed.

Lemma count_points_from (rs : list StateRecord) (c : Z) :
  0 <= c -> c + Z.of_nat (List.length rs) < 2 ^ 63 ->
  fold_left (fun pointCounter _ => wrap64 (pointCounter + 1)) rs c
  = c + Z.of_nat (List.length rs).
Proof.
  revert c. induction rs as [|r rs IH]; intros c Hc Hlt.
  - cbn. lia.
  - cbn [fold_left List.length] in *. rewrite Nat2Z.inj_succ in Hlt.
    rewrite wrap64_small by lia. rewrite IH by lia. lia.
Qed.

Lemma count_points_length (rs : list StateRecord) :
  Z.of_nat (List.length rs) < 2 ^ 63 ->
  count_points rs = Z.of_nat (List.length rs).
Proof.
  intros H. unfold count_points. rewrite count_points_from; lia.
Qed.

Lemma length_list_ascii (s : string) :
  List.length (list_ascii_of_string s) = String.length s.
Proof. induction s; cbn; congruence. Qed.

Lemma memcpy_whole (s : string) :
  memcpy (allocateVariableSizedData (strlen s)) s (strlen s) = Some (written s).
Proof.
  unfold memcpy, allocateVariableSizedData, strlen, written.
  rewrite repeat_length, Nat.leb_refl. cbn [andb].
  rewrite skipn_all2 by (rewrite repeat_length; lia).
  rewrite firstn_all2 by (rewrite length_list_ascii; lia).
  now rewrite app_nil_r.
Qed.

(** *** What each operation leaves in memory *)

Lemma lower_records (m : Memory) p v :
  m p = Some v ->
  Z.of_nat (List.length (records v)) < 2 ^ 63 ->
  lower m p = Some (finalized (Z.of_nat (List.length (records v)))).
Proof.
  intros Hv Hlt. unfold lower. rewrite Hv. cbv zeta.
  rewrite total_is_length.
  destruct (Z.eqb_spec (Z.of_nat (List.length (records v))) 0) as [H0 | H0].
  - rewrite H0.
    change 9%nat with (strlen "BINARY(0)"). rewrite memcpy_whole.
    reflexivity.
  - rewrite count_points_length by exact Hlt.
    rewrite memcpy_whole. reflexivity.
Qed.

Lemma lift_contents (m : Memory) p v r :
  m p = Some v ->
  exists m', lift m p r = Some m'
    /\ m' p = Some (writeRecord (pageCapacity f) v (stored r))
    /\ (forall q, q <> p -> m' q = m q).
Proof.
  intros Hv. unfold lift. rewrite Hv. eexists. split; [reflexivity|].
  split; [apply store_same|]. intros q Hq. now apply store_other.
Qed.

Lemma lift_all_contents (rs : list InRec) (m : Memory) p v :
  m p = Some v ->
  exists m' v', lift_all m p rs = Some m'
    /\ m' p = Some v'
    /\ records v' = records v ++ map stored rs
    /\ (forall q, q <> p -> m' q = m q).
Proof.
  revert m v. induction rs as [|r rs IH]; intros m v Hv.
  - exists m, v. cbn. rewrite app_nil_r. auto.
  - destruct (lift_contents m p v r Hv) as (m1 & Hl & Hp & Hq).
    destruct (IH m1 _ Hp) as (m2 & v2 & Hl2 & Hp2 & Hr2 & Hq2).
    exists m2, v2. cbn [lift_all]. rewrite Hl. split; [exact Hl2|].
    split; [exact Hp2|]. split.
    + rewrite Hr2, records_writeRecord. cbn [map].
      now rewrite <- app_assoc.
    + intros q Hne. rewrite Hq2 by exact Hne. now apply Hq.
Qed.

Lemma build_contents (rs : list InRec) (m : Memory) p :
  exists m' v', build m p rs = Some m'
    /\ m' p = Some v'
    /\ records v' = map stored rs
    /\ (forall q, q <> p -> m' q = m q).
Proof.
  destruct (lift_all_contents rs (reset m p) p empty (store_same m p empty))
    as (m' & v' & Hl & Hp & Hr & Hq).
  exists m', v'. repeat split; auto.
  intros q Hne. rewrite Hq by exact Hne. now apply store_other.
Qed.

Lemma combine_contents (m : Memory) pA pB vA vB :
  pA <> pB -> m pA = Some vA -> m pB = Some vB ->
  exists m' vA',
    combine m pA pB = Some m'
    /\ m' pA = Some vA'
    /\ records vA' = (records vA ++ records vB)%list
    /\ m' pB = Some empty
    /\ (forall q, q <> pA -> q <> pB -> m' q = m q).
Proof.
  intros Hne HA HB. unfold combine. rewrite HA, HB.
  destruct (records_copyFrom _ vA vB) as [Hr He].
  destruct (copyFrom vA vB) as [vA' vB'] eqn:E. cbn [fst snd] in Hr, He.
  subst vB'. exists (store (store m pB empty) pA vA'), vA'.
  split; [reflexivity|]. split; [apply store_same|]. split; [exact Hr|].
  split.
  - rewrite store_other by congruence. apply store_same.
  - intros q HqA HqB. now rewrite !store_other.
Qed.

Lemma lower_depends_on_region (m m' : Memory) p :
  m' p = m p -> lower m' p = lower m p.
Proof. intros H. unfold lower. now rewrite H. Qed.

(** *** The protocol properties *)

(** C1. On a region that was reset and never lifted into, [lower] returns
    the result record whose field holds exactly the nine characters
    "BINARY(0)", every byte of it written; it does not fail. *)
Theorem lower_after_reset (m : Memory) (p : AggregationState) :
  contents (reset m p) p = []
  /\ lower (reset m p) p
     = Some [(resultFieldIdentifier f, written "BINARY(0)")].
Proof.
  split.
  - unfold reset. now rewrite contents_store_same.
  - unfold reset.
    rewrite (lower_records _ p empty (store_same m p empty)) by (cbn; lia).
    reflexivity.
Qed.

(** C5. [reset], then [lift] with K records (1 <= K, K within the range of
    the 64-bit counter), then [lower] gives the text "BINARY(K)": the
    characters "BINARY(", the decimal numeral of K (digits only, no leading
    zero, of value K, where K is the length of the list of lifted records,
    the reference count) and ")". *)
Theorem reset_lift_lower (m : Memory) (p : AggregationState) (rs : list InRec) :
  1 <= Z.of_nat (List.length rs) < 2 ^ 63 ->
  exists m' digits,
    build m p rs = Some m'
    /\ contents m' p = map stored rs
    /\ numeral_of (Z.of_nat (List.length rs)) digits
    /\ lower m' p
       = Some [(resultFieldIdentifier f, written ("BINARY(" ++ digits ++ ")"))].
Proof.
  intros HK.
  destruct (build_contents rs m p) as (m' & v' & Hb & Hp & Hr & _).
  exists m', (lld (Z.of_nat (List.length rs))).
  split; [exact Hb|]. split; [unfold contents; now rewrite Hp|].
  split; [apply lld_numeral; lia|].
  rewrite (lower_records _ p v' Hp); rewrite Hr, length_map; [|lia].
  reflexivity.
Qed.


(** C4. For three distinct regions built from the record lists [ra], [rb]
    and [rc] (whose total stays within the 64-bit counter), both groupings
    of [combine] finalize to the same value, which is the value of one
    region fed with all the records: the text "BINARY(n)" where the digits
    are the decimal numeral of [n], the sum of the three point counts. *)
Theorem combine_grouping (m : Memory) (pA pB pC pU : AggregationState)
    (ra rb rc : list InRec) :
  pA <> pB -> pA <> pC -> pB <> pC ->
  Z.of_nat (List.length ra) + Z.of_nat (List.length rb)
    + Z.of_nat (List.length rc) < 2 ^ 63 ->
  let total := Z.of_nat (List.length ra) + Z.of_nat (List.length rb)
               + Z.of_nat (List.length rc) in
  exists mA mB mC digits,
    build m pA ra = Some mA
    /\ build mA pB rb = Some mB
    /\ build mB pC rc = Some mC
    /\ numeral_of total digits
    /\ lower_left mC pA pB pC
       = Some [(resultFieldIdentifier f, written ("BINARY(" ++ digits ++ ")"))]
    /\ lower_right mC pA pB pC
       = Some [(resultFieldIdentifier f, written ("BINARY(" ++ digits ++ ")"))]
    /\ lower_union m pU (ra ++ rb ++ rc)
       = Some [(resultFieldIdentifier f, written ("BINARY(" ++ digits ++ ")"))].
Proof.
  intros HAB HAC HBC Hlt total.
  destruct (build_contents ra m pA) as (mA & vA & HbA & HpA & HrA & HqA).
  destruct (build_contents rb mA pB) as (mB & vB & HbB & HpB & HrB & HqB).
  destruct (build_contents rc mB pC) as (mC & vC & HbC & HpC & HrC & HqC).
  exists mA, mB, mC, (lld total). do 3 (split; [assumption|]).
  split; [apply lld_numeral; unfold total; lia|].
  assert (HA : mC pA = Some vA) by (rewrite HqC, HqB by congruence; exact HpA).
  assert (HB : mC pB = Some vB) by (rewrite HqC by congruence; exact HpB).
  change (Some [(resultFieldIdentifier f, written ("BINARY(" ++ lld total ++ ")"))])
    with (Some (finalized total)).
  split; [|split].
  - unfold lower_left.
    destruct (combine_contents mC pA pB vA vB HAB HA HB)
      as (m1 & vAB & -> & HA1 & Hr1 & _ & Hq1).
    cbn [bind].
    destruct (combine_contents m1 pA pC vAB vC HAC HA1)
      as (m2 & vABC & -> & HA2 & Hr2 & _ & _);
      [rewrite Hq1 by congruence; exact HpC|].
    cbn [bind].
    rewrite (lower_records _ pA _ HA2);
      rewrite Hr2, Hr1, !length_app, HrA, HrB, HrC, !length_map; [|lia].
    f_equal. f_equal. unfold total. lia.
  - unfold lower_right.
    destruct (combine_contents mC pB pC vB vC HBC HB HpC)
      as (m1 & vBC & -> & HB1 & Hr1 & _ & Hq1).
    cbn [bind].
    destruct (combine_contents m1 pA pB vA vBC HAB)
      as (m2 & vABC & -> & HA2 & Hr2 & _ & _);
      [rewrite Hq1 by congruence; exact HA|exact HB1|].
    cbn [bind].
    rewrite (lower_records _ pA _ HA2);
      rewrite Hr2, Hr1, !length_app, HrA, HrB, HrC, !length_map; [|lia].
    f_equal. f_equal. unfold total. lia.
  - unfold lower_union.
    destruct (build_contents (ra ++ rb ++ rc) m pU)
      as (mU & vU & HbU & HpU & HrU & _).
    rewrite HbU. cbn [bind].
    rewrite (lower_records _ pU vU HpU);
      rewrite HrU, length_map, !length_app; [|lia].
    f_equal. f_equal. unfold total. lia.
Qed.

(** *** The grouping order and the formatted text *)

(** X3. With [copyFrom] as the spec describes it, [combine(A, B)] and
    [combine(B, A)] on two distinct regions leave the records in different
    orders (A's then B's in A, B's then A's in B), yet both finalize to the
    same value: the text "BINARY(n)" where the digits are the decimal
    numeral of [n], the sum of the two point counts (within the range of
    the 64-bit counter). *)
Theorem combine_commutes_on_lower (m : Memory) (pA pB : AggregationState)
    (vA vB : PagedVector StateRecord) :
  pA <> pB -> m pA = Some vA -> m pB = Some vB ->
  Z.of_nat (List.length (records vA)) + Z.of_nat (List.length (records vB))
    < 2 ^ 63 ->
  let total := Z.of_nat (List.length (records vA))
               + Z.of_nat (List.length (records vB)) in
  exists mAB mBA digits,
    combine m pA pB = Some mAB
    /\ combine m pB pA = Some mBA
    /\ contents mAB pA = (records vA ++ records vB)%list
    /\ contents mBA pB = (records vB ++ records vA)%list
    /\ numeral_of total digits
    /\ lower mAB pA
       = Some [(resultFieldIdentifier f, written ("BINARY(" ++ digits ++ ")"))]
    /\ lower mBA pB
       = Some [(resultFieldIdentifier f, written ("BINARY(" ++ digits ++ ")"))].
Proof.
  intros Hne HA HB Hlt total.
  destruct (combine_contents m pA pB vA vB Hne HA HB)
    as (mAB & vAB & HcAB & HAB & HrAB & _ & _).
  destruct (combine_contents m pB pA vB vA (not_eq_sym Hne) HB HA)
    as (mBA & vBA & HcBA & HBA & HrBA & _ & _).
  exists mAB, mBA, (lld total).
  split; [exact HcAB|]. split; [exact HcBA|].
  split; [unfold contents; now rewrite HAB|].
  split; [unfold contents; now rewrite HBA|].
  split; [apply lld_numeral; unfold total; lia|].
  change (Some [(resultFieldIdentifier f, written ("BINARY(" ++ lld total ++ ")"))])
    with (Some (finalized total)).
  split.
  - rewrite (lower_records _ pA _ HAB); rewrite HrAB, length_app; [|lia].
    f_equal. f_equal. unfold total. lia.
  - rewrite (lower_records _ pB _ HBA); rewrite HrBA, length_app; [|lia].
    f_equal. f_equal. unfold total. lia.
Qed.

Lemma of_uint_acc_lower (d : Decimal.uint) :
  forall acc,
    Z.pos acc * 10 ^ Z.of_nat (Decimal.nb_digits d)
    <= Z.pos (Pos.of_uint_acc d acc).
Proof.
  induction d as [|d IH|d IH|d IH|d IH|d IH|d IH|d IH|d IH|d IH|d IH];
    intros acc; cbn [Decimal.nb_digits Pos.of_uint_acc];
    [cbn; lia|..];
    rewrite Nat2Z.inj_succ, Z.pow_succ_r by lia;
    match goal with
    | |- _ <= Z.pos (Pos.of_uint_acc _ ?a) =>
        specialize (IH a);
        assert (0 < 10 ^ Z.of_nat (Decimal.nb_digits d))
          by (apply Z.pow_pos_nonneg; lia);
        assert (Z.pos acc * 10 <= Z.pos a) by lia
    end; nia.
Qed.

Lemma to_uint_normal (p : positive) :
  Decimal.unorm (Pos.to_uint p) = Pos.to_uint p.
Proof.
  rewrite <- (DecimalPos.Unsigned.to_of (Pos.to_uint p)).
  now rewrite DecimalPos.Unsigned.of_to.
Qed.

Lemma to_uint_digits (p : positive) :
  10 ^ (Z.of_nat (Decimal.nb_digits (Pos.to_uint p)) - 1) <= Z.pos p.
Proof.
  pose proof (DecimalPos.Unsigned.of_to p) as Hof.
  pose proof (to_uint_normal p) as Hnorm.
  pose proof (DecimalPos.Unsigned.to_uint_nonzero p) as Hnz.
  destruct (Pos.to_uint p) as [|d|d|d|d|d|d|d|d|d|d] eqn:E;
    cbn [Pos.of_uint] in Hof; cbn [Decimal.nb_digits];
    rewrite ?Nat2Z.inj_succ;
    try (injection Hof as <-;
         match goal with
         | |- _ <= Z.pos (Pos.of_uint_acc _ ?a) =>
             pose proof (of_uint_acc_lower d a);
             assert (0 < 10 ^ Z.of_nat (Decimal.nb_digits d))
               by (apply Z.pow_pos_nonneg; lia)
         end;
         replace (Z.succ (Z.of_nat (Decimal.nb_digits d)) - 1)
           with (Z.of_nat (Decimal.nb_digits d)) by lia;
         nia).
  - discriminate Hof.
  - exfalso. unfold Decimal.unorm in Hnorm. cbn [Decimal.nzhead] in Hnorm.
    pose proof (DecimalFacts.nb_digits_nzhead d) as Hle.
    destruct (Decimal.nzhead d) eqn:Ez.
    + injection Hnorm as <-. now apply Hnz.
    + rewrite Hnorm in Hle. cbn [Decimal.nb_digits] in Hle. lia.
    + discriminate Hnorm.
    + discriminate Hnorm.
    + discriminate Hnorm.
    + discriminate Hnorm.
    + discriminate Hnorm.
    + discriminate Hnorm.
    + discriminate Hnorm.
    + discriminate Hnorm.
    + discriminate Hnorm.
Qed.

Lemma string_of_uint_length (d : Decimal.uint) :
  String.length (NilEmpty.string_of_uint d) = Decimal.nb_digits d.
Proof. induction d; cbn; congruence. Qed.

Lemma to_uint_length (p : positive) :
  Z.pos p <= 2 ^ 63 ->
  (String.length (NilZero.string_of_uint (Pos.to_uint p)) <= 19)%nat.
Proof.
  intros Hp. pose proof (to_uint_digits p) as Hd.
  pose proof (DecimalPos.Unsigned.to_uint_nonnil p) as Hnn.
  assert (Hs : NilZero.string_of_uint (Pos.to_uint p)
               = NilEmpty.string_of_uint (Pos.to_uint p))
    by (destruct (Pos.to_uint p); [congruence|reflexivity..]).
  rewrite Hs, string_of_uint_length.
  destruct (Nat.le_gt_cases (Decimal.nb_digits (Pos.to_uint p)) 19) as [H|H];
    [exact H|exfalso].
  assert (10 ^ 19 <= 10 ^ (Z.of_nat (Decimal.nb_digits (Pos.to_uint p)) - 1))
    by (apply Z.pow_le_mono_r; lia).
  assert (2 ^ 63 < 10 ^ 19) by reflexivity. lia.
Qed.

Lemma lld_length (z : Z) :
  - 2 ^ 63 <= z < 2 ^ 63 -> (String.length (lld z) <= 20)%nat.
Proof.
  intros Hz. unfold lld. destruct z as [|p|p]; cbn [Z.to_int NilZero.string_of_int].
  - cbn. lia.
  - pose proof (to_uint_length p). lia.
  - cbn [String.length]. pose proof (to_uint_length p). lia.
Qed.

Lemma wrap64_range (z : Z) : - 2 ^ 63 <= wrap64 z < 2 ^ 63.
Proof.
  unfold wrap64. pose proof (Z.mod_pos_bound (z + 2 ^ 63) (2 ^ 64)). lia.
Qed.

Lemma count_points_range (rs : list StateRecord) :
  - 2 ^ 63 <= count_points rs < 2 ^ 63.
Proof.
  unfold count_points.
  assert (H : forall c, - 2 ^ 63 <= c < 2 ^ 63 ->
            - 2 ^ 63
            <= fold_left (fun pointCounter _ => wrap64 (pointCounter + 1)) rs c
            < 2 ^ 63).
  { induction rs as [|r rs IH]; intros c Hc; [exact Hc|].
    cbn [fold_left]. apply IH. apply wrap64_range. }
  apply H. lia.
Qed.

(** X4. Whatever the state holds, the text [sprintf] writes for the counter,
    with its terminating zero byte, fits the 32 bytes that [lower] allocates
    for it with [malloc(32)]: the write never runs past the buffer. *)
Theorem sprintf_fits_buffer (rs : list StateRecord) :
  (strlen (sprintf_BINARY (count_points rs)) + 1 <= 32)%nat.
Proof.
  unfold strlen, sprintf_BINARY. rewrite !Base64.length_append.
  pose proof (lld_length _ (count_points_range rs)) as H.
  cbn [String.length]. lia.
Qed.

End Aggregation.

Arguments reset {VarVal} m p.
Arguments lift {InRec VarVal} f m p record.
Arguments combine {VarVal} m p1 p2.
Arguments lower {InRec VarVal} f m p.
Arguments build {InRec VarVal} f m p rs.
Arguments contents {VarVal} m p.
Arguments finalized {InRec VarVal} f n.
Arguments stored {InRec VarVal} f record.
Arguments lower_left {InRec VarVal} f m pA pB pC.
Arguments lower_right {InRec VarVal} f m pA pB pC.
Arguments lower_union {InRec VarVal} f m p rs.

(** *** A concrete aggregation function: GPS rows of the system test *)

(** Rows [(longitude, latitude, timestamp)], here in fixed-point units. *)
Definition GpsRow : Type := (Z * Z * Z)%type.

Definition gps : AggregationFunction GpsRow Z :=
  mkAggregationFunction GpsRow Z
    (fun r => fst (fst r)) (fun r => snd (fst r)) (fun r => snd r)
    "trajectory" 2.

Definition no_state : Memory Z := fun _ => None.

Definition device1 : list GpsRow :=
  [(-739857, 407484, 1609459200000); (-739787, 407505, 1609459260000);
   (-739715, 407589, 1609459320000)].
Definition device2 : list GpsRow :=
  [(-740060, 407128, 1609459200000); (-740020, 407140, 1609459260000)].
Definition device3 : list GpsRow :=
  [(-739900, 407300, 1609459200000)].

Example lower_device1 :
  bind (build gps no_state 0%nat device1) (fun m => lower gps m 0%nat)
  = Some [("trajectory"%string, written "BINARY(3)")].
Proof. reflexivity. Qed.

Lemma reset_lift_lower_witness :
  exists m' digits,
    build gps no_state 0%nat device1 = Some m'
    /\ contents m' 0%nat = map (stored gps) device1
    /\ numeral_of 3 digits
    /\ lower gps m' 0%nat
       = Some [("trajectory"%string, written ("BINARY(" ++ digits ++ ")"))].
Proof.
  apply (reset_lift_lower GpsRow Z gps no_state 0%nat device1).
  cbn. lia.
Defined.

Lemma combine_grouping_witness :
  exists mA mB mC digits,
    build gps no_state 0%nat device1 = Some mA
    /\ build gps mA 1%nat device2 = Some mB
    /\ build gps mB 2%nat device3 = Some mC
    /\ numeral_of 6 digits
    /\ lower_left gps mC 0%nat 1%nat 2%nat
       = Some [("trajectory"%string, written ("BINARY(" ++ digits ++ ")"))]
    /\ lower_right gps mC 0%nat 1%nat 2%nat
       = Some [("trajectory"%string, written ("BINARY(" ++ digits ++ ")"))]
    /\ lower_union gps no_state 3%nat (device1 ++ device2 ++ device3)
       = Some [("trajectory"%string, written ("BINARY(" ++ digits ++ ")"))].
Proof.
  apply (combine_grouping GpsRow Z gps no_state 0%nat 1%nat 2%nat 3%nat
           device1 device2 device3); cbn; lia.
Defined.

(** Regions 0 and 1 after building them from [device1] and [device3]. *)
Definition two_regions : option (Memory Z) :=
  bind (build gps no_state 0%nat device1) (fun m => build gps m 1%nat device3).


(** Regions 0 (three records) and 1 (one record) combined: region 0 holds
    the four records and finalizes to "BINARY(4)", region 1 holds none and
    finalizes to "BINARY(0)". *)
Example combine_two_regions :
  exists m m',
    two_regions = Some m
    /\ combine m 0%nat 1%nat = Some m'
    /\ List.length (contents m' 0%nat) = 4%nat
    /\ contents m' 1%nat = []
    /\ lower gps m' 0%nat = Some [("trajectory"%string, written "BINARY(4)")]
    /\ lower gps m' 1%nat = Some [("trajectory"%string, written "BINARY(0)")].
Proof.
  eexists. eexists.
  split; [reflexivity|]. split; [reflexivity|].
  split; [reflexivity|]. split; [reflexivity|].
  split; reflexivity.
Qed.

(** Both orders of [combine] on the two regions finalize to four points. *)
Lemma combine_commutes_on_lower_witness :
  exists m vA vB,
    two_regions = Some m /\ m 0%nat = Some vA /\ m 1%nat = Some vB
    /\ exists mAB mBA digits,
         combine m 0%nat 1%nat = Some mAB
         /\ combine m 1%nat 0%nat = Some mBA
         /\ contents mAB 0%nat = (records vA ++ records vB)%list
         /\ contents mBA 1%nat = (records vB ++ records vA)%list
         /\ numeral_of 4 digits
         /\ lower gps mAB 0%nat
            = Some [("trajectory"%string, written ("BINARY(" ++ digits ++ ")"))]
         /\ lower gps mBA 1%nat
            = Some [("trajectory"%string, written ("BINARY(" ++ digits ++ ")"))].
Proof.
  eexists. eexists. eexists.
  split; [reflexivity|]. split; [reflexivity|]. split; [reflexivity|].
  apply (combine_commutes_on_lower GpsRow Z gps);
    [discriminate|reflexivity|reflexivity|cbn; lia].
Defined.

(** *** The registry entry *)

Section Registry.

(** [AggregationPhysicalFunctionRegistryArguments] and the registry's
    return type are declared outside this file. *)
Variables AggregationPhysicalFunctionRegistryArguments
          AggregationPhysicalFunctionRegistryReturnType : Type.

Definition registry_message : string :=
  "TEMPORAL_SEQUENCE aggregation cannot be created through the registry. It requires three field functions (longitude, latitude, timestamp) ".

(** [RegisterTemporalSequenceAggregationPhysicalFunction] *)
Definition RegisterTemporalSequenceAggregationPhysicalFunction
    (arguments : AggregationPhysicalFunctionRegistryArguments)
  : outcome AggregationPhysicalFunctionRegistryReturnType :=
  Thrown (runtime_error registry_message).

(** C8. Whatever the registry arguments, constructing TEMPORAL_SEQUENCE
    through the registry throws the runtime error that names the three
    missing field functions; it never returns an aggregation function. *)
Theorem registry_always_throws
    (arguments : AggregationPhysicalFunctionRegistryArguments) :
  RegisterTemporalSequenceAggregationPhysicalFunction arguments
    = Thrown (runtime_error registry_message)
  /\ (forall fn, RegisterTemporalSequenceAggregationPhysicalFunction arguments
                 <> Returned fn)
  /\ (forall msg, RegisterTemporalSequenceAggregationPhysicalFunction arguments
                  <> Aborted msg)
  /\ RegisterTemporalSequenceAggregationPhysicalFunction arguments <> Undefined.
Proof.
  split; [reflexivity|]. split; [|split]; try intros x; discriminate.
Qed.

End Registry.

End TemporalSequence.

(** ** The registrars of the MEOS physical functions *)
Module Registrar.

(** Modelled from the spec: the [PRECONDITION] macro (ErrorHandling.hpp) is
    not under src/.  A violated precondition is fatal: the process aborts at
    once with the formatted message and the call does not return. *)
Definition PRECONDITION {A : Type} (condition : bool) (message : string)
    (rest : outcome A) : outcome A :=
  if condition then rest else Aborted message.

(** The [{}] placeholder of the message, filled with a size. *)
Definition fmt_size (n : nat) : string :=
  NilZero.string_of_uint (Nat.to_uint n).

Section Registrars.

(** [PhysicalFunction], the type of the child functions. *)
Variable PhysicalFunction : Type.

(** [PhysicalFunctionRegistryArguments] *)
Record PhysicalFunctionRegistryArguments : Type := mkArguments {
  childFunctions : list PhysicalFunction
}.

(** [TemporalIntersectsGeometryPhysicalFunction] with its two constructors. *)
Record TemporalIntersectsGeometryPhysicalFunction : Type := mkIntersects {
  isTemporal6Param : bool;
  intersectsParameterFunctions : list PhysicalFunction
}.

Definition Intersects4 (lon1 lat1 timestamp1 staticGeometry : PhysicalFunction)
  : TemporalIntersectsGeometryPhysicalFunction :=
  mkIntersects false [lon1; lat1; timestamp1; staticGeometry].

Definition Intersects6 (lon1 lat1 timestamp1 lon2 lat2 timestamp2 : PhysicalFunction)
  : TemporalIntersectsGeometryPhysicalFunction :=
  mkIntersects true [lon1; lat1; timestamp1; lon2; lat2; timestamp2].

(** [TemporalAtStBoxPhysicalFunction] with its two constructors. *)
Record TemporalAtStBoxPhysicalFunction : Type := mkAtStBox {
  hasBorderParam : bool;
  atStBoxParameterFunctions : list PhysicalFunction
}.

Definition AtStBox4 (lon lat timestamp stbox : PhysicalFunction)
  : TemporalAtStBoxPhysicalFunction :=
  mkAtStBox false [lon; lat; timestamp; stbox].

Definition AtStBox5 (lon lat timestamp stbox borderInclusive : PhysicalFunction)
  : TemporalAtStBoxPhysicalFunction :=
  mkAtStBox true [lon; lat; timestamp; stbox; borderInclusive].

(** [childFunctions.size()] *)
Definition size (arguments : PhysicalFunctionRegistryArguments) : nat :=
  List.length (childFunctions arguments).

(** [childFunctions[i]] *)
Definition child (arguments : PhysicalFunctionRegistryArguments) (i : nat)
  : option PhysicalFunction :=
  nth_error (childFunctions arguments) i.

(** [RegisterTemporalIntersectsGeometryPhysicalFunction] *)
Definition RegisterTemporalIntersectsGeometryPhysicalFunction
    (arguments : PhysicalFunctionRegistryArguments)
  : outcome TemporalIntersectsGeometryPhysicalFunction :=
  if (size arguments =? 4)%nat then
    match child arguments 0, child arguments 1, child arguments 2,
          child arguments 3 with
    | Some c0, Some c1, Some c2, Some c3 => Returned (Intersects4 c0 c1 c2 c3)
    | _, _, _, _ => Undefined
    end
  else if (size arguments =? 6)%nat then
    match child arguments 0, child arguments 1, child arguments 2,
          child arguments 3, child arguments 4, child arguments 5 with
    | Some c0, Some c1, Some c2, Some c3, Some c4, Some c5 =>
        Returned (Intersects6 c0 c1 c2 c3 c4 c5)
    | _, _, _, _, _, _ => Undefined
    end
  else
    PRECONDITION false
      ("TemporalIntersectsGeometryPhysicalFunction requires 4 or 6 child functions, but got "
         ++ fmt_size (size arguments))
      Undefined.

(** [RegisterTemporalAtStBoxPhysicalFunction] *)
Definition RegisterTemporalAtStBoxPhysicalFunction
    (arguments : PhysicalFunctionRegistryArguments)
  : outcome TemporalAtStBoxPhysicalFunction :=
  if (size arguments =? 4)%nat then
    match child arguments 0, child arguments 1, child arguments 2,
          child arguments 3 with
    | Some c0, Some c1, Some c2, Some c3 => Returned (AtStBox4 c0 c1 c2 c3)
    | _, _, _, _ => Undefined
    end
  else if (size arguments =? 5)%nat then
    match child arguments 0, child arguments 1, child arguments 2,
          child arguments 3, child arguments 4 with
    | Some c0, Some c1, Some c2, Some c3, Some c4 =>
        Returned (AtStBox5 c0 c1 c2 c3 c4)
    | _, _, _, _, _ => Undefined
    end
  else
    PRECONDITION false
      ("TemporalAtStBoxPhysicalFunction requires 4 or 5 child functions, but got "
         ++ fmt_size (size arguments))
      Undefined.

(** What a call ended with. *)
Definition returns {A : Type} (o : outcome A) : Prop := exists a, o = Returned a.
Definition aborts {A : Type} (o : outcome A) : Prop := exists msg, o = Aborted msg.

Lemma intersects_cases (arguments : PhysicalFunctionRegistryArguments) :
  ((size arguments = 4 \/ size arguments = 6)%nat
   /\ returns (RegisterTemporalIntersectsGeometryPhysicalFunction arguments))
  \/ (size arguments <> 4%nat /\ size arguments <> 6%nat
      /\ aborts (RegisterTemporalIntersectsGeometryPhysicalFunction arguments)).
Proof.
  destruct arguments as [cs].
  unfold RegisterTemporalIntersectsGeometryPhysicalFunction, size, child,
    returns, aborts.
  cbn [childFunctions].
  destruct cs as [|c0 [|c1 [|c2 [|c3 [|c4 [|c5 [|c6 cs]]]]]]]; cbn;
    first [ left; split; [auto | eexists; reflexivity]
          | right; repeat split; try discriminate; eexists; reflexivity ].
Qed.

Lemma atstbox_cases (arguments : PhysicalFunctionRegistryArguments) :
  ((size arguments = 4 \/ size arguments = 5)%nat
   /\ returns (RegisterTemporalAtStBoxPhysicalFunction arguments))
  \/ (size arguments <> 4%nat /\ size arguments <> 5%nat
      /\ aborts (RegisterTemporalAtStBoxPhysicalFunction arguments)).
Proof.
  destruct arguments as [cs].
  unfold RegisterTemporalAtStBoxPhysicalFunction, size, child, returns, aborts.
  cbn [childFunctions].
  destruct cs as [|c0 [|c1 [|c2 [|c3 [|c4 [|c5 cs]]]]]]; cbn;
    first [ left; split; [auto | eexists; reflexivity]
          | right; repeat split; try discriminate; eexists; reflexivity ].
Qed.

(** C9. The temporal-intersects registrar returns a constructed function
    exactly when it is given 4 or 6 child functions, the temporal-at-stbox
    registrar exactly when it is given 4 or 5; with any other count the call
    ends in the fatal precondition violation and does not return. *)
Theorem registrar_child_count (arguments : PhysicalFunctionRegistryArguments) :
  (((size arguments = 4 \/ size arguments = 6)%nat
    /\ returns (RegisterTemporalIntersectsGeometryPhysicalFunction arguments))
   \/ (size arguments <> 4%nat /\ size arguments <> 6%nat
       /\ aborts (RegisterTemporalIntersectsGeometryPhysicalFunction arguments)
       /\ ~ returns (RegisterTemporalIntersectsGeometryPhysicalFunction arguments)))
  /\
  (((size arguments = 4 \/ size arguments = 5)%nat
    /\ returns (RegisterTemporalAtStBoxPhysicalFunction arguments))
   \/ (size arguments <> 4%nat /\ size arguments <> 5%nat
       /\ aborts (RegisterTemporalAtStBoxPhysicalFunction arguments)
       /\ ~ returns (RegisterTemporalAtStBoxPhysicalFunction arguments))).
Proof.
  split.
  - destruct (intersects_cases arguments) as [H | (H4 & H6 & [msg Hm])];
      [left; exact H | right].
    repeat split; auto; [now exists msg|].
    intros [a Ha]. congruence.
  - destruct (atstbox_cases arguments) as [H | (H4 & H5 & [msg Hm])];
      [left; exact H | right].
    repeat split; auto; [now exists msg|].
    intros [a Ha]. congruence.
Qed.

(** *** What the registrars construct *)

(** [TemporalIntersectsPhysicalFunction] with its constructor. *)
Record TemporalIntersectsPhysicalFunction : Type := mkTemporalIntersects {
  leftPhysicalFunction : PhysicalFunction;
  rightPhysicalFunction : PhysicalFunction;
  tsPhysicalFunction : PhysicalFunction
}.

(** [RegisterTemporalIntersectsPhysicalFunction] *)
Definition RegisterTemporalIntersectsPhysicalFunction
    (physicalFunctionRegistryArguments : PhysicalFunctionRegistryArguments)
  : outcome TemporalIntersectsPhysicalFunction :=
  PRECONDITION (size physicalFunctionRegistryArguments =? 3)%nat
    "TemporalIntersects function must have exactly three sub-functions"
    match child physicalFunctionRegistryArguments 0,
          child physicalFunctionRegistryArguments 1,
          child physicalFunctionRegistryArguments 2 with
    | Some c0, Some c1, Some c2 => Returned (mkTemporalIntersects c0 c1 c2)
    | _, _, _ => Undefined
    end.

(** X5. A function returned by the temporal-intersects-geometry or the
    temporal-at-stbox registrar holds exactly the child functions it was
    given, in their order, and its flag records which of the two arities was
    used; neither registrar ever reads a child function that is not there. *)
Theorem registrar_keeps_children (arguments : PhysicalFunctionRegistryArguments) :
  (forall fn,
      RegisterTemporalIntersectsGeometryPhysicalFunction arguments = Returned fn ->
      intersectsParameterFunctions fn = childFunctions arguments
      /\ isTemporal6Param fn = (size arguments =? 6)%nat)
  /\ (forall fn,
         RegisterTemporalAtStBoxPhysicalFunction arguments = Returned fn ->
         atStBoxParameterFunctions fn = childFunctions arguments
         /\ hasBorderParam fn = (size arguments =? 5)%nat)
  /\ RegisterTemporalIntersectsGeometryPhysicalFunction arguments <> Undefined
  /\ RegisterTemporalAtStBoxPhysicalFunction arguments <> Undefined.
Proof.
  destruct arguments as [cs].
  unfold RegisterTemporalIntersectsGeometryPhysicalFunction,
    RegisterTemporalAtStBoxPhysicalFunction, size, child.
  cbn [childFunctions].
  destruct cs as [|c0 [|c1 [|c2 [|c3 [|c4 [|c5 [|c6 cs]]]]]]]; cbn;
    (split; [intros fn H; try discriminate H; injection H as <-; now split|]);
    (split; [intros fn H; try discriminate H; injection H as <-; now split|]);
    split; discriminate.
Qed.

(** X6. The temporal-intersects registrar returns a function exactly for three
    child functions, which become its longitude, latitude and timestamp
    functions in this order; with any other count the call ends in the fatal
    precondition violation, and it never reads a missing child function. *)
Theorem registrar_three_children (arguments : PhysicalFunctionRegistryArguments) :
  (forall fn,
      RegisterTemporalIntersectsPhysicalFunction arguments = Returned fn
      <-> childFunctions arguments
          = [leftPhysicalFunction fn; rightPhysicalFunction fn;
             tsPhysicalFunction fn])
  /\ (size arguments <> 3%nat ->
      RegisterTemporalIntersectsPhysicalFunction arguments
      = Aborted "TemporalIntersects function must have exactly three sub-functions")
  /\ RegisterTemporalIntersectsPhysicalFunction arguments <> Undefined.
Proof.
  destruct arguments as [cs].
  unfold RegisterTemporalIntersectsPhysicalFunction, PRECONDITION, size, child.
  cbn [childFunctions].
  destruct cs as [|c0 [|c1 [|c2 [|c3 cs]]]]; cbn;
    (split; [intros [l r t]; cbn; split; intros H; try discriminate H;
             injection H as -> -> ->; reflexivity|]);
    split; try discriminate; try reflexivity; intros H; now elim H.
Qed.

End Registrars.

Example intersects_three_children :
  RegisterTemporalIntersectsGeometryPhysicalFunction nat (mkArguments nat [1; 2; 3]%nat)
  = Aborted "TemporalIntersectsGeometryPhysicalFunction requires 4 or 6 child functions, but got 3".
Proof. reflexivity. Qed.

Example atstbox_five_children :
  RegisterTemporalAtStBoxPhysicalFunction nat (mkArguments nat [1; 2; 3; 4; 5]%nat)
  = Returned (mkAtStBox nat true [1; 2; 3; 4; 5]%nat).
Proof. reflexivity. Qed.

End Registrar.

(** ** The order of IEEE 754 doubles

    Python's [float] and C++'s [double] are binary64 numbers; the comparisons
    are those of the primitive floats, specified by [SFcompare]. *)
Module FloatOrder.

Import SpecFloat.
Local Open Scope float_scope.

Ltac cmp_cases :=
  repeat match goal with
  | |- context [Z.compare ?a ?b] => destruct (Z.compare_spec a b)
  | |- context [Pos.compare_cont Eq ?a ?b] =>
      change (Pos.compare_cont Eq a b) with (Pos.compare a b);
      destruct (Pos.compare_spec a b)
  | H : context [Z.compare ?a ?b] |- _ => destruct (Z.compare_spec a b)
  | H : context [Pos.compare_cont Eq ?a ?b] |- _ =>
      change (Pos.compare_cont Eq a b) with (Pos.compare a b) in H;
      destruct (Pos.compare_spec a b)
  end.

Lemma SFcompare_antisym (x y : spec_float) :
  SFcompare y x = option_map CompOpp (SFcompare x y).
Proof.
  destruct x as [sx|sx| |sx mx ex], y as [sy|sy| |sy my ey]; cbn;
    try reflexivity;
    try (destruct sx; reflexivity); try (destruct sy; reflexivity);
    try (destruct sx, sy; reflexivity).
  destruct sx, sy; cbn; try reflexivity; f_equal;
    cmp_cases; subst; cbn; try reflexivity; try lia.
Qed.

Lemma SFcompare_none (x y : spec_float) :
  SFcompare x y = None -> x = S754_nan \/ y = S754_nan.
Proof.
  destruct x as [sx|sx| |sx mx ex], y as [sy|sy| |sy my ey]; cbn;
    try discriminate; auto.
Qed.

Lemma SFcompare_refl (x : spec_float) :
  x <> S754_nan -> SFcompare x x = Some Eq.
Proof.
  destruct x as [sx|sx| |sx mx ex]; cbn; try contradiction; try reflexivity.
  - destruct sx; reflexivity.
  - intros _. f_equal. destruct sx; cmp_cases; try reflexivity; lia.
Qed.

Lemma SFcompare_le_lt_trans (x y z : spec_float) :
  SFleb x y = true -> SFcompare y z = Some Lt -> SFcompare x z = Some Lt.
Proof.
  unfold SFleb.
  destruct x as [sx|sx| |sx mx ex], y as [sy|sy| |sy my ey],
    z as [sz|sz| |sz mz ez]; cbn; try discriminate;
    try (destruct sx; try discriminate); try (destruct sy; try discriminate);
    try (destruct sz; try discriminate); try reflexivity;
    intros H1 H2; f_equal; cmp_cases; subst;
    try discriminate; try reflexivity; try lia.
Qed.

(** [is_nan] read on the specification side. *)
Lemma is_nan_false (a : float) : is_nan a = false <-> Prim2SF a <> S754_nan.
Proof.
  unfold is_nan. rewrite negb_false_iff, eqb_spec. unfold SFeqb. split.
  - intros H Hn. rewrite Hn in H. discriminate H.
  - intros H. now rewrite SFcompare_refl.
Qed.

Lemma ltb_true (a b : float) :
  (a <? b) = true <-> SFcompare (Prim2SF a) (Prim2SF b) = Some Lt.
Proof.
  rewrite ltb_spec. unfold SFltb.
  destruct (SFcompare (Prim2SF a) (Prim2SF b)) as [[| |]|]; split;
    congruence.
Qed.

(** Between two numbers, "not less or equal" is "greater". *)
Lemma not_leb_ltb (a b : float) :
  is_nan a = false -> is_nan b = false -> (a <=? b) = false -> (b <? a) = true.
Proof.
  rewrite !is_nan_false, leb_spec, ltb_spec. unfold SFleb, SFltb.
  intros Ha Hb. rewrite (SFcompare_antisym (Prim2SF a) (Prim2SF b)).
  destruct (SFcompare (Prim2SF a) (Prim2SF b)) as [[| |]|] eqn:E; cbn;
    try congruence.
  apply SFcompare_none in E. tauto.
Qed.

Lemma ltb_not_leb (a b : float) : (a <? b) = true -> (b <=? a) = false.
Proof.
  rewrite leb_spec, ltb_spec. unfold SFleb, SFltb.
  rewrite (SFcompare_antisym (Prim2SF a) (Prim2SF b)).
  destruct (SFcompare (Prim2SF a) (Prim2SF b)) as [[| |]|]; cbn; congruence.
Qed.

Lemma ltb_leb (a b : float) : (a <? b) = true -> (a <=? b) = true.
Proof.
  rewrite leb_spec, ltb_spec. unfold SFleb, SFltb.
  destruct (SFcompare (Prim2SF a) (Prim2SF b)) as [[| |]|]; cbn; congruence.
Qed.

Lemma leb_ltb_trans (a b c : float) :
  (a <=? b) = true -> (b <? c) = true -> (a <? c) = true.
Proof.
  rewrite leb_spec, !ltb_true. apply SFcompare_le_lt_trans.
Qed.

Lemma leb_refl (a : float) : is_nan a = false -> (a <=? a) = true.
Proof.
  rewrite is_nan_false, leb_spec. unfold SFleb. intros H.
  now rewrite SFcompare_refl.
Qed.

Lemma ltb_is_number (a b : float) :
  (a <? b) = true -> is_nan a = false /\ is_nan b = false.
Proof.
  rewrite ltb_true, !is_nan_false. intros H.
  split; intros Hn; rewrite Hn in H;
    [|destruct (Prim2SF a)]; discriminate H.
Qed.

End FloatOrder.

(** ** The ordering filter of the CSV streaming server *)
Module CsvFilter.

Local Open Scope float_scope.

(** A row as [csv.reader] delivers it. *)
Definition Row : Type := list string.

(** What the generator does, in order: it yields the bytes of a row (the row
    is kept next to them), or prints when [verbose] is set. *)
Inductive event : Type :=
| Yield (row : Row) (line : string)
| PrintFilteredKey (key : list string) (ts_raw : string) (prev : float)
| PrintFiltered (ts_raw : string) (last_ts : float)
| PrintCompleted (forwarded filtered : Z).

Inductive pyexn : Type := FileNotFoundError | OverflowError | IndexError.

(** [float(n)] for a Python integer: the nearest double, ties to even;
    [OverflowError] ([None]) when the integer is too large. *)
Definition float_of_int (n : Z) : option float :=
  let x := SF2Prim (SpecFloat.binary_normalize prec emax n 0 false) in
  if is_infinity x then None else Some x.

(** [row[i]] with Python's negative indices; [None] is [IndexError]. *)
Definition py_get (row : Row) (i : Z) : option string :=
  let len := Z.of_nat (List.length row) in
  if (0 <=? i)%Z then nth_error row (Z.to_nat i)
  else if (- len <=? i)%Z then nth_error row (Z.to_nat (len + i))
  else None.

(** [delimiter.join(row)] *)
Fixpoint join (delimiter : string) (row : Row) : string :=
  match row with
  | [] => EmptyString
  | [c] => c
  | c :: row' => (c ++ delimiter ++ join delimiter row')%string
  end.

(** The dictionary [last_ts_by_key]. *)
Definition Key : Type := list string.
Definition Dict : Type := list (Key * float).

Definition key_eqb (k1 k2 : Key) : bool :=
  if list_eq_dec string_dec k1 k2 then true else false.

Fixpoint dict_get (d : Dict) (k : Key) (default : float) : float :=
  match d with
  | [] => default
  | (k', v) :: d' => if key_eqb k k' then v else dict_get d' k default
  end.

Fixpoint dict_set (d : Dict) (k : Key) (v : float) : Dict :=
  match d with
  | [] => [(k, v)]
  | (k', v') :: d' =>
      if key_eqb k k' then (k, v) :: d' else (k', v') :: dict_set d' k v
  end.

(** The local variables that live across rows and passes. *)
Record state : Type := mkState {
  last_ts_global : float;
  last_ts_by_key : option Dict;
  total_forwarded : Z;
  total_filtered : Z
}.

(** The outcome of parsing the timestamp cell. *)
Inductive ts_parse : Type :=
| TsValue (ts_val : float)
| TsUnknown
| TsOverflow.

(** Each element is greater than the one before it, the first one greater
    than [last]. *)
Fixpoint increasing_from (last : float) (l : list float) : bool :=
  match l with
  | [] => true
  | t :: l' => (last <? t) && increasing_from t l'
  end.

Definition strictly_increasing (l : list float) : bool :=
  match l with
  | [] => true
  | t :: l' => increasing_from t l'
  end.

Section Filter.

(** The builtins [int(s)], [float(s)] ([None] is [ValueError]) and
    [s.strip()]. *)
Variable int_of_str : string -> option Z.
Variable float_of_str : string -> option float.
Variable strip : string -> string.

(** The arguments of [iter_filtered_csv_lines]; [rows] is what the reader
    gives for the file on every pass. *)
Variable is_file : bool.
Variable rows : list Row.
Variable loop : bool.
Variable delimiter : string.
Variable ts_col_index : Z.
Variable skip_header : bool.
Variable verbose : bool.
Variable key_col_index : option (list Z).
Variable order_scope : string.

(** [float(int(ts_raw))], else [float(ts_raw)]. *)
Definition parse_ts (ts_raw : string) : ts_parse :=
  match int_of_str ts_raw with
  | Some n =>
      match float_of_int n with
      | Some ts_val => TsValue ts_val
      | None => TsOverflow
      end
  | None =>
      match float_of_str ts_raw with
      | Some ts_val => TsValue ts_val
      | None => TsUnknown
      end
  end.

Definition line_of (row : Row) : string :=
  (join delimiter row ++ String "010"%char EmptyString)%string.

(** [key_col_index] is truthy: neither [None] nor the empty list. *)
Definition key_columns : option (list Z) :=
  match key_col_index with
  | Some (i :: l) => Some (i :: l)
  | _ => None
  end.

Definition initial_state : state :=
  mkState neg_infinity
    (match key_columns with Some _ => Some [] | None => None end) 0 0.

(** [tuple(row[i].strip() if i < len(row) else "" for i in key_col_index)] *)
Fixpoint key_of (row : Row) (cols : list Z) : option Key :=
  match cols with
  | [] => Some []
  | i :: cols' =>
      let cell :=
        if (i <? Z.of_nat (List.length row))%Z
        then option_map strip (py_get row i)
        else Some EmptyString in
      match cell, key_of row cols' with
      | Some c, Some k => Some (c :: k)
      | _, _ => None
      end
  end.

Definition scope_in (a b : string) : bool :=
  String.eqb order_scope a || String.eqb order_scope b.

Definition forward (st : state) (row : Row) : list event * state * option pyexn :=
  ([Yield row (line_of row)],
   mkState (last_ts_global st) (last_ts_by_key st)
     (total_forwarded st + 1) (total_filtered st),
   None).

(** The global stage and the final [yield] of the loop body. *)
Definition global_stage (st : state) (row : Row) (ts_raw : string)
    (ts_val : float) : list event * state * option pyexn :=
  if scope_in "global" "both" then
    if ts_val <=? last_ts_global st then
      (if verbose then [PrintFiltered ts_raw (last_ts_global st)] else [],
       mkState (last_ts_global st) (last_ts_by_key st)
         (total_forwarded st) (total_filtered st + 1),
       None)
    else
      forward (mkState ts_val (last_ts_by_key st)
                 (total_forwarded st) (total_filtered st)) row
  else forward st row.

(** The body of [for row in reader] after the header test. *)
Definition process_row (st : state) (row : Row)
  : list event * state * option pyexn :=
  match row with
  | [] => ([], st, None)
  | _ :: _ =>
      if (ts_col_index <? 0)%Z
         || (Z.of_nat (List.length row) <=? ts_col_index)%Z
      then forward st row
      else
        match py_get row ts_col_index with
        | None => ([], st, Some IndexError)
        | Some cell =>
            let ts_raw := strip cell in
            match parse_ts ts_raw with
            | TsOverflow => ([], st, Some OverflowError)
            | TsUnknown => forward st row
            | TsValue ts_val =>
                match (if scope_in "per-key" "both"
                       then last_ts_by_key st else None), key_col_index with
                | Some d, Some cols =>
                    match key_of row cols with
                    | None => ([], st, Some IndexError)
                    | Some key =>
                        let prev := dict_get d key neg_infinity in
                        if ts_val <=? prev then
                          (if verbose
                           then [PrintFilteredKey key ts_raw prev] else [],
                           mkState (last_ts_global st) (last_ts_by_key st)
                             (total_forwarded st) (total_filtered st + 1),
                           None)
                        else
                          global_stage
                            (mkState (last_ts_global st)
                               (Some (dict_set d key ts_val))
                               (total_forwarded st) (total_filtered st))
                            row ts_raw ts_val
                    end
                | _, _ => global_stage st row ts_raw ts_val
                end
            end
        end
  end.

Fixpoint process_rows (st : state) (rs : list Row)
  : list event * state * option pyexn :=
  match rs with
  | [] => ([], st, None)
  | row :: rs' =>
      match process_row st row with
      | (ev, st', Some e) => (ev, st', Some e)
      | (ev, st', None) =>
          let '(ev', st'', e) := process_rows st' rs' in
          (ev ++ ev', st'', e)
      end
  end.

(** One execution of the body of [while True]. *)
Definition one_pass (st : state) : list event * state * option pyexn :=
  let rs := if skip_header then tl rows else rows in
  match process_rows st rs with
  | (ev, st', Some e) => (ev, st', Some e)
  | (ev, st', None) =>
      (ev ++ (if verbose
              then [PrintCompleted (total_forwarded st') (total_filtered st')]
              else []),
       st', None)
  end.

Fixpoint passes (n : nat) (st : state) : list event * state * option pyexn :=
  match n with
  | O => ([], st, None)
  | S n' =>
      match one_pass st with
      | (ev, st', Some e) => (ev, st', Some e)
      | (ev, st', None) =>
          let '(ev', st'', e) := passes n' st' in
          (ev ++ ev', st'', e)
      end
  end.

(** [iter_filtered_csv_lines]: what the generator has done once the body of
    [while True] has run [drawn] times; without [loop] it runs once. *)
Definition iter_filtered_csv_lines (drawn : nat) : list event * option pyexn :=
  if negb is_file then ([], Some FileNotFoundError)
  else
    let '(ev, _, e) := passes (if loop then drawn else 1%nat) initial_state in
    (ev, e).

(** The rows yielded, in order. *)
Definition yielded (evs : list event) : list Row :=
  flat_map (fun e => match e with Yield row _ => [row] | _ => [] end) evs.

(** The timestamp of a row, when its timestamp column parses as a number. *)
Definition row_ts (row : Row) : option float :=
  if (ts_col_index <? 0)%Z || (Z.of_nat (List.length row) <=? ts_col_index)%Z
  then None
  else
    match py_get row ts_col_index with
    | None => None
    | Some cell =>
        match parse_ts (strip cell) with
        | TsValue ts_val => Some ts_val
        | _ => None
        end
    end.

(** The timestamps of the rows that have one. *)
Definition timestamps (rs : list Row) : list float :=
  flat_map (fun row => match row_ts row with Some t => [t] | None => [] end) rs.

(** *** Notions used to state the properties *)

(** The rows of a file none of whose timestamps is NaN. *)
Definition numbers (rs : list Row) : Prop :=
  forall row t, In row rs -> row_ts row = Some t -> is_nan t = false.

(** The rows of a file that all carry a number. *)
Definition numbered (rs : list Row) : Prop :=
  Forall (fun row => exists t, row_ts row = Some t /\ is_nan t = false) rs.

(** The filter as a function of the last forwarded timestamp. *)
Fixpoint kept_from (g : float) (rs : list Row) : list Row :=
  match rs with
  | [] => []
  | row :: rs' =>
      match row_ts row with
      | Some t => if t <=? g then kept_from g rs' else row :: kept_from t rs'
      | None => kept_from g rs'
      end
  end.

(** The rows whose timestamp is above negative infinity and above the
    timestamp of every row that came before ([seen]). *)
Fixpoint maxima (seen : list float) (rs : list Row) : list Row :=
  match rs with
  | [] => []
  | row :: rs' =>
      match row_ts row with
      | Some t =>
          if (neg_infinity <? t) && forallb (fun u => u <? t) seen
          then row :: maxima (t :: seen) rs'
          else maxima (t :: seen) rs'
      | None => maxima seen rs'
      end
  end.

(** [g] is the largest timestamp seen so far, negative infinity at first. *)
Definition bounds (g : float) (seen : list float) : Prop :=
  (neg_infinity <=? g) = true
  /\ (forall u, In u seen -> (u <=? g) = true)
  /\ (g = neg_infinity \/ In g seen).

(** *** Facts that hold in every scope *)

Lemma yielded_app (ev ev' : list event) :
  yielded (ev ++ ev') = yielded ev ++ yielded ev'.
Proof. apply flat_map_app. Qed.

Lemma timestamps_app (rs rs' : list Row) :
  timestamps (rs ++ rs') = timestamps rs ++ timestamps rs'.
Proof. apply flat_map_app. Qed.

Lemma increasing_from_app (l1 l2 : list float) (g : float) :
  increasing_from g (l1 ++ l2)
  = increasing_from g l1 && increasing_from (List.last l1 g) l2.
Proof.
  revert g. induction l1 as [|t l1 IH]; intros g; [reflexivity|].
  cbn [app increasing_from]. rewrite IH, andb_assoc, last_cons.
  reflexivity.
Qed.

Lemma increasing_from_strictly (g : float) (l : list float) :
  increasing_from g l = true -> strictly_increasing l = true.
Proof.
  destruct l as [|t l]; [reflexivity|]. cbn.
  intros H. now apply andb_true_iff in H.
Qed.

Lemma empty_row_has_no_ts : row_ts [] = None.
Proof.
  unfold row_ts. cbn [List.length].
  destruct (Z.ltb_spec ts_col_index 0), (Z.leb_spec (Z.of_nat 0) ts_col_index);
    cbn; try reflexivity. lia.
Qed.

(** A row without a timestamp leaves [last_ts_global] alone. *)
Lemma process_row_unnumbered (st : state) (row : Row) :
  row_ts row = None ->
  exists ev st' e,
    process_row st row = (ev, st', e)
    /\ last_ts_global st' = last_ts_global st
    /\ timestamps (yielded ev) = [].
Proof.
  intros Hts.
  assert (Hfw : timestamps (yielded [Yield row (line_of row)]) = [])
    by (cbn; now rewrite Hts).
  assert (Hnone : forall e : option pyexn, exists ev st' e',
             (@nil event, st, e) = (ev, st', e')
             /\ last_ts_global st' = last_ts_global st
             /\ timestamps (yielded ev) = [])
    by (intros e; do 3 eexists; repeat split; reflexivity).
  assert (Hforward : exists ev st' e',
             forward st row = (ev, st', e')
             /\ last_ts_global st' = last_ts_global st
             /\ timestamps (yielded ev) = [])
    by (unfold forward; do 3 eexists; repeat split; try reflexivity;
        exact Hfw).
  unfold process_row. destruct row as [|c row']; [apply Hnone|].
  unfold row_ts in Hts. set (r := c :: row') in *.
  destruct ((ts_col_index <? 0)%Z || (Z.of_nat (List.length r) <=? ts_col_index)%Z);
    [exact Hforward|].
  destruct (py_get r ts_col_index) as [cell|]; [|apply Hnone].
  destruct (parse_ts (strip cell)); [discriminate|exact Hforward|apply Hnone].
Qed.

(** *** The global scope *)

Section GlobalScope.

Hypothesis Hscope : order_scope = "global"%string.

Lemma scope_per_key : scope_in "per-key" "both" = false.
Proof. unfold scope_in. now rewrite Hscope. Qed.

Lemma scope_global : scope_in "global" "both" = true.
Proof. unfold scope_in. now rewrite Hscope. Qed.

Lemma process_row_numbered (st : state) (row : Row) (t : float) :
  row_ts row = Some t ->
  exists ts_raw, process_row st row = global_stage st row ts_raw t.
Proof.
  intros Hts. destruct row as [|c row'];
    [rewrite empty_row_has_no_ts in Hts; discriminate|].
  unfold process_row. unfold row_ts in Hts. set (r := c :: row') in *.
  destruct ((ts_col_index <? 0)%Z || (Z.of_nat (List.length r) <=? ts_col_index)%Z);
    [discriminate|].
  destruct (py_get r ts_col_index) as [cell|]; [|discriminate].
  destruct (parse_ts (strip cell)) as [v| |]; try discriminate.
  injection Hts as ->. exists (strip cell).
  now rewrite scope_per_key.
Qed.

(** A row that is late or a duplicate is dropped, without an error. *)
Lemma late_row_dropped (st : state) (row : Row) (t : float) :
  row_ts row = Some t ->
  (t <=? last_ts_global st) = true ->
  exists ev st',
    process_row st row = (ev, st', None)
    /\ yielded ev = []
    /\ last_ts_global st' = last_ts_global st.
Proof.
  intros Hts Hle. destruct (process_row_numbered st row t Hts) as [raw ->].
  unfold global_stage. rewrite scope_global, Hle.
  do 2 eexists. split; [reflexivity|]. split; [|reflexivity].
  now destruct verbose.
Qed.

(** A row with a greater timestamp is yielded at once. *)
Lemma new_row_yielded (st : state) (row : Row) (t : float) :
  row_ts row = Some t ->
  (t <=? last_ts_global st) = false ->
  exists st',
    process_row st row = ([Yield row (line_of row)], st', None)
    /\ last_ts_global st' = t.
Proof.
  intros Hts Hle. destruct (process_row_numbered st row t Hts) as [raw ->].
  unfold global_stage. rewrite scope_global, Hle. unfold forward.
  eexists. split; reflexivity.
Qed.

Lemma process_row_increasing (st : state) (row : Row) :
  is_nan (last_ts_global st) = false ->
  (forall t, row_ts row = Some t -> is_nan t = false) ->
  exists ev st' e,
    process_row st row = (ev, st', e)
    /\ increasing_from (last_ts_global st) (timestamps (yielded ev)) = true
    /\ last_ts_global st'
       = List.last (timestamps (yielded ev)) (last_ts_global st).
Proof.
  intros Hg Hrow. destruct (row_ts row) as [t|] eqn:Hts.
  - destruct (t <=? last_ts_global st) eqn:Hle.
    + destruct (late_row_dropped st row t Hts Hle) as (ev & st' & -> & Hy & Hl).
      exists ev, st', None. rewrite Hy. cbn. auto.
    + destruct (new_row_yielded st row t Hts Hle) as (st' & -> & Hl).
      exists [Yield row (line_of row)], st', None.
      cbn. rewrite Hts. cbn. rewrite andb_true_r.
      split; [reflexivity|]. split; [|exact Hl].
      apply FloatOrder.not_leb_ltb; auto.
  - destruct (process_row_unnumbered st row Hts) as (ev & st' & e & -> & Hl & Hy).
    exists ev, st', e. rewrite Hy. cbn. auto.
Qed.

Lemma increasing_last_number (g : float) (l : list float) :
  is_nan g = false -> increasing_from g l = true ->
  is_nan (List.last l g) = false.
Proof.
  revert g. induction l as [|t l IH]; intros g Hg H; [exact Hg|].
  cbn [increasing_from] in H. apply andb_true_iff in H as [Hlt Hl].
  rewrite last_cons.
  apply IH; [|exact Hl]. now apply FloatOrder.ltb_is_number in Hlt.
Qed.

Lemma process_rows_increasing (rs : list Row) (st : state) :
  is_nan (last_ts_global st) = false ->
  numbers rs ->
  exists ev st' e,
    process_rows st rs = (ev, st', e)
    /\ increasing_from (last_ts_global st) (timestamps (yielded ev)) = true
    /\ last_ts_global st'
       = List.last (timestamps (yielded ev)) (last_ts_global st).
Proof.
  revert st. induction rs as [|row rs IH]; intros st Hg Hn.
  - exists [], st, None. cbn. auto.
  - destruct (process_row_increasing st row Hg) as (ev & st1 & e & Hp & Hi & Hl).
    { intros t. apply Hn. now left. }
    cbn [process_rows]. rewrite Hp. destruct e as [e|].
    + exists ev, st1, (Some e). auto.
    + assert (Hg1 : is_nan (last_ts_global st1) = false)
        by (rewrite Hl; now apply increasing_last_number).
      destruct (IH st1 Hg1) as (ev' & st2 & e' & Hp' & Hi' & Hl').
      { intros r t Hr. apply Hn. now right. }
      rewrite Hp'. exists (ev ++ ev'), st2, e'.
      split; [reflexivity|].
      rewrite yielded_app, timestamps_app, increasing_from_app, Hi, <- Hl.
      split; [exact Hi'|]. rewrite Hl', last_app_default, Hl. reflexivity.
Qed.

Lemma numbers_tl (rs : list Row) : numbers rs -> numbers (tl rs).
Proof.
  intros H row t Hin. apply H. destruct rs; [contradiction|now right].
Qed.

Lemma one_pass_increasing (st : state) :
  is_nan (last_ts_global st) = false ->
  numbers rows ->
  exists ev st' e,
    one_pass st = (ev, st', e)
    /\ increasing_from (last_ts_global st) (timestamps (yielded ev)) = true
    /\ last_ts_global st'
       = List.last (timestamps (yielded ev)) (last_ts_global st).
Proof.
  intros Hg Hn. unfold one_pass.
  destruct (process_rows_increasing (if skip_header then tl rows else rows) st Hg)
    as (ev & st' & e & -> & Hi & Hl).
  { destruct skip_header; [now apply numbers_tl|exact Hn]. }
  destruct e as [e|]; [now exists ev, st', (Some e)|].
  do 3 eexists. split; [reflexivity|].
  rewrite yielded_app.
  replace (yielded (if verbose then _ else [])) with (@nil Row)
    by now destruct verbose.
  rewrite app_nil_r. auto.
Qed.

Lemma passes_increasing (n : nat) (st : state) :
  is_nan (last_ts_global st) = false ->
  numbers rows ->
  exists ev st' e,
    passes n st = (ev, st', e)
    /\ increasing_from (last_ts_global st) (timestamps (yielded ev)) = true
    /\ last_ts_global st'
       = List.last (timestamps (yielded ev)) (last_ts_global st).
Proof.
  intros Hg Hn. revert st Hg. induction n as [|n IH]; intros st Hg.
  - exists [], st, None. cbn. auto.
  - destruct (one_pass_increasing st Hg Hn) as (ev & st1 & e & Hp & Hi & Hl).
    cbn [passes]. rewrite Hp. destruct e as [e|].
    + exists ev, st1, (Some e). auto.
    + assert (Hg1 : is_nan (last_ts_global st1) = false)
        by (rewrite Hl; now apply increasing_last_number).
      destruct (IH st1 Hg1) as (ev' & st2 & e' & Hp' & Hi' & Hl').
      rewrite Hp'. exists (ev ++ ev'), st2, e'.
      split; [reflexivity|].
      rewrite yielded_app, timestamps_app, increasing_from_app, Hi, <- Hl.
      split; [exact Hi'|]. rewrite Hl', last_app_default, Hl. reflexivity.
Qed.

(** Without a NaN among the timestamps of the file, whatever has been
    forwarded so far carries strictly increasing timestamps. *)
Lemma forwarded_increasing (drawn : nat) :
  numbers rows ->
  strictly_increasing
    (timestamps (yielded (fst (iter_filtered_csv_lines drawn)))) = true.
Proof.
  intros Hn. unfold iter_filtered_csv_lines.
  destruct is_file; [|reflexivity]. cbn [negb].
  destruct (passes_increasing (if loop then drawn else 1%nat) initial_state)
    as (ev & st' & e & -> & Hi & _); [reflexivity|exact Hn|].
  cbn [fst]. exact (increasing_from_strictly _ _ Hi).
Qed.

Lemma process_rows_numbered (rs : list Row) (st : state) :
  numbered rs ->
  exists ev st',
    process_rows st rs = (ev, st', None)
    /\ yielded ev = kept_from (last_ts_global st) rs.
Proof.
  intros Hn. revert st. induction Hn as [|row rs (t & Hts & Ht) Hrs IH];
    intros st.
  - exists [], st. split; reflexivity.
  - cbn [process_rows kept_from]. rewrite Hts.
    destruct (t <=? last_ts_global st) eqn:Hle.
    + destruct (late_row_dropped st row t Hts Hle) as (ev & st1 & -> & Hy & Hl).
      destruct (IH st1) as (ev' & st2 & -> & Hy').
      exists (ev ++ ev'), st2. split; [reflexivity|].
      now rewrite yielded_app, Hy, Hy', Hl.
    + destruct (new_row_yielded st row t Hts Hle) as (st1 & -> & Hl).
      destruct (IH st1) as (ev' & st2 & -> & Hy').
      exists ([Yield row (line_of row)] ++ ev'), st2.
      split; [reflexivity|].
      rewrite yielded_app, Hy', Hl. reflexivity.
Qed.

Lemma above_bound (g t : float) (seen : list float) :
  bounds g seen -> is_nan t = false ->
  (neg_infinity <? t) && forallb (fun u => u <? t) seen = negb (t <=? g).
Proof.
  intros (Hinf & Hall & Hg) Ht.
  assert (Hgn : is_nan g = false).
  { rewrite FloatOrder.is_nan_false. intros Hn.
    rewrite leb_spec, Hn in Hinf. discriminate Hinf. }
  destruct (t <=? g) eqn:Hle; cbn [negb].
  - apply andb_false_iff. destruct Hg as [-> | Hin].
    + left. destruct (neg_infinity <? t) eqn:Hlt; [|reflexivity].
      apply FloatOrder.ltb_not_leb in Hlt. congruence.
    + right. destruct (forallb (fun u => u <? t) seen) eqn:Hf; [|reflexivity].
      rewrite forallb_forall in Hf. specialize (Hf g Hin).
      apply FloatOrder.ltb_not_leb in Hf. congruence.
  - apply (FloatOrder.not_leb_ltb t g Ht Hgn) in Hle.
    apply andb_true_iff. split.
    + exact (FloatOrder.leb_ltb_trans _ _ _ Hinf Hle).
    + apply forallb_forall. intros u Hu.
      exact (FloatOrder.leb_ltb_trans _ _ _ (Hall u Hu) Hle).
Qed.

Lemma kept_from_maxima (rs : list Row) (g : float) (seen : list float) :
  numbered rs -> bounds g seen -> kept_from g rs = maxima seen rs.
Proof.
  intros Hn. revert g seen.
  induction Hn as [|row rs (t & Hts & Ht) Hrs IH]; intros g seen Hb;
    [reflexivity|].
  cbn [kept_from maxima]. rewrite Hts, (above_bound g t seen Hb Ht).
  destruct Hb as (Hinf & Hall & Hg).
  destruct (t <=? g) eqn:Hle; cbn [negb].
  - apply IH. split; [exact Hinf|]. split.
    + intros u [<- | Hu]; [exact Hle|now apply Hall].
    + destruct Hg; [now left|right; now right].
  - f_equal. apply IH.
    assert (Hgn : is_nan g = false).
    { rewrite FloatOrder.is_nan_false. intros Hnan.
      rewrite leb_spec, Hnan in Hinf. discriminate Hinf. }
    pose proof (FloatOrder.not_leb_ltb t g Ht Hgn Hle) as Hlt.
    split; [|split].
    + apply FloatOrder.ltb_leb.
      exact (FloatOrder.leb_ltb_trans _ _ _ Hinf Hlt).
    + intros u [<- | Hu]; [now apply FloatOrder.leb_refl|].
      apply FloatOrder.ltb_leb.
      exact (FloatOrder.leb_ltb_trans _ _ _ (Hall u Hu) Hlt).
    + right. now left.
Qed.

Lemma kept_from_length (rs : list Row) (g : float) :
  (List.length (kept_from g rs) <= List.length rs)%nat.
Proof.
  revert g. induction rs as [|row rs IH]; intros g; [reflexivity|].
  cbn [kept_from]. destruct (row_ts row) as [t|].
  - destruct (t <=? g); cbn [List.length].
    + specialize (IH g). lia.
    + specialize (IH t). lia.
  - cbn [List.length]. specialize (IH g). lia.
Qed.

Lemma timestamps_cons (row : Row) (rs : list Row) (t : float) :
  row_ts row = Some t -> timestamps (row :: rs) = t :: timestamps rs.
Proof. intros H. unfold timestamps. cbn. now rewrite H. Qed.

(** Every row is kept exactly when the rows arrive in ascending order. *)
Lemma kept_from_all (rs : list Row) (g : float) :
  numbered rs -> is_nan g = false ->
  kept_from g rs = rs <-> increasing_from g (timestamps rs) = true.
Proof.
  intros Hn. revert g.
  induction Hn as [|row rs (t & Hts & Ht) Hrs IH]; intros g Hg;
    [cbn; tauto|].
  rewrite (timestamps_cons row rs t Hts).
  cbn [kept_from increasing_from]. rewrite Hts.
  destruct (t <=? g) eqn:Hle.
  - split.
    + intros Heq. pose proof (kept_from_length rs g) as Hlen.
      rewrite Heq in Hlen. cbn [List.length] in Hlen. lia.
    + intros H. apply andb_true_iff in H as [Hlt _].
      apply FloatOrder.ltb_not_leb in Hlt. congruence.
  - rewrite (FloatOrder.not_leb_ltb t g Ht Hg Hle). cbn [andb].
    rewrite <- (IH t Ht). split; [intros H; now injection H|congruence].
Qed.

End GlobalScope.

(** *** The counters, in every scope *)

(** The rows of a pass that are not empty. *)
Definition non_empty_rows (rs : list Row) : list Row :=
  filter (fun row => match row with [] => false | _ :: _ => true end) rs.

(** From counters [forwarded] and [filtered], a step over [k] non-empty rows
    adds each yield to the first counter and, when it ends without an
    exception, accounts for every one of the [k] rows in one of the two. *)
Definition counted (forwarded filtered k : Z)
    (res : list event * state * option pyexn) : Prop :=
  let '(ev, st', e) := res in
  total_forwarded st' = (forwarded + Z.of_nat (List.length (yielded ev)))%Z
  /\ (e = None ->
      (total_forwarded st' + total_filtered st' = forwarded + filtered + k)%Z).

Lemma forward_counted (st : state) (row : Row) :
  counted (total_forwarded st) (total_filtered st) 1 (forward st row).
Proof. unfold counted, forward. cbn. split; [|intros _]; lia. Qed.

Lemma global_stage_counted (st : state) (row : Row) (ts_raw : string)
    (ts_val : float) :
  counted (total_forwarded st) (total_filtered st) 1
    (global_stage st row ts_raw ts_val).
Proof.
  unfold global_stage.
  destruct (scope_in "global" "both"); [|apply forward_counted].
  destruct (ts_val <=? last_ts_global st).
  - unfold counted. destruct verbose; cbn; (split; [|intros _]; lia).
  - apply (forward_counted
             (mkState ts_val (last_ts_by_key st) (total_forwarded st)
                (total_filtered st))).
Qed.

Lemma process_row_counted (st : state) (row : Row) :
  counted (total_forwarded st) (total_filtered st)
    (Z.of_nat (List.length (non_empty_rows [row]))) (process_row st row).
Proof.
  destruct row as [|c row']; [cbn; split; [|intros _]; lia|].
  change (Z.of_nat (List.length (non_empty_rows [c :: row']))) with 1%Z.
  unfold process_row. set (r := c :: row').
  destruct ((ts_col_index <? 0)%Z || (Z.of_nat (List.length r) <=? ts_col_index)%Z);
    [apply forward_counted|].
  destruct (py_get r ts_col_index) as [cell|];
    [|cbn; split; [lia|discriminate]].
  cbv zeta. destruct (parse_ts (strip cell)) as [ts_val| |];
    [|apply forward_counted|cbn; split; [lia|discriminate]].
  destruct (if scope_in "per-key" "both" then last_ts_by_key st else None)
    as [d|]; [|apply global_stage_counted].
  destruct key_col_index as [cols|]; [|apply global_stage_counted].
  destruct (key_of r cols) as [key|]; [|cbn; split; [lia|discriminate]].
  destruct (ts_val <=? dict_get d key neg_infinity).
  - unfold counted. destruct verbose; cbn; (split; [|intros _]; lia).
  - apply (global_stage_counted
             (mkState (last_ts_global st) (Some (dict_set d key ts_val))
                (total_forwarded st) (total_filtered st))).
Qed.

Lemma counted_seq (f0 d0 k1 k2 : Z) (ev : list event) (st1 : state)
    (res : list event * state * option pyexn) :
  counted f0 d0 k1 (ev, st1, None) ->
  counted (total_forwarded st1) (total_filtered st1) k2 res ->
  counted f0 d0 (k1 + k2)
    (let '(ev', st2, e) := res in (ev ++ ev', st2, e)).
Proof.
  destruct res as [[ev' st2] e]. unfold counted. intros [H1 H1'] [H2 H2'].
  specialize (H1' eq_refl). rewrite yielded_app, length_app.
  split; [lia|]. intros He. specialize (H2' He). lia.
Qed.

Lemma process_rows_counted (rs : list Row) :
  forall st,
    counted (total_forwarded st) (total_filtered st)
      (Z.of_nat (List.length (non_empty_rows rs))) (process_rows st rs).
Proof.
  induction rs as [|row rs IH]; intros st; [cbn; split; [|intros _]; lia|].
  cbn [process_rows]. pose proof (process_row_counted st row) as H1.
  destruct (process_row st row) as [[ev st1] [e|]].
  - destruct H1 as [H1 _]. split; [exact H1|discriminate].
  - replace (Z.of_nat (List.length (non_empty_rows (row :: rs))))
      with (Z.of_nat (List.length (non_empty_rows [row]))
            + Z.of_nat (List.length (non_empty_rows rs)))%Z.
    + apply (counted_seq _ _ _ _ ev st1); [exact H1|apply IH].
    + unfold non_empty_rows. cbn [filter]. destruct row; cbn [List.length]; lia.
Qed.

(** The rows a pass reads after the header test. *)
Definition pass_rows : list Row := if skip_header then tl rows else rows.

Lemma one_pass_counted (st : state) :
  counted (total_forwarded st) (total_filtered st)
    (Z.of_nat (List.length (non_empty_rows pass_rows))) (one_pass st).
Proof.
  unfold one_pass. fold pass_rows.
  pose proof (process_rows_counted pass_rows st) as H.
  destruct (process_rows st pass_rows) as [[ev st1] [e|]]; [exact H|].
  destruct H as [H1 H2]. unfold counted. rewrite yielded_app.
  replace (yielded (if verbose then _ else [])) with (@nil Row)
    by now destruct verbose.
  rewrite app_nil_r. split; [exact H1|exact H2].
Qed.

Lemma passes_counted (n : nat) :
  forall st,
    counted (total_forwarded st) (total_filtered st)
      (Z.of_nat n * Z.of_nat (List.length (non_empty_rows pass_rows)))
      (passes n st).
Proof.
  induction n as [|n IH]; intros st; [cbn; split; [|intros _]; lia|].
  cbn [passes]. pose proof (one_pass_counted st) as H1.
  destruct (one_pass st) as [[ev st1] [e|]].
  - destruct H1 as [H1 _]. split; [exact H1|discriminate].
  - replace (Z.of_nat (S n) * Z.of_nat (List.length (non_empty_rows pass_rows)))%Z
      with (Z.of_nat (List.length (non_empty_rows pass_rows))
            + Z.of_nat n * Z.of_nat (List.length (non_empty_rows pass_rows)))%Z
      by lia.
    apply (counted_seq _ _ _ _ ev st1); [exact H1|apply IH].
Qed.

(** X7. In every scope and after any number of passes over the file,
    [total_forwarded] is the number of rows yielded so far, and, unless an
    exception ended the run, [total_forwarded + total_filtered] is the number
    of non-empty rows read: each of them was either yielded or counted as
    filtered, an empty row neither. *)
Theorem counters_account_for_rows (n : nat) :
  exists ev st' e,
    passes n initial_state = (ev, st', e)
    /\ total_forwarded st' = Z.of_nat (List.length (yielded ev))
    /\ (e = None ->
        (total_forwarded st' + total_filtered st'
         = Z.of_nat n * Z.of_nat (List.length (non_empty_rows pass_rows)))%Z).
Proof.
  pose proof (passes_counted n initial_state) as H.
  destruct (passes n initial_state) as [[ev st'] e].
  exists ev, st', e. split; [reflexivity|]. destruct H as [H1 H2].
  cbn [initial_state total_forwarded total_filtered] in H1, H2.
  split; [lia|]. intros He. specialize (H2 He). lia.
Qed.

(** *** A bound that a run keeps, for a selection of the rows *)

Section Tracked.

(** The bound of the state that is compared, the rows it is compared for,
    and what the state keeps besides. *)
Variable track : state -> float.
Variable sel : Row -> bool.
Variable Inv : state -> Prop.

Definition tracked_ts (ev : list event) : list float :=
  timestamps (filter sel (yielded ev)).

Definition keeps_bound (st : state)
    (res : list event * state * option pyexn) : Prop :=
  let '(ev, st', _) := res in
  Inv st'
  /\ increasing_from (track st) (tracked_ts ev) = true
  /\ track st' = List.last (tracked_ts ev) (track st).

Definition sound (st : state) : Prop :=
  Inv st /\ is_nan (track st) = false.

Hypothesis row_keeps_bound :
  forall st row, In row rows -> sound st -> keeps_bound st (process_row st row).

Lemma tracked_ts_app (ev ev' : list event) :
  tracked_ts (ev ++ ev') = tracked_ts ev ++ tracked_ts ev'.
Proof.
  unfold tracked_ts. now rewrite yielded_app, filter_app, timestamps_app.
Qed.

Lemma keeps_bound_sound (st st' : state) (ev : list event) (e : option pyexn) :
  sound st -> keeps_bound st (ev, st', e) -> sound st'.
Proof.
  intros [_ Hn] (Hi & Hinc & Hl). split; [exact Hi|].
  rewrite Hl. now apply increasing_last_number.
Qed.

Lemma keeps_bound_seq (st st1 : state) (ev : list event)
    (res : list event * state * option pyexn) :
  keeps_bound st (ev, st1, None) -> keeps_bound st1 res ->
  keeps_bound st (let '(ev', st2, e) := res in (ev ++ ev', st2, e)).
Proof.
  destruct res as [[ev' st2] e]. intros (_ & Hinc & Hl) (Hi' & Hinc' & Hl').
  split; [exact Hi'|].
  rewrite tracked_ts_app, increasing_from_app, Hinc, <- Hl.
  split; [exact Hinc'|]. now rewrite Hl', last_app_default, Hl.
Qed.

Lemma rows_keep_bound (rs : list Row) :
  (forall row, In row rs -> In row rows) ->
  forall st, sound st -> keeps_bound st (process_rows st rs).
Proof.
  induction rs as [|row rs IH]; intros Hin st Hst.
  - cbn. split; [apply Hst|]. split; reflexivity.
  - cbn [process_rows].
    pose proof (row_keeps_bound st row (Hin row (or_introl eq_refl)) Hst) as H1.
    destruct (process_row st row) as [[ev st1] [e|]]; [exact H1|].
    apply (keeps_bound_seq st st1 ev); [exact H1|].
    apply IH; [intros r Hr; apply Hin; now right|].
    exact (keeps_bound_sound st st1 ev None Hst H1).
Qed.

Lemma pass_keeps_bound (st : state) : sound st -> keeps_bound st (one_pass st).
Proof.
  intros Hst. unfold one_pass. fold pass_rows.
  assert (Hin : forall row, In row pass_rows -> In row rows).
  { unfold pass_rows. destruct skip_header; [|auto].
    intros row Hr. destruct rows; [contradiction|now right]. }
  pose proof (rows_keep_bound pass_rows Hin st Hst) as H.
  destruct (process_rows st pass_rows) as [[ev st1] [e|]]; [exact H|].
  destruct H as (Hi & Hinc & Hl). unfold keeps_bound.
  rewrite tracked_ts_app.
  replace (tracked_ts (if verbose then _ else [])) with (@nil float)
    by now destruct verbose.
  rewrite app_nil_r. auto.
Qed.

Lemma passes_keep_bound (n : nat) :
  forall st, sound st -> keeps_bound st (passes n st).
Proof.
  induction n as [|n IH]; intros st Hst.
  - cbn. split; [apply Hst|]. split; reflexivity.
  - cbn [passes]. pose proof (pass_keeps_bound st Hst) as H1.
    destruct (one_pass st) as [[ev st1] [e|]]; [exact H1|].
    apply (keeps_bound_seq st st1 ev); [exact H1|].
    apply IH. exact (keeps_bound_sound st st1 ev None Hst H1).
Qed.

Lemma generator_keeps_bound (drawn : nat) :
  sound initial_state ->
  strictly_increasing (tracked_ts (fst (iter_filtered_csv_lines drawn))) = true.
Proof.
  intros Hst. unfold iter_filtered_csv_lines.
  destruct is_file; [|reflexivity]. cbn [negb].
  pose proof (passes_keep_bound (if loop then drawn else 1%nat) initial_state Hst)
    as H.
  destruct (passes _ initial_state) as [[ev st'] e]. cbn [fst].
  destruct H as (_ & Hinc & _). exact (increasing_from_strictly _ _ Hinc).
Qed.

End Tracked.

Lemma filter_all (rs : list Row) : filter (fun _ => true) rs = rs.
Proof. induction rs as [|r rs IH]; cbn; congruence. Qed.

(** *** The scopes with a global stage *)

Section GlobalStage.

Hypothesis Hscope : order_scope = "global"%string \/ order_scope = "both"%string.
Hypothesis Hnumbers : numbers rows.

Lemma scope_has_global : scope_in "global" "both" = true.
Proof. unfold scope_in. destruct Hscope as [-> | ->]; reflexivity. Qed.

Lemma global_stage_keeps_bound (st s : state) (row : Row) (ts_raw : string)
    (t : float) :
  row_ts row = Some t -> is_nan t = false ->
  is_nan (last_ts_global st) = false ->
  last_ts_global s = last_ts_global st ->
  keeps_bound last_ts_global (fun _ => true) (fun _ => True) st
    (global_stage s row ts_raw t).
Proof.
  intros Hts Ht Hg Hs. unfold global_stage. rewrite scope_has_global, Hs.
  destruct (t <=? last_ts_global st) eqn:Hle.
  - split; [exact I|]. unfold tracked_ts.
    replace (yielded (if verbose then _ else [])) with (@nil Row)
      by now destruct verbose.
    cbn. auto.
  - unfold forward, keeps_bound, tracked_ts. cbn [yielded flat_map app].
    rewrite filter_all. cbn [timestamps flat_map]. rewrite Hts.
    cbn [app increasing_from List.last last_ts_global].
    rewrite andb_true_r. split; [exact I|]. split; [|reflexivity].
    now apply FloatOrder.not_leb_ltb.
Qed.

Lemma row_keeps_global_bound (st : state) (row : Row) :
  In row rows -> sound last_ts_global (fun _ => True) st ->
  keeps_bound last_ts_global (fun _ => true) (fun _ => True) st
    (process_row st row).
Proof.
  intros Hin [_ Hg]. destruct (row_ts row) as [t|] eqn:Hts.
  - pose proof (Hnumbers row t Hin Hts) as Ht.
    destruct row as [|c row'];
      [rewrite empty_row_has_no_ts in Hts; discriminate|].
    unfold process_row. unfold row_ts in Hts. set (r := c :: row') in *.
    destruct ((ts_col_index <? 0)%Z || (Z.of_nat (List.length r) <=? ts_col_index)%Z)
      eqn:Hrange; [discriminate|].
    destruct (py_get r ts_col_index) as [cell|] eqn:Hcell; [|discriminate].
    cbv zeta. destruct (parse_ts (strip cell)) as [v| |] eqn:Hparse;
      try discriminate.
    injection Hts as ->.
    assert (Hrow : row_ts r = Some t)
      by (unfold row_ts; now rewrite Hrange, Hcell, Hparse).
    assert (Hnone : forall e : option pyexn,
               keeps_bound last_ts_global (fun _ => true) (fun _ => True) st
                 (@nil event, st, e))
      by (intros e; split; [exact I|split; reflexivity]).
    destruct (if scope_in "per-key" "both" then last_ts_by_key st else None)
      as [d|]; [|now apply global_stage_keeps_bound].
    destruct key_col_index as [cols|]; [|now apply global_stage_keeps_bound].
    destruct (key_of r cols) as [key|]; [|apply Hnone].
    destruct (t <=? dict_get d key neg_infinity).
    + split; [exact I|]. unfold tracked_ts.
      replace (yielded (if verbose then _ else [])) with (@nil Row)
        by now destruct verbose.
      cbn. auto.
    + now apply global_stage_keeps_bound.
  - destruct (process_row_unnumbered st row Hts) as (ev & st' & e & -> & Hl & Hy).
    split; [exact I|]. unfold tracked_ts. rewrite filter_all, Hy. cbn. auto.
Qed.

(** X8. Under the global scope and under the scope [both], whatever key columns
    are given and however many passes the loop makes, the rows forwarded so
    far carry strictly increasing timestamps, provided that no timestamp of
    the file is a NaN; rows without a readable timestamp pass in between. *)
Theorem global_stage_increasing (drawn : nat) :
  strictly_increasing
    (timestamps (yielded (fst (iter_filtered_csv_lines drawn)))) = true.
Proof.
  pose proof (generator_keeps_bound last_ts_global (fun _ => true)
                (fun _ => True) row_keeps_global_bound drawn) as H.
  unfold tracked_ts in H. rewrite filter_all in H. apply H.
  split; [exact I|reflexivity].
Qed.

End GlobalStage.

(** *** The per-key scope *)

(** The row has key [k] in the columns [cols]. *)
Definition has_key (cols : list Z) (k : Key) (row : Row) : bool :=
  match key_of row cols with
  | Some key => key_eqb k key
  | None => false
  end.

(** [last_ts_by_key.get(k, float("-inf"))], negative infinity without a
    dictionary. *)
Definition last_of_key (k : Key) (st : state) : float :=
  match last_ts_by_key st with
  | Some d => dict_get d k neg_infinity
  | None => neg_infinity
  end.

Definition has_dict (st : state) : Prop := last_ts_by_key st <> None.

Lemma key_eqb_eq (a b : Key) : key_eqb a b = true <-> a = b.
Proof.
  unfold key_eqb. destruct (list_eq_dec string_dec a b); split; auto.
  discriminate.
Qed.

Lemma dict_get_set (d : Dict) (key q : Key) (v default : float) :
  dict_get (dict_set d key v) q default
  = if key_eqb q key then v else dict_get d q default.
Proof.
  induction d as [|[k' v'] d IH]; cbn [dict_set dict_get]; [reflexivity|].
  destruct (key_eqb key k') eqn:E; cbn [dict_get].
  - apply key_eqb_eq in E. subst k'. now destruct (key_eqb q key).
  - rewrite IH. destruct (key_eqb q k') eqn:E1; [|reflexivity].
    destruct (key_eqb q key) eqn:E2; [|reflexivity].
    apply key_eqb_eq in E1, E2. rewrite <- E1, <- E2 in E.
    assert (key_eqb q q = true) by now apply key_eqb_eq. congruence.
Qed.

Lemma timestamps_filter_nil (sel : Row -> bool) (rs : list Row) :
  timestamps rs = [] -> timestamps (filter sel rs) = [].
Proof.
  induction rs as [|r rs IH]; [reflexivity|].
  unfold timestamps in *. cbn [flat_map filter]. intros H.
  apply app_eq_nil in H as [Hr Hrs]. destruct (sel r); [|now apply IH].
  cbn [flat_map]. rewrite Hr. now apply IH.
Qed.

(** A row without a timestamp leaves the dictionary alone. *)
Lemma process_row_unnumbered_dict (st : state) (row : Row) :
  row_ts row = None ->
  exists ev st' e,
    process_row st row = (ev, st', e)
    /\ last_ts_by_key st' = last_ts_by_key st
    /\ timestamps (yielded ev) = [].
Proof.
  intros Hts.
  assert (Hnone : forall e : option pyexn, exists ev st' e',
             (@nil event, st, e) = (ev, st', e')
             /\ last_ts_by_key st' = last_ts_by_key st
             /\ timestamps (yielded ev) = [])
    by (intros e; do 3 eexists; repeat split; reflexivity).
  assert (Hforward : exists ev st' e',
             forward st row = (ev, st', e')
             /\ last_ts_by_key st' = last_ts_by_key st
             /\ timestamps (yielded ev) = []).
  { unfold forward. do 3 eexists. repeat split; try reflexivity.
    cbn. now rewrite Hts. }
  unfold process_row. destruct row as [|c row']; [apply Hnone|].
  unfold row_ts in Hts. set (r := c :: row') in *.
  destruct ((ts_col_index <? 0)%Z || (Z.of_nat (List.length r) <=? ts_col_index)%Z);
    [exact Hforward|].
  destruct (py_get r ts_col_index) as [cell|]; [|apply Hnone].
  destruct (parse_ts (strip cell)); [discriminate|exact Hforward|apply Hnone].
Qed.

Section PerKey.

Variable cols : list Z.
Variable k : Key.

Hypothesis Hscope : order_scope = "per-key"%string.
Hypothesis Hcols : key_col_index = Some cols.
Hypothesis Hcols_ne : cols <> [].
Hypothesis Hnumbers : numbers rows.

Lemma scope_has_per_key : scope_in "per-key" "both" = true.
Proof. unfold scope_in. now rewrite Hscope. Qed.

Lemma scope_lacks_global : scope_in "global" "both" = false.
Proof. unfold scope_in. now rewrite Hscope. Qed.

Lemma row_keeps_key_bound (st : state) (row : Row) :
  In row rows -> sound (last_of_key k) has_dict st ->
  keeps_bound (last_of_key k) (has_key cols k) has_dict st (process_row st row).
Proof.
  intros Hin [Hd Hg]. destruct (row_ts row) as [t|] eqn:Hts.
  - pose proof (Hnumbers row t Hin Hts) as Ht.
    destruct row as [|c row'];
      [rewrite empty_row_has_no_ts in Hts; discriminate|].
    unfold process_row. unfold row_ts in Hts. set (r := c :: row') in *.
    destruct ((ts_col_index <? 0)%Z || (Z.of_nat (List.length r) <=? ts_col_index)%Z)
      eqn:Hrange; [discriminate|].
    destruct (py_get r ts_col_index) as [cell|] eqn:Hcell; [|discriminate].
    cbv zeta. destruct (parse_ts (strip cell)) as [v| |] eqn:Hparse;
      try discriminate.
    injection Hts as ->.
    assert (Hrow : row_ts r = Some t)
      by (unfold row_ts; now rewrite Hrange, Hcell, Hparse).
    rewrite scope_has_per_key, Hcols.
    unfold has_dict in Hd. unfold last_of_key in Hg.
    destruct (last_ts_by_key st) as [d|] eqn:Hdict; [|congruence].
    destruct (key_of r cols) as [key|] eqn:Hkey.
    + destruct (t <=? dict_get d key neg_infinity) eqn:Hle.
      * split; [unfold has_dict; cbn; congruence|]. unfold tracked_ts.
        replace (yielded (if verbose then _ else [])) with (@nil Row)
          by now destruct verbose.
        cbn. unfold last_of_key. rewrite Hdict. auto.
      * unfold global_stage. rewrite scope_lacks_global.
        unfold forward, keeps_bound, tracked_ts, last_of_key, has_dict.
        cbn [yielded flat_map app filter last_ts_by_key].
        unfold has_key at 1 2. rewrite Hkey, Hdict, dict_get_set.
        destruct (key_eqb k key) eqn:Ek.
        -- apply key_eqb_eq in Ek. subst key.
           cbn [timestamps flat_map]. rewrite Hrow.
           cbn [app increasing_from List.last]. rewrite andb_true_r.
           split; [discriminate|]. split; [|reflexivity].
           now apply FloatOrder.not_leb_ltb.
        -- cbn. split; [discriminate|]. split; reflexivity.
    + split; [unfold has_dict; congruence|]. split; reflexivity.
  - destruct (process_row_unnumbered_dict st row Hts)
      as (ev & st' & e & -> & Hl & Hy).
    unfold keeps_bound, tracked_ts, last_of_key, has_dict.
    rewrite Hl, (timestamps_filter_nil _ _ Hy). cbn. auto.
Qed.

(** X9. Under the per-key scope with key columns, for every key the forwarded
    rows that carry this key have strictly increasing timestamps, however
    the keys interleave and however many passes the loop makes, provided
    that no timestamp of the file is a NaN. *)
Theorem per_key_increasing (drawn : nat) :
  strictly_increasing
    (timestamps
       (filter (has_key cols k) (yielded (fst (iter_filtered_csv_lines drawn)))))
  = true.
Proof.
  apply (generator_keeps_bound (last_of_key k) (has_key cols k) has_dict
           row_keeps_key_bound drawn).
  unfold sound, has_dict, last_of_key, initial_state, key_columns.
  rewrite Hcols. destruct cols; [congruence|].
  cbn. split; [discriminate|reflexivity].
Qed.

End PerKey.

(** *** Replaying the file under the global scope *)

Section Replay.

Hypothesis Hscope : order_scope = "global"%string.

Lemma leb_trans_numbers (a b c : float) :
  is_nan a = false -> is_nan c = false ->
  (a <=? b) = true -> (b <=? c) = true -> (a <=? c) = true.
Proof.
  intros Ha Hc Hab Hbc. destruct (a <=? c) eqn:Hac; [reflexivity|].
  pose proof (FloatOrder.not_leb_ltb a c Ha Hc Hac) as Hlt.
  pose proof (FloatOrder.leb_ltb_trans b c a Hbc Hlt) as Hba.
  apply FloatOrder.ltb_not_leb in Hba. congruence.
Qed.

(** After a pass from bound [g], the bound is at least [g] and at least
    every timestamp of the pass. *)
Lemma final_bound (rs : list Row) :
  numbered rs ->
  forall g,
    is_nan g = false ->
    let g' := List.last (timestamps (kept_from g rs)) g in
    is_nan g' = false
    /\ (g <=? g') = true
    /\ forall row t, In row rs -> row_ts row = Some t -> (t <=? g') = true.
Proof.
  intros Hn. induction Hn as [|row rs (t & Hts & Ht) Hrs IH]; intros g Hg.
  - cbn. split; [exact Hg|]. split; [now apply FloatOrder.leb_refl|].
    intros row t [].
  - cbn [kept_from]. rewrite Hts. destruct (t <=? g) eqn:Hle.
    + destruct (IH g Hg) as (Hn' & Hgg & Hall). cbv zeta.
      split; [exact Hn'|]. split; [exact Hgg|].
      intros r u [<- | Hr] Hu; [|now apply (Hall r)].
      assert (u = t) by congruence. subst u.
      now apply (leb_trans_numbers t g).
    + destruct (IH t Ht) as (Hn' & Htg & Hall). cbv zeta.
      rewrite (timestamps_cons row _ t Hts), last_cons.
      split; [exact Hn'|]. split.
      * apply (leb_trans_numbers g t); auto.
        apply FloatOrder.ltb_leb. now apply FloatOrder.not_leb_ltb.
      * intros r u [<- | Hr] Hu; [|now apply (Hall r)].
        assert (u = t) by congruence. now subst u.
Qed.

(** A pass whose timestamps are all at or below the bound keeps nothing. *)
Lemma kept_from_above (rs : list Row) (g : float) :
  numbered rs ->
  (forall row t, In row rs -> row_ts row = Some t -> (t <=? g) = true) ->
  kept_from g rs = [].
Proof.
  intros Hn. induction Hn as [|row rs (t & Hts & Ht) Hrs IH]; intros Hall;
    [reflexivity|].
  cbn [kept_from]. rewrite Hts, (Hall row t (or_introl eq_refl) Hts).
  apply IH. intros r u Hr. apply Hall. now right.
Qed.

Lemma numbered_numbers (rs : list Row) : numbered rs -> numbers rs.
Proof.
  intros Hn row t Hin Hts. unfold numbered in Hn. rewrite Forall_forall in Hn.
  destruct (Hn row Hin) as (t' & Hts' & Ht'). congruence.
Qed.

Lemma numbered_pass_rows : numbered rows -> numbered pass_rows.
Proof.
  unfold pass_rows. destruct skip_header; [|auto].
  intros H. destruct H; [constructor|assumption].
Qed.

(** One pass over numbered rows: what it yields and where the bound ends. *)
Lemma one_pass_numbered (st : state) :
  numbered pass_rows -> is_nan (last_ts_global st) = false ->
  exists ev st',
    one_pass st = (ev, st', None)
    /\ yielded ev = kept_from (last_ts_global st) pass_rows
    /\ last_ts_global st'
       = List.last (timestamps (kept_from (last_ts_global st) pass_rows))
           (last_ts_global st).
Proof.
  intros Hn Hg.
  destruct (process_rows_numbered Hscope pass_rows st Hn) as (ev & st' & Hp & Hy).
  destruct (process_rows_increasing Hscope pass_rows st Hg (numbered_numbers _ Hn))
    as (ev0 & st0 & e0 & Hp0 & _ & Hl).
  rewrite Hp in Hp0. injection Hp0 as <- <- <-.
  unfold one_pass. fold pass_rows. rewrite Hp.
  do 2 eexists. split; [reflexivity|]. rewrite yielded_app.
  replace (yielded (if verbose then _ else [])) with (@nil Row)
    by now destruct verbose.
  rewrite app_nil_r. split; [exact Hy|]. now rewrite Hl, Hy.
Qed.

Lemma saturated_passes (n : nat) :
  numbered pass_rows ->
  forall st,
    is_nan (last_ts_global st) = false ->
    (forall row t, In row pass_rows -> row_ts row = Some t ->
                   (t <=? last_ts_global st) = true) ->
    exists ev st', passes n st = (ev, st', None) /\ yielded ev = [].
Proof.
  intros Hn. induction n as [|n IH]; intros st Hg Hall.
  - exists [], st. split; reflexivity.
  - destruct (one_pass_numbered st Hn Hg) as (ev & st1 & Hp & Hy & Hl).
    rewrite (kept_from_above pass_rows _ Hn Hall) in Hy, Hl.
    cbn in Hl.
    destruct (IH st1) as (ev' & st2 & Hp' & Hy');
      [now rewrite Hl|now rewrite Hl|].
    cbn [passes]. rewrite Hp, Hp'. exists (ev ++ ev'), st2.
    split; [reflexivity|]. now rewrite yielded_app, Hy, Hy'.
Qed.

(** However often the body of [while True] runs, at least once, over
    numbered rows, it ends without exception and what it yields is what the
    first pass keeps, starting from negative infinity. *)
Lemma passes_from_start (n : nat) :
  numbered pass_rows ->
  exists ev st',
    passes (S n) initial_state = (ev, st', None)
    /\ yielded ev = kept_from neg_infinity pass_rows.
Proof.
  intros Hn. cbn [passes].
  destruct (one_pass_numbered initial_state Hn eq_refl)
    as (ev & st1 & Hp & Hy & Hl).
  destruct (final_bound pass_rows Hn neg_infinity eq_refl)
    as (Hnan & _ & Hall).
  cbn [initial_state last_ts_global] in Hy, Hl.
  destruct (saturated_passes n Hn st1) as (ev' & st2 & Hp' & Hy');
    [now rewrite Hl|now rewrite Hl|].
  rewrite Hp, Hp'. exists (ev ++ ev'), st2. split; [reflexivity|].
  now rewrite yielded_app, Hy', app_nil_r, Hy.
Qed.

(** What a pass keeps carries increasing timestamps, all above its bound. *)
Lemma kept_from_increasing (rs : list Row) :
  numbered rs ->
  forall g,
    is_nan g = false ->
    increasing_from g (timestamps (kept_from g rs)) = true.
Proof.
  intros Hn. induction Hn as [|row rs (t & Hts & Ht) Hrs IH]; intros g Hg;
    [reflexivity|].
  cbn [kept_from]. rewrite Hts. destruct (t <=? g) eqn:Hle; [now apply IH|].
  rewrite (timestamps_cons row _ t Hts). cbn [increasing_from].
  rewrite (FloatOrder.not_leb_ltb t g Ht Hg Hle). now apply IH.
Qed.

Lemma bounds_at_start : bounds neg_infinity [].
Proof. split; [reflexivity|]. split; [intros u []|now left]. Qed.

(** C2, amended. Under the global scope, with or without [loop] and
    [skip_header], when every row read in a pass (every row of the file,
    less the first one under [skip_header]) carries a number in its
    timestamp column (any permutation of 0..N-1 is such a file), the
    generator, once its loop body has run at least once, has raised nothing
    and has never held a row back: it has yielded, in arrival order, exactly
    the rows whose timestamp is greater than negative infinity and greater
    than the timestamp of every earlier row, so the yielded timestamps
    strictly increase, and every other row is discarded for good.  All rows
    read are yielded exactly when their timestamps arrive in strictly
    ascending order, the first one above negative infinity. *)
Theorem released_are_running_maxima (drawn : nat) :
  is_file = true ->
  numbered pass_rows ->
  exists evs,
    iter_filtered_csv_lines (S drawn) = (evs, None)
    /\ yielded evs = maxima [] pass_rows
    /\ strictly_increasing (timestamps (yielded evs)) = true
    /\ (yielded evs = pass_rows
        <-> increasing_from neg_infinity (timestamps pass_rows) = true).
Proof.
  intros Hfile Hn.
  unfold iter_filtered_csv_lines. rewrite Hfile. cbn [negb].
  destruct (passes_from_start (if loop then drawn else 0%nat) Hn)
    as (ev & st' & Hp & Hy).
  replace (S (if loop then drawn else 0%nat))
    with (if loop then S drawn else 1%nat) in Hp by now destruct loop.
  rewrite Hp. exists ev. split; [reflexivity|]. rewrite Hy.
  split; [|split].
  - apply kept_from_maxima; [exact Hn|exact bounds_at_start].
  - apply (increasing_from_strictly neg_infinity).
    now apply kept_from_increasing.
  - apply kept_from_all; [exact Hn|reflexivity].
Qed.

(** X10. Under the global scope with [loop] set, when every row carries a
    number, only the first pass over the file forwards rows: the rows it
    forwards are those whose timestamp is above negative infinity and above
    that of every earlier row, and however often the file is replayed
    afterwards, nothing more is ever yielded and no exception is raised. *)
Theorem replay_forwards_nothing (drawn : nat) :
  is_file = true -> loop = true -> numbered rows ->
  exists evs,
    iter_filtered_csv_lines (S drawn) = (evs, None)
    /\ yielded evs = maxima [] pass_rows
    /\ yielded evs = yielded (fst (iter_filtered_csv_lines 1)).
Proof.
  intros Hfile Hloop Hn. apply numbered_pass_rows in Hn.
  unfold iter_filtered_csv_lines.
  rewrite Hfile, Hloop. cbn [negb].
  destruct (passes_from_start drawn Hn) as (ev & st' & Hp & Hy).
  destruct (passes_from_start 0 Hn) as (ev1 & st1 & Hp1 & Hy1).
  rewrite Hp, Hp1. cbn [fst]. exists ev. split; [reflexivity|].
  rewrite Hy, Hy1. split; [|reflexivity].
  apply kept_from_maxima; [exact Hn|exact bounds_at_start].
Qed.

End Replay.

(** *** The per-key scope without key columns *)

Section NoKeyColumns.

Hypothesis Hscope : order_scope = "per-key"%string.
Hypothesis Hcols : key_columns = None.

(** No timestamp cell of the pass holds an integer too large for a float. *)
Definition no_overflow (rs : list Row) : Prop :=
  forall row cell,
    In row rs -> py_get row ts_col_index = Some cell ->
    parse_ts (strip cell) <> TsOverflow.

Lemma py_get_in_range (row : Row) (i : Z) :
  (0 <= i < Z.of_nat (List.length row))%Z -> py_get row i <> None.
Proof.
  intros Hi. unfold py_get. destruct (Z.leb_spec 0 i) as [_|]; [|lia].
  apply nth_error_Some. lia.
Qed.

Lemma process_row_unfiltered (st : state) (row : Row) :
  last_ts_by_key st = None -> no_overflow [row] ->
  exists ev st',
    process_row st row = (ev, st', None)
    /\ last_ts_by_key st' = None
    /\ yielded ev = non_empty_rows [row].
Proof.
  intros Hd Hover. destruct row as [|c row'].
  - exists [], st. auto.
  - unfold process_row. set (r := c :: row') in *.
    assert (Hfw : forall s, last_ts_by_key s = None ->
               exists ev st',
                 forward s r = (ev, st', None)
                 /\ last_ts_by_key st' = None
                 /\ yielded ev = non_empty_rows [r])
      by (intros s Hs; unfold forward; do 2 eexists; now repeat split).
    destruct (Z.ltb_spec ts_col_index 0) as [Hneg|Hpos]; cbn [orb];
      [now apply Hfw|].
    destruct (Z.leb_spec (Z.of_nat (List.length r)) ts_col_index) as [Hge|Hlt];
      [now apply Hfw|].
    destruct (py_get r ts_col_index) as [cell|] eqn:Hcell;
      [|exfalso; revert Hcell; apply py_get_in_range; lia].
    cbv zeta. specialize (Hover r cell (or_introl eq_refl) Hcell).
    destruct (parse_ts (strip cell)) as [t| |]; [|now apply Hfw|congruence].
    rewrite Hd.
    replace (if scope_in "per-key" "both" then @None Dict else None)
      with (@None Dict) by now destruct (scope_in "per-key" "both").
    unfold global_stage, scope_in. rewrite Hscope. cbn [String.eqb Ascii.eqb
      Bool.eqb orb]. now apply Hfw.
Qed.

Lemma process_rows_unfiltered (rs : list Row) :
  no_overflow rs ->
  forall st,
    last_ts_by_key st = None ->
    exists ev st',
      process_rows st rs = (ev, st', None)
      /\ last_ts_by_key st' = None
      /\ yielded ev = non_empty_rows rs.
Proof.
  induction rs as [|row rs IH]; intros Hover st Hd.
  - exists [], st. auto.
  - destruct (process_row_unfiltered st row Hd) as (ev & st1 & Hp & Hd1 & Hy).
    { intros r cell [<- | []]. apply Hover. now left. }
    destruct (IH (fun r cell Hr => Hover r cell (or_intror Hr)) st1 Hd1)
      as (ev' & st2 & Hp' & Hd2 & Hy').
    cbn [process_rows]. rewrite Hp, Hp'. exists (ev ++ ev'), st2.
    split; [reflexivity|]. split; [exact Hd2|].
    rewrite yielded_app, Hy, Hy'. unfold non_empty_rows. cbn [filter].
    now destruct row.
Qed.

(** X11. Under the per-key scope without key columns no ordering is enforced: a
    pass forwards every non-empty row, in file order, whatever the
    timestamps are, as long as none of them raises [OverflowError]. *)
Theorem per_key_without_columns (drawn : nat) :
  is_file = true -> loop = false -> no_overflow pass_rows ->
  exists evs,
    iter_filtered_csv_lines drawn = (evs, None)
    /\ yielded evs = non_empty_rows pass_rows.
Proof.
  intros Hfile Hloop Hover. unfold iter_filtered_csv_lines.
  rewrite Hfile, Hloop. cbn [negb passes]. unfold one_pass. fold pass_rows.
  destruct (process_rows_unfiltered pass_rows Hover initial_state)
    as (ev & st' & Hp & _ & Hy).
  { unfold initial_state. now rewrite Hcols. }
  rewrite Hp. eexists. split; [reflexivity|].
  rewrite app_nil_r, yielded_app, Hy.
  replace (yielded (if verbose then _ else [])) with (@nil Row)
    by now destruct verbose.
  now rewrite app_nil_r.
Qed.

End NoKeyColumns.

End Filter.

(** *** The builtins on the literals of the examples *)

(** [int(s)] on plain decimal literals with an optional sign. *)
Definition digit (c : ascii) : option Z :=
  let n := uchar c in
  if ((48 <=? n) && (n <=? 57))%Z then Some (n - 48)%Z else None.

Fixpoint digits (s : string) (acc : Z) : option Z :=
  match s with
  | EmptyString => Some acc
  | String c s' =>
      match digit c with
      | Some d => digits s' (10 * acc + d)%Z
      | None => None
      end
  end.

Definition dec_int (s : string) : option Z :=
  match s with
  | EmptyString => None
  | String "-"%char (String c s') => option_map Z.opp (digits (String c s') 0)
  | String "+"%char (String c s') => digits (String c s') 0
  | _ => digits s 0
  end.

(** [float(s)] on the literals that are not integers: the special values. *)
Definition special_float (s : string) : option float :=
  if String.eqb s "nan" then Some nan
  else if String.eqb s "inf" then Some infinity
  else if String.eqb s "-inf" then Some neg_infinity
  else None.

(** [s.strip()] for ASCII white space. *)
Definition is_space (c : ascii) : bool :=
  let n := uchar c in ((n =? 32) || ((9 <=? n) && (n <=? 13)))%Z.

Fixpoint lstrip (s : string) : string :=
  match s with
  | String c s' => if is_space c then lstrip s' else s
  | EmptyString => EmptyString
  end.

Fixpoint rstrip (s : string) : string :=
  match s with
  | EmptyString => EmptyString
  | String c s' =>
      match rstrip s' with
      | EmptyString => if is_space c then EmptyString else String c EmptyString
      | r => String c r
      end
  end.

Definition ascii_strip (s : string) : string := rstrip (lstrip s).

(** The server's defaults: timestamp in column 0, global scope, one pass. *)
Definition run_default (rows : list Row) : list event * option pyexn :=
  iter_filtered_csv_lines dec_int special_float ascii_strip
    true rows false "," 0 false false None "global" 1.

Definition released (rows : list Row) : list Row :=
  yielded (fst (run_default rows)).

Definition timestamps_default (rs : list Row) : list float :=
  timestamps dec_int special_float ascii_strip 0 rs.

Local Open Scope string_scope.

(** C2 as stated fails: of the permutation 0, 2, 3, 1 the filter yields
    0, 2, 3 and never 1; of 2, 0, 1 it yields 2 alone. *)
Lemma released_not_reordered :
  released [["0"]; ["2"]; ["3"]; ["1"]] = [["0"]; ["2"]; ["3"]]
  /\ released [["2"]; ["0"]; ["1"]] = [["2"]]
  /\ released [["2"]; ["0"]; ["1"]] <> [["0"]; ["1"]; ["2"]].
Proof.
  split; [vm_compute; reflexivity|].
  split; [vm_compute; reflexivity|].
  vm_compute. discriminate.
Qed.

(** Three buffers arriving as 2, 0, 1, each with one record of group X. *)
Definition scenario1 : list Row := [["2"; "X"]; ["0"; "X"]; ["1"; "X"]].

Example scenario1_released : released scenario1 = [["2"; "X"]].
Proof. vm_compute. reflexivity. Qed.

(** A file with a header line, replayed: 0, 2, negative infinity, 3, 1. *)
Definition replayed_file : list Row :=
  [["seq"; "group"]; ["0"; "X"]; ["2"; "X"]; ["-inf"; "X"]; ["3"; "X"];
   ["1"; "X"]].

Lemma released_are_running_maxima_witness :
  exists evs,
    iter_filtered_csv_lines dec_int special_float ascii_strip
      true replayed_file true "," 0 true false None "global" 3 = (evs, None)
    /\ yielded evs
       = maxima dec_int special_float ascii_strip 0 [] (tl replayed_file)
    /\ strictly_increasing (timestamps_default (yielded evs)) = true
    /\ (yielded evs = tl replayed_file
        <-> increasing_from neg_infinity
              (timestamps_default (tl replayed_file)) = true).
Proof.
  apply (released_are_running_maxima dec_int special_float ascii_strip
           true replayed_file true "," 0%Z true false None "global" eq_refl
           2%nat eq_refl).
  repeat constructor; eexists; split; vm_compute; reflexivity.
Defined.

Example replayed_file_released :
  yielded (fst (iter_filtered_csv_lines dec_int special_float ascii_strip
                  true replayed_file true "," 0 true false None "global" 3))
  = [["0"; "X"]; ["2"; "X"]; ["3"; "X"]].
Proof. vm_compute. reflexivity. Qed.

(** A row at negative infinity is never forwarded, not even first. *)
Example negative_infinity_dropped : released [["-inf"]] = [].
Proof. vm_compute. reflexivity. Qed.

(** C6 at the failing input: the rows 5, nan, 3 are all forwarded, so the
    forwarded timestamps do not increase and the row 3, which is below the
    forwarded 5, is not dropped. *)
Theorem nan_breaks_order :
  run_default [["5"]; ["nan"]; ["3"]]
  = ([Yield ["5"] (String "5" (String "010" EmptyString));
      Yield ["nan"] ("nan" ++ String "010" EmptyString);
      Yield ["3"] (String "3" (String "010" EmptyString))], None)
  /\ timestamps_default (released [["5"]; ["nan"]; ["3"]])
     = [5%float; nan; 3%float]
  /\ strictly_increasing
       (timestamps_default (released [["5"]; ["nan"]; ["3"]])) = false
  /\ (3 <=? 5)%float = true.
Proof.
  repeat split; vm_compute; reflexivity.
Qed.

(** Rows of two devices with a late row and an unreadable timestamp. *)
Definition two_devices : list Row :=
  [["1"; "A"]; ["5"; "B"]; ["3"; "A"]; ["x"; "A"]; ["7"; "B"]].

Ltac concrete_numbers :=
  intros row t Hin; cbn [In] in Hin;
  repeat (destruct Hin as [<- | Hin]); try contradiction;
  vm_compute; intros H;
  first [discriminate H | injection H as <-; reflexivity].

Lemma global_stage_increasing_witness :
  strictly_increasing
    (timestamps_default
       (yielded
          (fst (iter_filtered_csv_lines dec_int special_float ascii_strip
                  true two_devices true "," 0 false false (Some [1%Z]) "both"
                  2))))
  = true.
Proof.
  apply (global_stage_increasing dec_int special_float ascii_strip
           true two_devices true "," 0%Z false false (Some [1%Z]) "both"
           (or_intror eq_refl)).
  concrete_numbers.
Defined.

Lemma per_key_increasing_witness :
  strictly_increasing
    (timestamps_default
       (filter (has_key ascii_strip [1%Z] ["A"])
          (yielded
             (fst (iter_filtered_csv_lines dec_int special_float ascii_strip
                     true two_devices true "," 0 false false (Some [1%Z])
                     "per-key" 2)))))
  = true.
Proof.
  apply (per_key_increasing dec_int special_float ascii_strip
           true two_devices true "," 0%Z false false (Some [1%Z]) "per-key"
           [1%Z] ["A"] eq_refl eq_refl).
  - discriminate.
  - concrete_numbers.
Defined.

Lemma replay_forwards_nothing_witness :
  exists evs,
    iter_filtered_csv_lines dec_int special_float ascii_strip
      true scenario1 true "," 0 false false None "global" 4
    = (evs, None)
    /\ yielded evs
       = maxima dec_int special_float ascii_strip 0 [] (pass_rows scenario1 false)
    /\ yielded evs
       = yielded
           (fst (iter_filtered_csv_lines dec_int special_float ascii_strip
                   true scenario1 true "," 0 false false None "global" 1)).
Proof.
  apply (replay_forwards_nothing dec_int special_float ascii_strip
           true scenario1 true "," 0%Z false false None "global" eq_refl 3%nat
           eq_refl eq_refl).
  repeat constructor; eexists; split; vm_compute; reflexivity.
Defined.

Lemma per_key_without_columns_witness :
  exists evs,
    iter_filtered_csv_lines dec_int special_float ascii_strip
      true [["5"]; ["nan"]; []; ["3"]] false "," 0 false false None "per-key" 1
    = (evs, None)
    /\ yielded evs
       = non_empty_rows (pass_rows [["5"]; ["nan"]; []; ["3"]] false).
Proof.
  apply (per_key_without_columns dec_int special_float ascii_strip
           true [["5"]; ["nan"]; []; ["3"]] false "," 0%Z false false None
           "per-key" eq_refl eq_refl 1%nat eq_refl eq_refl).
  intros row cell Hin H. cbn [In pass_rows] in Hin.
  repeat (destruct Hin as [<- | Hin]); try contradiction;
    vm_compute in H; try discriminate H;
    injection H as <-; vm_compute; discriminate.
Defined.

End CsvFilter.

(** ** [std::string] operations used by the geometry functions *)
Module StdString.

Definition size (s : string) : nat := String.length s.

(** The part of [s] from position [pos] on. *)
Fixpoint drop (pos : nat) (s : string) : string :=
  match pos, s with
  | O, _ => s
  | S pos', String _ s' => drop pos' s'
  | S _, EmptyString => EmptyString
  end.

(** First position at or after [i] where [pat] starts; [s] is the text from
    position [i] on. *)
Fixpoint find_from (pat s : string) (i : nat) : option nat :=
  if String.prefix pat s then Some i
  else
    match s with
    | EmptyString => None
    | String _ s' => find_from pat s' (S i)
    end.

(** [s.find(pat, pos)]; [None] is [npos]. *)
Definition find (s pat : string) (pos : nat) : option nat :=
  if (pos <=? size s)%nat then find_from pat (drop pos s) pos else None.

(** Last position where [pat] starts, [best] being the last one before [i]. *)
Fixpoint rfind_from (pat s : string) (i : nat) (best : option nat) : option nat :=
  let best' := if String.prefix pat s then Some i else best in
  match s with
  | EmptyString => best'
  | String _ s' => rfind_from pat s' (S i) best'
  end.

(** [s.rfind(pat)] *)
Definition rfind (s pat : string) : option nat := rfind_from pat s 0 None.

(** [s.substr(pos, len)], [len = None] for [npos]; [None] is the
    [std::out_of_range] thrown when [pos > size()]. *)
Definition substr (s : string) (pos : nat) (len : option nat) : option string :=
  if (pos <=? size s)%nat then
    Some (match len with
          | Some n => String.substring pos n s
          | None => drop pos s
          end)
  else None.

(** [while (!s.empty() && p(s.front())) s.erase(s.begin())] *)
Fixpoint erase_front (p : ascii -> bool) (s : string) : string :=
  match s with
  | String c s' => if p c then erase_front p s' else s
  | EmptyString => EmptyString
  end.

(** [while (!s.empty() && p(s.back())) s.pop_back()] *)
Fixpoint pop_back (p : ascii -> bool) (s : string) : string :=
  match s with
  | EmptyString => EmptyString
  | String c s' =>
      match pop_back p s' with
      | EmptyString => if p c then EmptyString else String c EmptyString
      | r => String c r
      end
  end.

Definition is_quote (c : ascii) : bool :=
  Ascii.eqb c "039"%char || Ascii.eqb c "034"%char.

(** [std::isspace] in the "C" locale. *)
Definition isspace (c : ascii) : bool :=
  let n := uchar c in ((n =? 32) || ((9 <=? n) && (n <=? 13)))%Z.

(** [std::toupper] in the "C" locale. *)
Definition toupper (c : ascii) : ascii :=
  let n := uchar c in
  if ((97 <=? n) && (n <=? 122))%Z then ascii_of_N (Z.to_N (n - 32)) else c.

Fixpoint map_chars (g : ascii -> ascii) (s : string) : string :=
  match s with
  | EmptyString => EmptyString
  | String c s' => String (g c) (map_chars g s')
  end.

(** The two quote-stripping loops at the head of both functions. *)
Definition strip_quotes (s : string) : string :=
  pop_back is_quote (erase_front is_quote s).

(** *** Positions found lie inside the string *)

Lemma prefix_length (p s : string) :
  String.prefix p s = true -> (String.length p <= String.length s)%nat.
Proof.
  revert s. induction p as [|a p IH]; intros s H; cbn; [lia|].
  destruct s as [|b s]; cbn in H; [discriminate|].
  destruct (Ascii.ascii_dec a b); [|discriminate].
  specialize (IH s H). cbn. lia.
Qed.

Lemma length_drop (pos : nat) (s : string) :
  String.length (drop pos s) = (String.length s - pos)%nat.
Proof.
  revert s. induction pos as [|pos IH]; intros s; cbn; [lia|].
  destruct s as [|c s]; cbn; [reflexivity|apply IH].
Qed.

Lemma find_from_bound (pat s : string) (i j : nat) :
  find_from pat s i = Some j ->
  (i <= j /\ j + String.length pat <= i + String.length s)%nat.
Proof.
  revert i. induction s as [|c s IH]; intros i; cbn [find_from].
  - destruct (String.prefix pat EmptyString) eqn:E; [|discriminate].
    intros H. injection H as <-. apply prefix_length in E. lia.
  - destruct (String.prefix pat (String c s)) eqn:E.
    + intros H. injection H as <-. apply prefix_length in E. lia.
    + intros H. apply IH in H. cbn [String.length]. lia.
Qed.

Lemma find_bound (s pat : string) (pos j : nat) :
  find s pat pos = Some j ->
  (pos <= j /\ j + String.length pat <= size s)%nat.
Proof.
  unfold find, size.
  destruct (Nat.leb_spec pos (String.length s)) as [Hle | Hgt]; [|discriminate].
  intros H. apply find_from_bound in H. rewrite length_drop in H. lia.
Qed.

Lemma rfind_from_bound (pat s : string) (i j : nat) (best : option nat) :
  rfind_from pat s i best = Some j ->
  best = Some j \/ (i <= j /\ j + String.length pat <= i + String.length s)%nat.
Proof.
  revert i best. induction s as [|c s IH]; intros i best; cbn [rfind_from].
  - destruct (String.prefix pat EmptyString) eqn:E; [|now left].
    intros H. injection H as <-. apply prefix_length in E. right. lia.
  - intros H. apply IH in H. destruct H as [H | H].
    + destruct (String.prefix pat (String c s)) eqn:E; [|now left].
      injection H as <-. apply prefix_length in E. right. lia.
    + right. cbn [String.length]. lia.
Qed.

Lemma rfind_bound (s pat : string) (j : nat) :
  rfind s pat = Some j -> (j + String.length pat <= size s)%nat.
Proof.
  unfold rfind, size. intros H. apply rfind_from_bound in H.
  destruct H as [H | H]; [discriminate|lia].
Qed.

Lemma substr_in_range (s : string) (pos : nat) (len : option nat) :
  (pos <= size s)%nat ->
  substr s pos len
  = Some (match len with
          | Some n => String.substring pos n s
          | None => drop pos s
          end).
Proof.
  intros H. unfold substr.
  destruct (Nat.leb_spec pos (size s)) as [Hle | Hgt]; [reflexivity|lia].
Qed.

End StdString.

(** ** The evaluation of the two MEOS geometry functions *)
Module Geometry.

Import StdString.
Local Open Scope float_scope.

(** What the functions write to [std::cout]: one constructor per message
    ([BuiltGeometries] stands for the three lines that show both geometries). *)
Inductive log_line : Type :=
| EmptyStbox                 (* TGEO_AT_STBOX received empty STBOX string *)
| MalformedStbox             (* TGEO_AT_STBOX: malformed STBOX literal *)
| MalformedInnerTuple        (* TGEO_AT_STBOX: malformed inner tuple *)
| FailedLonLat               (* TGEO_AT_STBOX: failed to parse lon/lat *)
| StboxException (what : string)
| BuiltGeometries (px py : float) (wkt : string)
| MalformedPolygon           (* TemporalIntersects: malformed POLYGON WKT *)
| FewerThanThreePoints       (* TemporalIntersects: polygon has fewer than 3 points *)
| PipException (what : string).

(** The exceptions the string operations throw; both handlers of a function
    return [-1], the first one after writing [what()]. *)
Inductive cpp_exception : Type := out_of_range (what : string).

Definition what (e : cpp_exception) : string :=
  match e with out_of_range w => w end.

(** The body of a [try] block: the lines written and the value returned or
    the exception thrown. *)
Definition attempt : Type := (list log_line * (Z + cpp_exception))%type.

Definition substr_failed : attempt := ([], inr (out_of_range "basic_string::substr")).

(** [std::min] and [std::max] on doubles. *)
Definition fmin (a b : float) : float := if b <? a then b else a.
Definition fmax (a b : float) : float := if a <? b then b else a.

(** The literals [1e-12] and [1e-300] as the nearest doubles. *)
Definition eps : float := 0x1.19799812dea11p-40.
Definition tiny : float := 0x1.56e1fc2f8f359p-997.

Definition Point : Type := (float * float)%type.

(** The pairs [(pts[j], pts[i])] visited by
    [for (i = 0, j = pts.size() - 1; i < pts.size(); j = i++)]. *)
Definition edges (pts : list Point) : list (Point * Point) :=
  match pts with
  | [] => []
  | p0 :: _ => combine (List.last pts p0 :: pts) pts
  end.

(** [onSegment(x, y, x1, y1, x2, y2)] *)
Definition onSegment (x y x1 y1 x2 y2 : float) : bool :=
  if (x <? fmin x1 x2 - eps) || (fmax x1 x2 + eps <? x)
     || (y <? fmin y1 y2 - eps) || (fmax y1 y2 + eps <? y)
  then false
  else
    let dx1 := x - x1 in let dy1 := y - y1 in
    let dx2 := x2 - x1 in let dy2 := y2 - y1 in
    let cross := dx1 * dy2 - dy1 * dx2 in
    abs cross <=? eps.

(** One step of the ray-casting loop. *)
Definition ray_step (px py : float) (inside : bool) (e : Point * Point) : bool :=
  let '((xj, yj), (xi, yi)) := e in
  let intersect :=
    negb (Bool.eqb (py <? yi) (py <? yj))
    && (px <? (xj - xi) * (py - yi) / (yj - yi + tiny) + xi) in
  if intersect then negb inside else inside.

(** The point-in-polygon test once the polygon has at least three points. *)
Definition point_in_polygon (px py : float) (pts : list Point) : Z :=
  if existsb (fun e => let '((x1, y1), (x2, y2)) := e in
                       onSegment px py x1 y1 x2 y2) (edges pts)
  then 1%Z
  else if fold_left (ray_step px py) (edges pts) false then 1%Z else 0%Z.

Section Functions.

(** [std::stod] ([None] when it throws) and [std::strtod] (0 when nothing
    converts). *)
Variable stod : string -> option float.
Variable strtod : string -> float.

(** *** TGEO_AT_STBOX *)

Definition stbox_key : string := "STBOX((".

(** The [trim] lambda. *)
Definition trim (s : string) : string := pop_back isspace (erase_front isspace s).

(** The [parseLonLat] lambda: [None] for [false]; its own [catch (...)]
    turns a throwing [std::stod] or [substr] into [false]. *)
Definition parseLonLat (t : string) : option (float * float) :=
  match find t "," 0 with
  | None => None
  | Some c1 =>
      match find t "," (c1 + 1) with
      | None => None
      | Some c2 =>
          match substr t 0 (Some (c1 - 0)%nat),
                substr t (c1 + 1) (Some (c2 - (c1 + 1))%nat) with
          | Some a, Some b =>
              match stod a with
              | None => None
              | Some lon =>
                  match stod b with
                  | None => None
                  | Some lat => Some (lon, lat)
                  end
              end
          | _, _ => None
          end
      end
  end.

(** The text between [STBOX((] and the last [)], when the literal has both. *)
Definition stbox_bounds (stboxWkt : string) : option (nat * nat) :=
  let upper := map_chars toupper stboxWkt in
  match find upper stbox_key 0, rfind stboxWkt ")" with
  | Some startPos, Some endPos =>
      if (endPos <=? startPos + size stbox_key)%nat then None
      else Some (startPos, endPos)
  | _, _ => None
  end.

(** The bounds test on the parsed box. *)
Definition inside_box (lonValue latValue : float) (borderInclusiveFlag : bool)
    (lo hi : float * float) : Z :=
  let '(minLon, minLat) := lo in
  let '(maxLon, maxLat) := hi in
  let '(minLon, maxLon) := if maxLon <? minLon then (maxLon, minLon) else (minLon, maxLon) in
  let '(minLat, maxLat) := if maxLat <? minLat then (maxLat, minLat) else (minLat, maxLat) in
  let insideLon :=
    if borderInclusiveFlag then (minLon <=? lonValue) && (lonValue <=? maxLon)
    else (minLon <? lonValue) && (lonValue <? maxLon) in
  let insideLat :=
    if borderInclusiveFlag then (minLat <=? latValue) && (latValue <=? maxLat)
    else (minLat <? latValue) && (latValue <? maxLat) in
  if insideLon && insideLat then 1%Z else 0%Z.

(** The [try] block of the lambda of [TemporalAtStBoxPhysicalFunction::execute]. *)
Definition at_stbox_try (lonValue latValue : float) (timestampValue : Z)
    (stbox : string) (borderInclusiveFlag : bool) : attempt :=
  let stboxWkt := strip_quotes stbox in
  match stboxWkt with
  | EmptyString => ([EmptyStbox], inl 0%Z)
  | _ =>
      match stbox_bounds stboxWkt with
      | None => ([MalformedStbox], inl 0%Z)
      | Some (startPos, endPos) =>
          let from := (startPos + size stbox_key)%nat in
          match substr stboxWkt from (Some (endPos - from)%nat) with
          | None => substr_failed
          | Some inner =>
              match find inner "),(" 0 with
              | None => ([MalformedInnerTuple], inl 0%Z)
              | Some mid =>
                  match substr inner 0 (Some mid), substr inner (mid + 3) None with
                  | Some first, Some second =>
                      match parseLonLat (trim first) with
                      | None => ([FailedLonLat], inl 0%Z)
                      | Some lo =>
                          match parseLonLat (trim second) with
                          | None => ([FailedLonLat], inl 0%Z)
                          | Some hi =>
                              ([], inl (inside_box lonValue latValue
                                          borderInclusiveFlag lo hi))
                          end
                      end
                  | _, _ => substr_failed
                  end
              end
          end
      end
  end.

(** The lambda with its handlers: an exception becomes [-1] and a line. *)
Definition at_stbox (lonValue latValue : float) (timestampValue : Z)
    (stbox : string) (borderInclusiveFlag : bool) : Z * list log_line :=
  match at_stbox_try lonValue latValue timestampValue stbox borderInclusiveFlag with
  | (out, inl result) => (result, out)
  | (out, inr exception) => ((-1)%Z, out ++ [StboxException (what exception)])
  end.

(** *** Temporal-static intersection (4 parameters) *)

Definition polygon_key : string := "POLYGON((".

Definition polygon_bounds (wkt : string) : option (nat * nat) :=
  match find wkt polygon_key 0, rfind wkt ")" with
  | Some start, Some end_ =>
      if (end_ <=? start + 9)%nat then None else Some (start, end_)
  | _, _ => None
  end.

(** Runs of white space become one space. *)
Fixpoint normalize (token : string) (lastSpace : bool) : string :=
  match token with
  | EmptyString => EmptyString
  | String c token' =>
      if isspace c then
        if lastSpace then normalize token' true
        else String " "%char (normalize token' true)
      else String c (normalize token' false)
  end.

(** The point a token gives, if it has a space after trimming. *)
Definition token_point (token : string) : option Point :=
  let token := pop_back isspace (erase_front isspace token) in
  let norm := normalize token false in
  match find norm " " 0 with
  | Some sp => Some (strtod norm, strtod (drop (sp + 1) norm))
  | None => None
  end.

(** The [while (pos < inner.size())] loop; [fuel] bounds its iterations, and
    [None] is an exception of [substr]. *)
Fixpoint parse_points (fuel : nat) (inner : string) (pos : nat)
    (pts : list Point) : option (list Point) :=
  match fuel with
  | O => Some pts
  | S fuel' =>
      if (pos <? size inner)%nat then
        let next := find inner "," pos in
        match substr inner pos
                (match next with Some n => Some (n - pos)%nat | None => None end) with
        | None => None
        | Some token =>
            let pts' :=
              match token_point token with
              | Some pt => pts ++ [pt]
              | None => pts
              end in
            match next with
            | None => Some pts'
            | Some n => parse_points fuel' inner (n + 1) pts'
            end
        end
      else Some pts
  end.

(** The [try] block of the lambda of [executeTemporal4Param]. *)
Definition intersects_try (px py : float) (ts : Z) (static_geom : string)
  : attempt :=
  let wkt := strip_quotes static_geom in
  let built := BuiltGeometries px py wkt in
  match polygon_bounds wkt with
  | None => ([built; MalformedPolygon], inl 0%Z)
  | Some (start, end_) =>
      match substr wkt (start + 9) (Some (end_ - (start + 9))%nat) with
      | None => ([built], inr (out_of_range "basic_string::substr"))
      | Some inner =>
          match parse_points (S (size inner)) inner 0 [] with
          | None => ([built], inr (out_of_range "basic_string::substr"))
          | Some pts =>
              if (List.length pts <? 3)%nat
              then ([built; FewerThanThreePoints], inl 0%Z)
              else ([built], inl (point_in_polygon px py pts))
          end
      end
  end.

Definition intersects4 (px py : float) (ts : Z) (static_geom : string)
  : Z * list log_line :=
  match intersects_try px py ts static_geom with
  | (out, inl result) => (result, out)
  | (out, inr exception) => ((-1)%Z, out ++ [PipException (what exception)])
  end.

(** *** What the literals denote *)

(** The text between the opener and the last closing parenthesis. *)
Definition between (w : string) (from endPos : nat) : string :=
  String.substring from (endPos - from) w.

(** The box an STBOX literal denotes, when it can be read. *)
Definition stbox_box (stbox : string)
  : option ((float * float) * (float * float)) :=
  let w := strip_quotes stbox in
  match stbox_bounds w with
  | None => None
  | Some (startPos, endPos) =>
      let inner := between w (startPos + size stbox_key) endPos in
      match find inner "),(" 0 with
      | None => None
      | Some mid =>
          match parseLonLat (trim (String.substring 0 mid inner)),
                parseLonLat (trim (drop (mid + 3) inner)) with
          | Some lo, Some hi => Some (lo, hi)
          | _, _ => None
          end
      end
  end.

(** The points a POLYGON literal denotes, when it has the opener and a
    closing parenthesis after it. *)
Definition polygon_points (static_geom : string) : option (list Point) :=
  let w := strip_quotes static_geom in
  match polygon_bounds w with
  | None => None
  | Some (start, end_) =>
      let inner := between w (start + 9) end_ in
      parse_points (S (size inner)) inner 0 []
  end.

(** *** No string operation throws *)

Lemma stbox_bounds_range (w : string) (startPos endPos : nat) :
  stbox_bounds w = Some (startPos, endPos) ->
  (startPos + size stbox_key <= size w)%nat.
Proof.
  unfold stbox_bounds.
  destruct (find (map_chars toupper w) stbox_key 0) as [sp|]; [|discriminate].
  destruct (rfind w ")") as [ep|] eqn:Er; [|discriminate].
  destruct (Nat.leb_spec ep (sp + size stbox_key)) as [Hle | Hgt]; [discriminate|].
  intros H. injection H as <- <-. apply rfind_bound in Er. cbn in Er. lia.
Qed.

Lemma polygon_bounds_range (w : string) (start end_ : nat) :
  polygon_bounds w = Some (start, end_) -> (start + 9 <= size w)%nat.
Proof.
  unfold polygon_bounds.
  destruct (find w polygon_key 0) as [sp|]; [|discriminate].
  destruct (rfind w ")") as [ep|] eqn:Er; [|discriminate].
  destruct (Nat.leb_spec ep (sp + 9)) as [Hle | Hgt]; [discriminate|].
  intros H. injection H as <- <-. apply rfind_bound in Er. cbn in Er. lia.
Qed.

Lemma parse_points_total (fuel : nat) (inner : string) (pos : nat)
    (pts : list Point) :
  exists r, parse_points fuel inner pos pts = Some r.
Proof.
  revert pos pts. induction fuel as [|fuel IH]; intros pos pts; cbn [parse_points].
  - now exists pts.
  - destruct (Nat.ltb_spec pos (size inner)) as [Hlt | Hge]; [|now exists pts].
    rewrite substr_in_range by lia.
    destruct (find inner "," pos) as [n|]; [apply IH|eauto].
Qed.

Lemma inside_box_range (lonValue latValue : float) (b : bool)
    (lo hi : float * float) :
  inside_box lonValue latValue b lo hi = 0%Z
  \/ inside_box lonValue latValue b lo hi = 1%Z.
Proof.
  unfold inside_box. destruct lo as [minLon minLat], hi as [maxLon maxLat].
  destruct (maxLon <? minLon), (maxLat <? minLat);
    match goal with |- context [if ?c then 1%Z else 0%Z] => destruct c end; auto.
Qed.

Lemma point_in_polygon_range (px py : float) (pts : list Point) :
  point_in_polygon px py pts = 0%Z \/ point_in_polygon px py pts = 1%Z.
Proof.
  unfold point_in_polygon.
  match goal with |- context [existsb ?g (edges pts)] =>
    destruct (existsb g (edges pts)) end; [now right|].
  destruct (fold_left (ray_step px py) (edges pts) false); auto.
Qed.

(** *** The functions in terms of what the literal denotes *)

Lemma at_stbox_reads (lonValue latValue : float) (timestampValue : Z)
    (stbox : string) (borderInclusiveFlag : bool) :
  match stbox_box stbox with
  | Some (lo, hi) =>
      at_stbox lonValue latValue timestampValue stbox borderInclusiveFlag
      = (inside_box lonValue latValue borderInclusiveFlag lo hi, [])
  | None =>
      exists line,
        at_stbox lonValue latValue timestampValue stbox borderInclusiveFlag
        = (0%Z, [line])
        /\ In line [EmptyStbox; MalformedStbox; MalformedInnerTuple; FailedLonLat]
  end.
Proof.
  unfold stbox_box, at_stbox, at_stbox_try.
  destruct (strip_quotes stbox) as [|c w'] eqn:Ew.
  - exists EmptyStbox. split; [reflexivity|cbn; tauto].
  - set (w := String c w') in *.
    destruct (stbox_bounds w) as [[sp ep]|] eqn:Eb;
      [|exists MalformedStbox; split; [reflexivity|cbn; tauto]].
    rewrite substr_in_range by (eapply stbox_bounds_range; exact Eb).
    fold (between w (sp + size stbox_key) ep).
    set (inner := between w (sp + size stbox_key) ep).
    destruct (find inner "),(" 0) as [mid|] eqn:Em;
      [|exists MalformedInnerTuple; split; [reflexivity|cbn; tauto]].
    apply find_bound in Em. cbn [String.length] in Em.
    rewrite !substr_in_range by lia.
    destruct (parseLonLat (trim (String.substring 0 mid inner))) as [lo|];
      [|exists FailedLonLat; split; [reflexivity|cbn; tauto]].
    destruct (parseLonLat (trim (drop (mid + 3) inner))) as [hi|];
      [reflexivity|exists FailedLonLat; split; [reflexivity|cbn; tauto]].
Qed.

Lemma intersects4_reads (px py : float) (ts : Z) (static_geom : string) :
  let built := BuiltGeometries px py (strip_quotes static_geom) in
  match polygon_points static_geom with
  | None =>
      intersects4 px py ts static_geom = (0%Z, [built; MalformedPolygon])
  | Some pts =>
      if (List.length pts <? 3)%nat
      then intersects4 px py ts static_geom = (0%Z, [built; FewerThanThreePoints])
      else intersects4 px py ts static_geom = (point_in_polygon px py pts, [built])
  end.
Proof.
  unfold polygon_points, intersects4, intersects_try. cbv zeta.
  set (w := strip_quotes static_geom).
  destruct (polygon_bounds w) as [[sp ep]|] eqn:Eb; [|reflexivity].
  rewrite substr_in_range by (eapply polygon_bounds_range; exact Eb).
  fold (between w (sp + 9) ep). set (inner := between w (sp + 9) ep).
  destruct (parse_points_total (S (size inner)) inner 0 []) as [pts ->].
  destruct (List.length pts <? 3)%nat; reflexivity.
Qed.

(** The literals the two parsers themselves refuse.  The functions return 0
    and write the line that says why: an empty or malformed STBOX literal
    (no opener, no closing parenthesis, no second tuple, coordinates that
    [std::stod] refuses), a POLYGON text without opener and closing
    parenthesis, or a polygon of fewer than three tokens with a space.  No
    string operation throws on any input, so each evaluation ends with 0 or
    1 and never leaves through an exception.  A polygon token whose
    coordinates are not numbers is not among these literals: [strtod] reads
    it as zero and nothing tests how far it read (see the theorem on
    [garbage_polygon] below). *)
Theorem unreadable_literal_gives_zero
    (lonValue latValue : float) (timestampValue : Z) (stbox : string)
    (borderInclusiveFlag : bool) (px py : float) (ts : Z) (static_geom : string) :
  (strip_quotes stbox = EmptyString ->
   at_stbox lonValue latValue timestampValue stbox borderInclusiveFlag
   = (0%Z, [EmptyStbox]))
  /\ (strip_quotes stbox <> EmptyString ->
      stbox_bounds (strip_quotes stbox) = None ->
      at_stbox lonValue latValue timestampValue stbox borderInclusiveFlag
      = (0%Z, [MalformedStbox]))
  /\ (stbox_box stbox = None ->
      exists line,
        at_stbox lonValue latValue timestampValue stbox borderInclusiveFlag
        = (0%Z, [line])
        /\ In line [EmptyStbox; MalformedStbox; MalformedInnerTuple; FailedLonLat])
  /\ (polygon_points static_geom = None ->
      intersects4 px py ts static_geom
      = (0%Z, [BuiltGeometries px py (strip_quotes static_geom); MalformedPolygon]))
  /\ (forall pts, polygon_points static_geom = Some pts ->
      (List.length pts < 3)%nat ->
      intersects4 px py ts static_geom
      = (0%Z, [BuiltGeometries px py (strip_quotes static_geom);
               FewerThanThreePoints]))
  /\ (fst (at_stbox lonValue latValue timestampValue stbox borderInclusiveFlag) = 0%Z
      \/ fst (at_stbox lonValue latValue timestampValue stbox borderInclusiveFlag) = 1%Z)
  /\ (fst (intersects4 px py ts static_geom) = 0%Z
      \/ fst (intersects4 px py ts static_geom) = 1%Z).
Proof.
  pose proof (at_stbox_reads lonValue latValue timestampValue stbox
                borderInclusiveFlag) as Hbox.
  pose proof (intersects4_reads px py ts static_geom) as Hpoly.
  cbv zeta in Hpoly.
  split; [|split; [|split; [|split; [|split; [|split]]]]].
  - intros He. unfold at_stbox, at_stbox_try. now rewrite He.
  - intros Hne Hb. unfold at_stbox, at_stbox_try.
    destruct (strip_quotes stbox); [contradiction|]. now rewrite Hb.
  - intros Hn. now rewrite Hn in Hbox.
  - intros Hn. now rewrite Hn in Hpoly.
  - intros pts Hp Hlen. rewrite Hp in Hpoly.
    destruct (Nat.ltb_spec (List.length pts) 3); [exact Hpoly|lia].
  - destruct (stbox_box stbox) as [[lo hi]|].
    + rewrite Hbox. apply inside_box_range.
    + destruct Hbox as (line & -> & _). now left.
  - destruct (polygon_points static_geom) as [pts|].
    + destruct (List.length pts <? 3)%nat; rewrite Hpoly;
        [now left|apply point_in_polygon_range].
    + rewrite Hpoly. now left.
Qed.

(** *** The corners of the box and the quotes of the literal *)

Lemma SFcompare_eq (x y : SpecFloat.spec_float) :
  SpecFloat.SFcompare x y = Some Eq ->
  x = y \/ exists s s', x = SpecFloat.S754_zero s /\ y = SpecFloat.S754_zero s'.
Proof.
  destruct x as [sx|sx| |sx mx ex], y as [sy|sy| |sy my ey]; cbn;
    try discriminate; try (right; now eauto);
    try (destruct sx; discriminate); try (destruct sy; discriminate).
  - destruct sx, sy; try discriminate; now left.
  - destruct sx, sy; try discriminate; intros H; left;
      FloatOrder.cmp_cases; try discriminate; subst; reflexivity.
Qed.

Lemma SFcompare_nan (z : SpecFloat.spec_float) :
  SpecFloat.SFcompare SpecFloat.S754_nan z = None
  /\ SpecFloat.SFcompare z SpecFloat.S754_nan = None.
Proof. destruct z as [s|s| |s m e]; split; reflexivity. Qed.

Lemma SFcompare_zero (s s' : bool) (z : SpecFloat.spec_float) :
  SpecFloat.SFcompare (SpecFloat.S754_zero s) z
  = SpecFloat.SFcompare (SpecFloat.S754_zero s') z
  /\ SpecFloat.SFcompare z (SpecFloat.S754_zero s)
     = SpecFloat.SFcompare z (SpecFloat.S754_zero s').
Proof. destruct z as [sz|sz| |sz m e]; split; reflexivity. Qed.

(** Two bounds neither of which is below the other bound the same values. *)
Lemma SFcompare_incomparable (x y z : SpecFloat.spec_float) :
  SpecFloat.SFltb x y = false -> SpecFloat.SFltb y x = false ->
  (SpecFloat.SFleb x z && SpecFloat.SFleb z y
   = SpecFloat.SFleb y z && SpecFloat.SFleb z x)
  /\ (SpecFloat.SFltb x z && SpecFloat.SFltb z y
      = SpecFloat.SFltb y z && SpecFloat.SFltb z x).
Proof.
  unfold SpecFloat.SFleb, SpecFloat.SFltb.
  rewrite (FloatOrder.SFcompare_antisym x y).
  destruct (SpecFloat.SFcompare x y) as [[| |]|] eqn:E; cbn;
    try discriminate; intros _ _.
  - destruct (SFcompare_eq x y E) as [-> | (s & s' & -> & ->)].
    + split; reflexivity.
    + destruct (SFcompare_zero s s' z) as [-> ->]. split; reflexivity.
  - apply FloatOrder.SFcompare_none in E. destruct E as [-> | ->];
      destruct (SFcompare_nan z) as [-> ->];
      rewrite ?andb_false_r; split; reflexivity.
Qed.

Lemma incomparable_bounds (a c l : float) :
  (a <? c) = false -> (c <? a) = false ->
  ((a <=? l) && (l <=? c) = (c <=? l) && (l <=? a))
  /\ ((a <? l) && (l <? c) = (c <? l) && (l <? a)).
Proof.
  rewrite !ltb_spec, !leb_spec. apply SFcompare_incomparable.
Qed.

Lemma ltb_asym (a c : float) : (a <? c) = true -> (c <? a) = false.
Proof.
  intros H. destruct (c <? a) eqn:E; [|reflexivity].
  apply FloatOrder.ltb_leb in H. apply FloatOrder.ltb_not_leb in E. congruence.
Qed.

(** The test of one axis, as [inside_box] makes it for both. *)
Definition inside_axis (borderInclusiveFlag : bool) (lo hi v : float) : bool :=
  let '(lo, hi) := if hi <? lo then (hi, lo) else (lo, hi) in
  if borderInclusiveFlag then (lo <=? v) && (v <=? hi)
  else (lo <? v) && (v <? hi).

Lemma inside_box_axes (lonValue latValue : float) (b : bool)
    (lo hi : float * float) :
  inside_box lonValue latValue b lo hi
  = if inside_axis b (fst lo) (fst hi) lonValue
       && inside_axis b (snd lo) (snd hi) latValue
    then 1%Z else 0%Z.
Proof.
  destruct lo as [minLon minLat], hi as [maxLon maxLat].
  unfold inside_box, inside_axis. cbn [fst snd].
  destruct (maxLon <? minLon), (maxLat <? minLat); reflexivity.
Qed.

Lemma inside_axis_swap (b : bool) (a c v : float) :
  inside_axis b a c v = inside_axis b c a v.
Proof.
  unfold inside_axis. destruct (c <? a) eqn:Eca.
  - now rewrite (ltb_asym c a Eca).
  - destruct (a <? c) eqn:Eac; [reflexivity|].
    destruct (incomparable_bounds a c v Eac Eca) as [Hle Hlt].
    destruct b; assumption.
Qed.

Lemma inside_axis_border (a c v : float) :
  inside_axis false a c v = true -> inside_axis true a c v = true.
Proof.
  unfold inside_axis. destruct (if c <? a then (c, a) else (a, c)) as [lo hi].
  intros H. apply andb_true_iff in H as [H1 H2].
  now rewrite (FloatOrder.ltb_leb _ _ H1), (FloatOrder.ltb_leb _ _ H2).
Qed.

(** X12. The bounds test gives the same answer whichever of the two corners of
    the box is written first, and for each axis separately; and a point
    strictly inside the box is inside the box with its border. *)
Theorem inside_box_corners (lonValue latValue : float) (b : bool)
    (lon1 lat1 lon2 lat2 : float) :
  inside_box lonValue latValue b (lon1, lat1) (lon2, lat2)
  = inside_box lonValue latValue b (lon2, lat2) (lon1, lat1)
  /\ inside_box lonValue latValue b (lon1, lat1) (lon2, lat2)
     = inside_box lonValue latValue b (lon2, lat1) (lon1, lat2)
  /\ inside_box lonValue latValue b (lon1, lat1) (lon2, lat2)
     = inside_box lonValue latValue b (lon1, lat2) (lon2, lat1)
  /\ (inside_box lonValue latValue false (lon1, lat1) (lon2, lat2) = 1%Z ->
      inside_box lonValue latValue true (lon1, lat1) (lon2, lat2) = 1%Z).
Proof.
  rewrite !inside_box_axes. cbn [fst snd].
  rewrite (inside_axis_swap b lon2 lon1), (inside_axis_swap b lat2 lat1).
  split; [reflexivity|]. split; [reflexivity|]. split; [reflexivity|].
  destruct (inside_axis false lon1 lon2 lonValue) eqn:E1; [|discriminate].
  destruct (inside_axis false lat1 lat2 latValue) eqn:E2; [|discriminate].
  intros _.
  now rewrite (inside_axis_border _ _ _ E1), (inside_axis_border _ _ _ E2).
Qed.

Lemma pop_back_snoc (p : ascii -> bool) (s : string) (q : ascii) :
  p q = true -> pop_back p (s ++ String q EmptyString)%string = pop_back p s.
Proof.
  intros Hq. induction s as [|c s IH]; cbn [append pop_back].
  - now rewrite Hq.
  - now rewrite IH.
Qed.

Lemma erase_front_snoc (p : ascii -> bool) (s : string) (q : ascii) :
  p q = true ->
  erase_front p (s ++ String q EmptyString)%string
  = match erase_front p s with
    | EmptyString => EmptyString
    | r => (r ++ String q EmptyString)%string
    end.
Proof.
  intros Hq. induction s as [|c s IH]; cbn [append erase_front].
  - now rewrite Hq.
  - destruct (p c); [exact IH|reflexivity].
Qed.

Lemma strip_quotes_front (q : ascii) (s : string) :
  is_quote q = true -> strip_quotes (String q s) = strip_quotes s.
Proof. intros Hq. unfold strip_quotes. cbn [erase_front]. now rewrite Hq. Qed.

Lemma strip_quotes_back (q : ascii) (s : string) :
  is_quote q = true ->
  strip_quotes (s ++ String q EmptyString)%string = strip_quotes s.
Proof.
  intros Hq. unfold strip_quotes. rewrite (erase_front_snoc _ _ _ Hq).
  destruct (erase_front is_quote s) as [|c r] eqn:E; [reflexivity|].
  now rewrite pop_back_snoc.
Qed.

(** X13. One more single or double quote before or after the literal changes
    neither the value nor the lines written by either function. *)
Theorem quotes_ignored (q : ascii) (lonValue latValue : float)
    (timestampValue : Z) (literal : string) (borderInclusiveFlag : bool) :
  is_quote q = true ->
  at_stbox lonValue latValue timestampValue (String q literal)
    borderInclusiveFlag
  = at_stbox lonValue latValue timestampValue literal borderInclusiveFlag
  /\ at_stbox lonValue latValue timestampValue
       (literal ++ String q EmptyString)%string borderInclusiveFlag
     = at_stbox lonValue latValue timestampValue literal borderInclusiveFlag
  /\ intersects4 lonValue latValue timestampValue (String q literal)
     = intersects4 lonValue latValue timestampValue literal
  /\ intersects4 lonValue latValue timestampValue
       (literal ++ String q EmptyString)%string
     = intersects4 lonValue latValue timestampValue literal.
Proof.
  intros Hq. unfold at_stbox, at_stbox_try, intersects4, intersects_try.
  cbv zeta. rewrite (strip_quotes_front q literal Hq).
  rewrite (strip_quotes_back q literal Hq). repeat split; reflexivity.
Qed.

End Functions.

(** *** Decimal literals for the examples *)

(** The double nearest to an integer. *)
Definition float_of_Z (n : Z) : float :=
  SF2Prim (SpecFloat.binary_normalize prec emax n 0 false).

Fixpoint take_digits (s : string) (acc : Z) (n : nat) : Z * nat * string :=
  match s with
  | String c s' =>
      let d := uchar c in
      if ((48 <=? d) && (d <=? 57))%Z
      then take_digits s' (10 * acc + (d - 48))%Z (S n)
      else (acc, n, s)
  | EmptyString => (acc, n, s)
  end.

(** The longest prefix [sign digits . digits] after leading white space, as
    [strtod] and [std::stod] read it; exact for short literals, whose digits
    and power of ten are both doubles. *)
Definition decimal_prefix (s : string) : option float :=
  let s := erase_front isspace s in
  let '(negative, s) :=
    match s with
    | String "-"%char r => (true, r)
    | String "+"%char r => (false, r)
    | _ => (false, s)
    end in
  let '(ip, ni, rest) := take_digits s 0 0 in
  let '(m, nf) :=
    match rest with
    | String "."%char r => let '(m, nf, _) := take_digits r ip 0 in (m, nf)
    | _ => (ip, 0%nat)
    end in
  if (ni + nf =? 0)%nat then None
  else
    let v := float_of_Z m / float_of_Z (10 ^ Z.of_nat nf) in
    Some (if negative then - v else v).

Definition stod_dec (s : string) : option float := decimal_prefix s.

Definition strtod_dec (s : string) : float :=
  match decimal_prefix s with
  | Some v => v
  | None => 0
  end.

Local Open Scope string_scope.

(** A point of Manhattan, with coordinates that are doubles. *)
Definition lon0 : float := (-73.96875)%float.
Definition lat0 : float := 40.75%float.

Definition nyc_box : string :=
  "'STBOX((-74.02,40.70,2021-01-01),(-73.90,40.80,2021-01-02))'".

Definition nyc_polygon : string :=
  "SRID=4326;POLYGON((-74.02 40.70, -73.90 40.70, -73.90 40.80, -74.02 40.80, -74.02 40.70))".

Example at_stbox_inside :
  at_stbox stod_dec lon0 lat0 1609459200 nyc_box true = (1%Z, []).
Proof. vm_compute. reflexivity. Qed.

Example at_stbox_outside :
  at_stbox stod_dec (-73.5) lat0 1609459200 nyc_box true = (0%Z, []).
Proof. vm_compute. reflexivity. Qed.

Example intersects4_inside :
  fst (intersects4 strtod_dec lon0 lat0 1609459200 nyc_polygon) = 1%Z.
Proof. vm_compute. reflexivity. Qed.

Example intersects4_outside :
  fst (intersects4 strtod_dec (-73.5) lat0 1609459200 nyc_polygon) = 0%Z.
Proof. vm_compute. reflexivity. Qed.

(** A POLYGON text none of whose coordinates is a number. *)
Definition garbage_polygon : string :=
  "POLYGON((garbage here, more garbage, still garbage))".

(** An STBOX text with the same defect. *)
Definition garbage_box : string :=
  "STBOX((garbage,here,2021-01-01),(more,garbage,2021-01-02))".

(** C7 at the failing input.  In [garbage_polygon] no coordinate can be
    read as a number, yet the polygon function takes it for a polygon:
    [strtod] gives zero for each of the six coordinates and the end
    pointers it sets are never looked at, so the three tokens become three
    points (0, 0).  For the point (0, 0) the function returns 1, the
    intersection result, and for a point elsewhere it returns 0; either way
    it writes the built geometries alone, not a line that reports the
    malformed literal.  The box function on [garbage_box], whose
    coordinates go through [std::stod], returns 0 and reports that they
    failed to parse. *)
Theorem unchecked_coordinates_accepted :
  polygon_points strtod_dec garbage_polygon
  = Some [(0, 0); (0, 0); (0, 0)]%float
  /\ intersects4 strtod_dec 0 0 1609459200 garbage_polygon
     = (1%Z, [BuiltGeometries 0 0 garbage_polygon])
  /\ intersects4 strtod_dec lon0 lat0 1609459200 garbage_polygon
     = (0%Z, [BuiltGeometries lon0 lat0 garbage_polygon])
  /\ at_stbox stod_dec 0 0 1609459200 garbage_box true
     = (0%Z, [FailedLonLat]).
Proof.
  split; [vm_compute; reflexivity|].
  split; [vm_compute; reflexivity|].
  split; vm_compute; reflexivity.
Qed.

Lemma unreadable_literal_gives_zero_witness :
  at_stbox stod_dec lon0 lat0 1609459200 "''" true
  = (0%Z, [EmptyStbox])
  /\ at_stbox stod_dec lon0 lat0 1609459200 "BOX(1 2,3 4)" true
     = (0%Z, [MalformedStbox])
  /\ (exists line,
        at_stbox stod_dec lon0 lat0 1609459200
          "STBOX((a,b,c),(d,e,f))" true = (0%Z, [line])
        /\ In line [EmptyStbox; MalformedStbox; MalformedInnerTuple; FailedLonLat])
  /\ intersects4 strtod_dec lon0 lat0 1609459200 "POINT(1 2)"
     = (0%Z, [BuiltGeometries lon0 lat0 "POINT(1 2)"; MalformedPolygon])
  /\ intersects4 strtod_dec lon0 lat0 1609459200 "POLYGON((0 0, 1 1))"
     = (0%Z, [BuiltGeometries lon0 lat0 "POLYGON((0 0, 1 1))";
              FewerThanThreePoints]).
Proof.
  split; [|split; [|split; [|split]]].
  - apply (unreadable_literal_gives_zero stod_dec strtod_dec
             lon0 lat0 1609459200 "''" true 0 0 0 "").
    reflexivity.
  - apply (unreadable_literal_gives_zero stod_dec strtod_dec
             lon0 lat0 1609459200 "BOX(1 2,3 4)" true 0 0 0 "");
      [discriminate|reflexivity].
  - apply (unreadable_literal_gives_zero stod_dec strtod_dec
             lon0 lat0 1609459200 "STBOX((a,b,c),(d,e,f))" true 0 0 0 "").
    reflexivity.
  - apply (unreadable_literal_gives_zero stod_dec strtod_dec
             0 0 0 "" true lon0 lat0 1609459200 "POINT(1 2)").
    reflexivity.
  - destruct (unreadable_literal_gives_zero stod_dec strtod_dec
                0 0 0 "" true lon0 lat0 1609459200 "POLYGON((0 0, 1 1))")
      as (_ & _ & _ & _ & H & _).
    apply (H [(0, 0); (1, 1)]%float); [vm_compute; reflexivity|cbn; lia].
Defined.

Lemma quotes_ignored_witness :
  at_stbox stod_dec lon0 lat0 1609459200 (String "'" nyc_box) true
  = at_stbox stod_dec lon0 lat0 1609459200 nyc_box true
  /\ at_stbox stod_dec lon0 lat0 1609459200
       (nyc_box ++ String "'" EmptyString) true
     = at_stbox stod_dec lon0 lat0 1609459200 nyc_box true
  /\ intersects4 strtod_dec lon0 lat0 1609459200 (String "'" nyc_box)
     = intersects4 strtod_dec lon0 lat0 1609459200 nyc_box
  /\ intersects4 strtod_dec lon0 lat0 1609459200
       (nyc_box ++ String "'" EmptyString)
     = intersects4 strtod_dec lon0 lat0 1609459200 nyc_box.
Proof.
  apply (quotes_ignored stod_dec strtod_dec "'"%char lon0 lat0 1609459200
           nyc_box true).
  reflexivity.
Defined.

End Geometry.

(** ** The constructor of the JSON sink format *)
Module JSONFormat.

Import Registrar.

(** Arithmetic on [size_t]. *)
Definition u64 (z : Z) : Z := z mod 2 ^ 64.

Section Format.

(** [DataType] with its [getSizeInBytes], and the schema's own total, all
    declared outside the file of the format. *)
Variable DataType : Type.
Variable getSizeInBytes : DataType -> Z.

Record Field : Type := mkField {
  name : string;
  dataType : DataType
}.

Definition Schema : Type := list Field.

Variable getSizeOfSchemaInBytes : Schema -> Z.

(** [FormattingContext] *)
Record FormattingContext : Type := mkContext {
  schemaSizeInBytes : Z;
  offsets : list Z;
  physicalTypes : list DataType;
  names : list string
}.

(** The body of [for (const auto &field : schema.getFields())], with the
    local [offset]. *)
Fixpoint add_fields (fields : list Field) (offset : Z) (ctx : FormattingContext)
  : FormattingContext :=
  match fields with
  | [] => ctx
  | field :: rest =>
      let physicalType := dataType field in
      add_fields rest (u64 (offset + getSizeInBytes physicalType))
        (mkContext (schemaSizeInBytes ctx)
           (offsets ctx ++ [offset])
           (physicalTypes ctx ++ [physicalType])
           (names ctx ++ [name field]))
  end.

(** [JSONFormat::JSONFormat] *)
Definition construct (schema : Schema) : outcome FormattingContext :=
  PRECONDITION (negb (List.length schema =? 0)%nat)
    "Formatter expected a non-empty schema"
    (let ctx := add_fields schema 0 (mkContext 0 [] [] []) in
     Returned (mkContext (getSizeOfSchemaInBytes schema)
                 (offsets ctx) (physicalTypes ctx) (names ctx))).

(** The bytes of the fields before position [k]. *)
Definition bytes_before (schema : Schema) (k : nat) : Z :=
  fold_right (fun field acc => getSizeInBytes (dataType field) + acc) 0
    (firstn k schema).

Definition bytes_total (schema : Schema) : Z :=
  bytes_before schema (List.length schema).

Lemma bytes_before_step (field : Field) (rest : Schema) (k : nat) :
  bytes_before (field :: rest) (S k)
  = getSizeInBytes (dataType field) + bytes_before rest k.
Proof. reflexivity. Qed.

Lemma bytes_before_bounds (schema : Schema) (k : nat) :
  Forall (fun field => 0 <= getSizeInBytes (dataType field)) schema ->
  0 <= bytes_before schema k <= bytes_total schema.
Proof.
  intros Hs. revert k. induction Hs as [|field rest Hf Hr IH]; intros k.
  - unfold bytes_total, bytes_before. rewrite firstn_nil. cbn. lia.
  - destruct k as [|k].
    + unfold bytes_total. cbn [List.length]. rewrite bytes_before_step.
      specialize (IH (List.length rest)). unfold bytes_total in IH.
      unfold bytes_before at 1 2. cbn. lia.
    + unfold bytes_total. cbn [List.length]. rewrite !bytes_before_step.
      specialize (IH k). unfold bytes_total in IH. lia.
Qed.

Lemma add_fields_spec (fields : Schema) :
  forall (offset : Z) (ctx : FormattingContext),
    Forall (fun field => 0 <= getSizeInBytes (dataType field)) fields ->
    0 <= offset -> offset + bytes_total fields < 2 ^ 64 ->
    let ctx' := add_fields fields offset ctx in
    offsets ctx'
    = offsets ctx
      ++ map (fun k => offset + bytes_before fields k) (seq 0 (List.length fields))
    /\ physicalTypes ctx' = physicalTypes ctx ++ map dataType fields
    /\ names ctx' = names ctx ++ map name fields.
Proof.
  induction fields as [|field rest IH]; intros offset ctx Hs Hoff Hlt; cbn zeta.
  - cbn. now rewrite !app_nil_r.
  - inversion Hs as [|? ? Hf Hr]; subst.
    pose proof (bytes_before_bounds rest (List.length rest) Hr) as Hb.
    fold (bytes_total rest) in Hb.
    assert (Ht : bytes_total (field :: rest)
                 = getSizeInBytes (dataType field) + bytes_total rest)
      by reflexivity.
    cbn [add_fields]. cbv zeta.
    assert (Hu : u64 (offset + getSizeInBytes (dataType field))
                 = offset + getSizeInBytes (dataType field))
      by (unfold u64; apply Z.mod_small; lia).
    rewrite Hu.
    destruct (IH (offset + getSizeInBytes (dataType field))
                (mkContext (schemaSizeInBytes ctx) (offsets ctx ++ [offset])
                   (physicalTypes ctx ++ [dataType field])
                   (names ctx ++ [name field])) Hr)
      as (Ho & Hp & Hn); [lia|lia|].
    cbv zeta in Ho, Hp, Hn. rewrite Ho, Hp, Hn. cbn [offsets physicalTypes names].
    rewrite <- !app_assoc. cbn [app List.length seq map].
    split; [|split; reflexivity].
    f_equal. f_equal.
    + unfold bytes_before. cbn. lia.
    + rewrite <- seq_shift, map_map. apply map_ext. intros k.
      rewrite bytes_before_step. lia.
Qed.

(** X14. An empty schema is refused by the precondition; for any other schema
    whose field sizes add up within [size_t], the context lists names and
    types in schema order, and every field starts where the fields before it
    end, so two fields never overlap and each one ends within the total. *)
Theorem construct_offsets (schema : Schema) :
  Forall (fun field => 0 <= getSizeInBytes (dataType field)) schema ->
  bytes_total schema < 2 ^ 64 ->
  match schema with
  | [] => construct schema = Aborted "Formatter expected a non-empty schema"
  | _ :: _ =>
      exists ctx,
        construct schema = Returned ctx
        /\ schemaSizeInBytes ctx = getSizeOfSchemaInBytes schema
        /\ names ctx = map name schema
        /\ physicalTypes ctx = map dataType schema
        /\ List.length (offsets ctx) = List.length schema
        /\ forall k field,
             nth_error schema k = Some field ->
             nth_error (offsets ctx) k = Some (bytes_before schema k)
             /\ bytes_before schema k + getSizeInBytes (dataType field)
                = bytes_before schema (S k)
             /\ bytes_before schema (S k) <= bytes_total schema
  end.
Proof.
  intros Hs Hlt. destruct schema as [|field0 rest0]; [reflexivity|].
  set (schema := field0 :: rest0) in *.
  destruct (add_fields_spec schema 0 (mkContext 0 [] [] []) Hs) as (Ho & Hp & Hn);
    [lia|lia|].
  cbv zeta in Ho, Hp, Hn. cbn [offsets physicalTypes names app] in Ho, Hp, Hn.
  eexists. split; [reflexivity|]. cbn [schemaSizeInBytes names physicalTypes offsets].
  split; [reflexivity|]. split; [exact Hn|]. split; [exact Hp|].
  rewrite Ho. split; [now rewrite length_map, length_seq|].
  intros k field Hk.
  assert (Hklt : (k < List.length schema)%nat)
    by (apply nth_error_Some; congruence).
  split; [|split].
  - rewrite nth_error_map, nth_error_seq.
    destruct (Nat.ltb_spec k (List.length schema)); [reflexivity|lia].
  - clear - Hk. revert k Hk. generalize schema as l.
    induction l as [|f l IH]; intros k Hk; [destruct k; discriminate|].
    destruct k as [|k].
    + injection Hk as <-. unfold bytes_before. cbn. lia.
    + rewrite !bytes_before_step. cbn in Hk. specialize (IH k Hk). lia.
  - apply bytes_before_bounds. exact Hs.
Qed.

End Format.

(** A schema of the trajectory sink: three 8-byte numbers and the 4-byte
    index of a variable-sized value. *)
Inductive SinkType : Type := UINT64 | VARSIZED.

Definition sink_size (t : SinkType) : Z :=
  match t with
  | UINT64 => 8
  | VARSIZED => 4
  end.

Definition trajectory_schema : Schema SinkType :=
  [mkField SinkType "start" UINT64; mkField SinkType "end" UINT64;
   mkField SinkType "device_id" UINT64; mkField SinkType "trajectory" VARSIZED].

Lemma construct_offsets_witness :
  exists ctx,
    construct SinkType sink_size (fun _ => 28) trajectory_schema = Returned ctx
    /\ schemaSizeInBytes SinkType ctx = 28
    /\ names SinkType ctx = map (name SinkType) trajectory_schema
    /\ physicalTypes SinkType ctx = map (dataType SinkType) trajectory_schema
    /\ List.length (offsets SinkType ctx) = List.length trajectory_schema
    /\ forall k field,
         nth_error trajectory_schema k = Some field ->
         nth_error (offsets SinkType ctx) k
         = Some (bytes_before SinkType sink_size trajectory_schema k)
         /\ bytes_before SinkType sink_size trajectory_schema k
            + sink_size (dataType SinkType field)
            = bytes_before SinkType sink_size trajectory_schema (S k)
         /\ bytes_before SinkType sink_size trajectory_schema (S k)
            <= bytes_total SinkType sink_size trajectory_schema.
Proof.
  apply (construct_offsets SinkType sink_size (fun _ => 28) trajectory_schema).
  - repeat constructor; cbn; lia.
  - vm_compute. reflexivity.
Defined.

End JSONFormat.

(** ** The latency histogram and the metrics registry *)
Module Metrics.

(** Arithmetic on [uint64_t]. *)
Definition u64 (z : Z) : Z := z mod 2 ^ 64.

(** [FixedLatencyHistogram]: the private members. *)
Record FixedLatencyHistogram : Type := mkHistogram {
  bounds : list Z;
  counts : list Z;
  total : Z
}.

Definition default_bounds : list Z :=
  [0; 1; 2; 4; 8; 16; 32; 64; 128; 256; 512; 1000; 2000; 5000; 10000; 20000;
   60000].

(** [FixedLatencyHistogram::FixedLatencyHistogram] *)
Definition new_histogram : FixedLatencyHistogram :=
  mkHistogram default_bounds (repeat 0 (List.length default_bounds + 1)) 0.

(** [while (idx < bounds.size() && valueMs > bounds[idx]) ++idx;] where [bs]
    holds the bounds from position [idx] on. *)
Fixpoint bucket_from (bs : list Z) (valueMs : Z) (idx : nat) : nat :=
  match bs with
  | [] => idx
  | b :: bs' => if valueMs >? b then bucket_from bs' valueMs (S idx) else idx
  end.

(** [counts[idx] += 1]; [None] outside the vector, where the access is
    undefined. *)
Fixpoint increment (cs : list Z) (idx : nat) : option (list Z) :=
  match cs, idx with
  | [], _ => None
  | c :: cs', O => Some (u64 (c + 1) :: cs')
  | c :: cs', S i => option_map (cons c) (increment cs' i)
  end.

(** [FixedLatencyHistogram::observe] *)
Definition observe (h : FixedLatencyHistogram) (valueMs : Z)
  : option FixedLatencyHistogram :=
  let idx := bucket_from (bounds h) valueMs 0 in
  match increment (counts h) idx with
  | Some cs => Some (mkHistogram (bounds h) cs (u64 (total h + 1)))
  | None => None
  end.

(** [static_cast<double>] of a [uint64_t], rounding to nearest. *)
Definition double_of_u64 (n : Z) : float :=
  SF2Prim (SpecFloat.binary_normalize prec emax n 0 false).

(** [static_cast<uint64_t>] of a [double]: the fraction is dropped; [None]
    where the truncated value has no [uint64_t] and the cast is undefined. *)
Definition to_uint64 (x : float) : option Z :=
  match Prim2SF x with
  | SpecFloat.S754_zero _ => Some 0
  | SpecFloat.S754_finite s m e =>
      let magnitude :=
        if 0 <=? e then Z.pos m * 2 ^ e else Z.pos m / 2 ^ (- e) in
      if s && (0 <? magnitude) then None
      else if 2 ^ 64 <=? magnitude then None
      else Some magnitude
  | _ => None
  end.

(** [rank = static_cast<uint64_t>(p * total); if (rank == 0) rank = 1;] *)
Definition rank_of (p : float) (total : Z) : option Z :=
  match to_uint64 (p * double_of_u64 total)%float with
  | Some rank => Some (if rank =? 0 then 1 else rank)
  | None => None
  end.

(** [bounds.back()] *)
Definition back (l : list Z) : option Z :=
  match l with
  | [] => None
  | _ :: _ => Some (last l 0)
  end.

(** What [percentile] returns once bucket [i] reaches the rank. *)
Definition lower_bound (bounds : list Z) (i : nat) : option Z :=
  if (i =? 0)%nat then Some 0
  else if (i <? List.length bounds)%nat
       then option_map (fun b => u64 (b + 1)) (nth_error bounds (i - 1))
       else option_map (fun b => u64 (b + 1)) (back bounds).

(** [for (size_t i = 0; i < counts.size(); ++i)] of [percentile], where [cs]
    holds the counts from position [i] on, and the fallback after it. *)
Fixpoint scan (bounds cs : list Z) (rank acc : Z) (i : nat) : option Z :=
  match cs with
  | [] => option_map (fun b => u64 (b + 1)) (back bounds)
  | c :: cs' =>
      let acc := u64 (acc + c) in
      if rank <=? acc then lower_bound bounds i
      else scan bounds cs' rank acc (S i)
  end.

(** [FixedLatencyHistogram::percentile] *)
Definition percentile (h : FixedLatencyHistogram) (p : float) : option Z :=
  if total h =? 0 then Some 0
  else
    match rank_of p (total h) with
    | Some rank => scan (bounds h) (counts h) rank 0 0
    | None => None
    end.

(** A run of [observe] calls on one histogram. *)
Fixpoint observe_all (h : FixedLatencyHistogram) (values : list Z)
  : option FixedLatencyHistogram :=
  match values with
  | [] => Some h
  | v :: rest =>
      match observe h v with
      | Some h' => observe_all h' rest
      | None => None
      end
  end.

(** The bucket of a value in a new histogram. *)
Definition bucket (valueMs : Z) : nat := bucket_from default_bounds valueMs 0.

(** The least value of each bucket. *)
Definition lower_bounds : list Z := 0 :: map (fun b => b + 1) default_bounds.

(** How many of [values] satisfy [test]. *)
Definition cnt (test : Z -> bool) (values : list Z) : Z :=
  Z.of_nat (List.length (filter test values)).

(** How many of [values] lie below [w]. *)
Definition below (w : Z) (values : list Z) : Z := cnt (fun x => x <? w) values.

(** The counts after observing [values]. *)
Definition tally (values : list Z) : list Z :=
  map (fun i => cnt (fun x => (bucket x =? i)%nat) values)
    (seq 0 (List.length default_bounds + 1)).

Definition observed (values : list Z) : FixedLatencyHistogram :=
  mkHistogram default_bounds (tally values) (Z.of_nat (List.length values)).

Lemma cnt_range (test : Z -> bool) (values : list Z) :
  0 <= cnt test values <= Z.of_nat (List.length values).
Proof.
  unfold cnt. pose proof (filter_length_le test values). lia.
Qed.

Lemma cnt_snoc (test : Z -> bool) (values : list Z) (x : Z) :
  cnt test (values ++ [x]) = cnt test values + (if test x then 1 else 0).
Proof.
  unfold cnt. rewrite filter_app, length_app. cbn.
  destruct (test x); cbn; lia.
Qed.

Lemma cnt_le (t1 t2 : Z -> bool) (values : list Z) :
  (forall x, In x values -> t1 x = true -> t2 x = true) ->
  cnt t1 values <= cnt t2 values.
Proof.
  unfold cnt. induction values as [|x values IH]; intros H; [cbn; lia|].
  assert (IH' := IH (fun y Hy => H y (or_intror Hy))).
  specialize (H x (or_introl eq_refl)). cbn.
  destruct (t1 x), (t2 x); cbn [List.length]; try lia.
Qed.

Lemma cnt_ext (t1 t2 : Z -> bool) (values : list Z) :
  (forall x, In x values -> t1 x = t2 x) -> cnt t1 values = cnt t2 values.
Proof.
  intros H. apply Z.le_antisymm; apply cnt_le; intros x Hx Ht;
    [rewrite <- H|rewrite H]; assumption.
Qed.

Lemma cnt_all (test : Z -> bool) (values : list Z) :
  (forall x, In x values -> test x = true) ->
  cnt test values = Z.of_nat (List.length values).
Proof.
  unfold cnt. induction values as [|x values IH]; intros H; [reflexivity|].
  cbn. rewrite (H x (or_introl eq_refl)). cbn [List.length].
  specialize (IH (fun y Hy => H y (or_intror Hy))). lia.
Qed.

Lemma cnt_split (f : Z -> nat) (i : nat) (values : list Z) :
  cnt (fun x => (f x <? S i)%nat) values
  = cnt (fun x => (f x <? i)%nat) values + cnt (fun x => (f x =? i)%nat) values.
Proof.
  unfold cnt. induction values as [|x values IH]; [reflexivity|].
  cbn [filter]. destruct (Nat.ltb_spec (f x) (S i)), (Nat.ltb_spec (f x) i),
    (Nat.eqb_spec (f x) i); cbn [List.length]; lia.
Qed.

Lemma bucket_from_bound (bs : list Z) (v : Z) :
  forall idx, (idx <= bucket_from bs v idx <= idx + List.length bs)%nat.
Proof.
  induction bs as [|b bs IH]; intros idx; cbn; [lia|].
  destruct (v >? b); [specialize (IH (S idx))|]; lia.
Qed.

Lemma bucket_bound (v : Z) : (bucket v < 18)%nat.
Proof.
  unfold bucket. pose proof (bucket_from_bound default_bounds v 0) as H.
  change (List.length default_bounds) with 17%nat in H. lia.
Qed.

Lemma increment_map (f : nat -> Z) (m : nat) :
  forall start idx,
    (idx < m)%nat -> 0 <= f (start + idx)%nat ->
    f (start + idx)%nat + 1 < 2 ^ 64 ->
    increment (map f (seq start m)) idx
    = Some (map (fun i => if (i =? start + idx)%nat then f i + 1 else f i)
              (seq start m)).
Proof.
  induction m as [|m IH]; intros start idx Hidx Hlo Hhi; [lia|].
  cbn [seq map]. destruct idx as [|idx]; cbn [increment].
  - rewrite Nat.add_0_r in *. rewrite Nat.eqb_refl.
    unfold u64. rewrite Z.mod_small by lia. f_equal. f_equal.
    apply map_ext_in. intros i Hi. apply in_seq in Hi.
    destruct (Nat.eqb_spec i start); [lia|reflexivity].
  - replace (start + S idx)%nat with (S start + idx)%nat in * by lia.
    rewrite (IH (S start) idx) by (assumption || lia). cbn [option_map].
    destruct (Nat.eqb_spec start (S start + idx)); [lia|reflexivity].
Qed.

Lemma observe_observed (values : list Z) (x : Z) :
  Z.of_nat (List.length values) + 1 < 2 ^ 64 ->
  observe (observed values) x = Some (observed (values ++ [x])).
Proof.
  intros Hlen. unfold observe, observed. cbn [bounds counts total].
  fold (bucket x). unfold tally.
  pose proof (bucket_bound x) as Hb.
  change (List.length default_bounds + 1)%nat with 18%nat.
  pose proof (cnt_range (fun y => (bucket y =? bucket x)%nat) values) as Hc.
  rewrite (increment_map _ 18 0 (bucket x)) by (cbn [Nat.add]; lia).
  f_equal. f_equal.
  - apply map_ext. intros i. rewrite cnt_snoc. cbn [Nat.add].
    rewrite (Nat.eqb_sym (bucket x) i).
    destruct (i =? bucket x)%nat; lia.
  - rewrite length_app. cbn [List.length]. unfold u64.
    rewrite Z.mod_small by lia. lia.
Qed.

Lemma observe_all_observed (values : list Z) :
  forall seen,
    Z.of_nat (List.length (seen ++ values)) < 2 ^ 64 ->
    observe_all (observed seen) values = Some (observed (seen ++ values)).
Proof.
  induction values as [|x values IH]; intros seen Hlen; cbn [observe_all].
  - now rewrite app_nil_r.
  - rewrite length_app in Hlen. cbn [List.length] in Hlen.
    rewrite observe_observed by lia.
    rewrite IH by (rewrite !length_app; cbn [List.length]; lia).
    now rewrite <- app_assoc.
Qed.

Lemma new_histogram_observed : new_histogram = observed [].
Proof. reflexivity. Qed.

(** Bounds in ascending order. *)
Fixpoint ascending (l : list Z) : bool :=
  match l with
  | a :: t =>
      match t with
      | b :: _ => (a <=? b) && ascending t
      | [] => true
      end
  | [] => true
  end.

Lemma ascending_tail (a : Z) (l : list Z) :
  ascending (a :: l) = true -> ascending l = true.
Proof.
  destruct l as [|b l]; [reflexivity|]. cbn [ascending].
  intros H. apply andb_true_iff in H. apply H.
Qed.

Lemma ascending_head (l : list Z) :
  forall a j,
    ascending (a :: l) = true -> (j < List.length l)%nat -> a <= nth j l 0.
Proof.
  induction l as [|b l IH]; intros a j Ha Hj; [cbn in Hj; lia|].
  assert (Hab : a <= b).
  { cbn [ascending] in Ha. apply andb_true_iff in Ha. lia. }
  apply ascending_tail in Ha. destruct j as [|j]; cbn [nth]; [exact Hab|].
  cbn [List.length] in Hj. specialize (IH b j Ha). lia.
Qed.

Lemma ascending_nth (l : list Z) :
  forall a b,
    ascending l = true -> (a <= b < List.length l)%nat ->
    nth a l 0 <= nth b l 0.
Proof.
  induction l as [|x l IH]; intros a b Hl Hab; [cbn in Hab; lia|].
  cbn [List.length] in Hab. destruct a as [|a], b as [|b]; cbn [nth]; try lia.
  - apply ascending_head; [assumption|lia].
  - apply IH; [eapply ascending_tail; eassumption|lia].
Qed.

Lemma bucket_from_lt (bs : list Z) (v : Z) :
  forall idx j,
    ascending bs = true -> (j < List.length bs)%nat ->
    (bucket_from bs v idx <? idx + S j)%nat = (v <=? nth j bs 0).
Proof.
  induction bs as [|b bs IH]; intros idx j Hbs Hj; [cbn in Hj; lia|].
  cbn [bucket_from List.length] in *. destruct (Z.gtb_spec v b) as [Hgt|Hle].
  - destruct j as [|j]; cbn [nth].
    + pose proof (bucket_from_bound bs v (S idx)).
      destruct (Nat.ltb_spec (bucket_from bs v (S idx)) (idx + 1));
        destruct (Z.leb_spec v b); lia || reflexivity.
    + replace (idx + S (S j))%nat with (S idx + S j)%nat by lia.
      apply IH; [eapply ascending_tail; eassumption|lia].
  - assert (Hn : b <= nth j (b :: bs) 0).
    { destruct j as [|j]; cbn [nth]; [lia|].
      apply ascending_head; [assumption|lia]. }
    destruct (Nat.ltb_spec idx (idx + S j)); destruct (Z.leb_spec v (nth j (b :: bs) 0));
      lia || reflexivity.
Qed.

Lemma lower_bounds_nth (j : nat) :
  (j < 17)%nat -> nth (S j) lower_bounds 0 = nth j default_bounds 0 + 1.
Proof.
  intros Hj. unfold lower_bounds. cbn [nth].
  rewrite (nth_indep _ 0 ((fun b => b + 1) 0))
    by (rewrite length_map; exact Hj).
  exact (map_nth (fun b => b + 1) default_bounds 0 j).
Qed.

Lemma bucket_lt (v : Z) (j : nat) :
  0 <= v -> (j <= 17)%nat ->
  (bucket v <? j)%nat = (v <? nth j lower_bounds 0).
Proof.
  intros Hv Hj. destruct j as [|j].
  - cbn [nth lower_bounds]. destruct (Z.ltb_spec v 0); [lia|reflexivity].
  - rewrite lower_bounds_nth by lia. unfold bucket.
    change (S j) with (0 + S j)%nat at 1.
    rewrite (bucket_from_lt default_bounds v 0 j) by (reflexivity || exact Hj).
    destruct (Z.leb_spec v (nth j default_bounds 0));
      destruct (Z.ltb_spec v (nth j default_bounds 0 + 1)); lia || reflexivity.
Qed.

Lemma below_bucket (values : list Z) (j : nat) :
  Forall (fun x => 0 <= x) values -> (j <= 17)%nat ->
  below (nth j lower_bounds 0) values = cnt (fun x => (bucket x <? j)%nat) values.
Proof.
  intros Hv Hj. unfold below. apply cnt_ext. intros x Hx.
  rewrite Forall_forall in Hv. symmetry. apply bucket_lt; auto.
Qed.

Lemma lower_bound_default (j : nat) :
  (j < 18)%nat -> lower_bound default_bounds j = Some (nth j lower_bounds 0).
Proof.
  intros Hj. do 18 (destruct j as [|j]; [reflexivity|]). lia.
Qed.

Lemma lower_bounds_le (a b : nat) :
  (a <= b < 18)%nat -> nth a lower_bounds 0 <= nth b lower_bounds 0.
Proof. intros H. apply ascending_nth; [reflexivity|exact H]. Qed.

Lemma to_uint64_range (x : float) (n : Z) :
  to_uint64 x = Some n -> 0 <= n < 2 ^ 64.
Proof.
  unfold to_uint64. destruct (Prim2SF x) as [s| | |s m e]; try discriminate.
  - intros H. injection H as <-. lia.
  - cbv zeta.
    set (magnitude := if 0 <=? e then Z.pos m * 2 ^ e else Z.pos m / 2 ^ (- e)).
    assert (0 <= magnitude).
    { unfold magnitude. destruct (Z.leb_spec 0 e).
      - apply Z.mul_nonneg_nonneg; [lia|]. apply Z.pow_nonneg. lia.
      - apply Z.div_pos; [lia|]. apply Z.pow_pos_nonneg; lia. }
    destruct (s && (0 <? magnitude)); [discriminate|].
    destruct (Z.leb_spec (2 ^ 64) magnitude); [discriminate|].
    intros H'. injection H' as <-. lia.
Qed.

Lemma rank_of_range (p : float) (t rank : Z) :
  rank_of p t = Some rank -> 1 <= rank < 2 ^ 64.
Proof.
  unfold rank_of. destruct (to_uint64 _) as [n|] eqn:E; [|discriminate].
  apply to_uint64_range in E. intros H. injection H as <-.
  destruct (Z.eqb_spec n 0); lia.
Qed.

Lemma cnt_before_first (values : list Z) :
  cnt (fun x => (bucket x <? 0)%nat) values = 0.
Proof.
  unfold cnt. induction values as [|x values IH]; [reflexivity|exact IH].
Qed.

Lemma scan_reaches (values : list Z) (rank : Z) :
  Z.of_nat (List.length values) < 2 ^ 64 ->
  rank <= Z.of_nat (List.length values) ->
  forall k i acc,
    (i + k = 18)%nat ->
    acc = cnt (fun x => (bucket x <? i)%nat) values -> acc < rank ->
    exists j,
      (j < 18)%nat
      /\ scan default_bounds
           (map (fun i => cnt (fun x => (bucket x =? i)%nat) values) (seq i k))
           rank acc i
         = lower_bound default_bounds j
      /\ cnt (fun x => (bucket x <? j)%nat) values < rank
         <= cnt (fun x => (bucket x <? S j)%nat) values.
Proof.
  intros Hlen Hrank. induction k as [|k IH]; intros i acc Hik Hacc Hlt.
  - exfalso. assert (i = 18)%nat by lia. subst i.
    rewrite cnt_all in Hacc; [lia|].
    intros x _. apply Nat.ltb_lt. apply bucket_bound.
  - cbn [seq map scan]. cbv zeta.
    pose proof (cnt_split bucket i values) as Hs.
    pose proof (cnt_range (fun x => (bucket x <? S i)%nat) values) as Hr.
    replace (u64 (acc + cnt (fun x => (bucket x =? i)%nat) values))
      with (cnt (fun x => (bucket x <? S i)%nat) values)
      by (unfold u64; rewrite Z.mod_small; lia).
    destruct (Z.leb_spec rank (cnt (fun x => (bucket x <? S i)%nat) values))
      as [Hge|Hless].
    + exists i. split; [lia|]. split; [reflexivity|]. lia.
    + apply IH; [lia|reflexivity|exact Hless].
Qed.

Lemma scan_beyond (values : list Z) (rank : Z) :
  Z.of_nat (List.length values) < 2 ^ 64 ->
  Z.of_nat (List.length values) < rank ->
  forall k i acc,
    acc = cnt (fun x => (bucket x <? i)%nat) values ->
    scan default_bounds
      (map (fun i => cnt (fun x => (bucket x =? i)%nat) values) (seq i k))
      rank acc i
    = Some 60001.
Proof.
  intros Hlen Hrank. induction k as [|k IH]; intros i acc Hacc.
  - reflexivity.
  - cbn [seq map scan]. cbv zeta.
    pose proof (cnt_split bucket i values) as Hs.
    pose proof (cnt_range (fun x => (bucket x <? S i)%nat) values) as Hr.
    replace (u64 (acc + cnt (fun x => (bucket x =? i)%nat) values))
      with (cnt (fun x => (bucket x <? S i)%nat) values)
      by (unfold u64; rewrite Z.mod_small; lia).
    destruct (Z.leb_spec rank (cnt (fun x => (bucket x <? S i)%nat) values));
      [lia|].
    apply IH. reflexivity.
Qed.

(** The values of bucket [i]: from its least value up to the bound, the last
    bucket being open above. *)
Definition within (i : nat) (v : Z) : bool :=
  (nth i lower_bounds 0 <=? v)
  && ((i =? 17)%nat || (v <? nth (S i) lower_bounds 0)).

Lemma bucket_within (v : Z) (i : nat) :
  0 <= v -> (i < 18)%nat -> (bucket v =? i)%nat = within i v.
Proof.
  intros Hv Hi. unfold within.
  pose proof (bucket_lt v i Hv) as H1. pose proof (bucket_bound v) as Hb.
  destruct (Nat.eqb_spec i 17) as [->|Hne].
  - cbn [orb]. rewrite andb_true_r.
    specialize (H1 (Nat.le_refl _)).
    destruct (Nat.eqb_spec (bucket v) 17), (Z.leb_spec (nth 17 lower_bounds 0) v),
      (Nat.ltb_spec (bucket v) 17), (Z.ltb_spec v (nth 17 lower_bounds 0));
      try reflexivity; try lia; discriminate.
  - pose proof (bucket_lt v (S i) Hv) as H2. cbn [orb].
    specialize (H1 ltac:(lia)). specialize (H2 ltac:(lia)).
    destruct (Nat.eqb_spec (bucket v) i), (Z.leb_spec (nth i lower_bounds 0) v),
      (Nat.ltb_spec (bucket v) i), (Z.ltb_spec v (nth i lower_bounds 0)),
      (Nat.ltb_spec (bucket v) (S i)), (Z.ltb_spec v (nth (S i) lower_bounds 0));
      try reflexivity; try lia; discriminate.
Qed.

(** X15. Observing fewer than 2^64 latencies in a new histogram never leaves
    the count vector; afterwards the total is the number of observations and
    count [i] is the number of observations between the least value of bucket
    [i] and its bound. *)
Theorem observe_all_counts (values : list Z) :
  Forall (fun x => 0 <= x) values ->
  Z.of_nat (List.length values) < 2 ^ 64 ->
  exists h,
    observe_all new_histogram values = Some h
    /\ bounds h = default_bounds
    /\ total h = Z.of_nat (List.length values)
    /\ List.length (counts h) = 18%nat
    /\ forall i, (i < 18)%nat -> nth i (counts h) 0 = cnt (within i) values.
Proof.
  intros Hv Hlen. exists (observed values).
  split; [rewrite new_histogram_observed; now apply observe_all_observed|].
  split; [reflexivity|]. split; [reflexivity|].
  split; [cbn [observed counts]; unfold tally; now rewrite length_map, length_seq|].
  intros i Hi. cbn [observed counts]. unfold tally.
  change (List.length default_bounds + 1)%nat with 18%nat.
  set (f := fun i => cnt (fun x => (bucket x =? i)%nat) values).
  rewrite (nth_indep _ 0 (f 0%nat)) by (now rewrite length_map, length_seq).
  rewrite (map_nth f (seq 0 18) 0%nat i), seq_nth by exact Hi.
  unfold f. cbn [Nat.add]. apply cnt_ext. intros x Hx.
  rewrite Forall_forall in Hv. apply bucket_within; auto.
Qed.

Lemma observe_all_counts_witness :
  exists h,
    observe_all new_histogram [3; 70; 70; 1500] = Some h
    /\ bounds h = default_bounds
    /\ total h = 4
    /\ List.length (counts h) = 18%nat
    /\ forall i, (i < 18)%nat ->
                 nth i (counts h) 0 = cnt (within i) [3; 70; 70; 1500].
Proof.
  apply (observe_all_counts [3; 70; 70; 1500]).
  - repeat constructor; lia.
  - vm_compute. reflexivity.
Defined.

(** X16. On a histogram of at least one and fewer than 2^64 observations, when
    the rank computed from [p] is at most the total, [percentile] returns the
    least value [v] of a bucket such that fewer than [rank] observations lie
    below [v], while at least [rank] observations lie below the least value of
    every later bucket: [v] is the lower bound of the bucket that holds the
    observation of that rank. *)
Theorem percentile_rank (values : list Z) (p : float) (rank : Z) :
  values <> [] ->
  Forall (fun x => 0 <= x) values ->
  Z.of_nat (List.length values) < 2 ^ 64 ->
  rank_of p (Z.of_nat (List.length values)) = Some rank ->
  rank <= Z.of_nat (List.length values) ->
  exists h v,
    observe_all new_histogram values = Some h
    /\ percentile h p = Some v
    /\ In v lower_bounds
    /\ below v values < rank
    /\ forall w, In w lower_bounds -> v < w -> rank <= below w values.
Proof.
  intros Hne Hv Hlen Hrank Hle.
  pose proof (rank_of_range _ _ _ Hrank) as Hr.
  destruct (scan_reaches values rank Hlen Hle 18 0
              (cnt (fun x => (bucket x <? 0)%nat) values) eq_refl eq_refl)
    as (j & Hj & Hscan & Hlo & Hhi).
  { rewrite cnt_before_first. lia. }
  exists (observed values), (nth j lower_bounds 0).
  split; [rewrite new_histogram_observed; now apply observe_all_observed|].
  split.
  - unfold percentile. cbn [observed total bounds counts].
    destruct (Z.eqb_spec (Z.of_nat (List.length values)) 0) as [E|_].
    + destruct values; [congruence|cbn in E; lia].
    + rewrite Hrank. unfold tally.
      change (List.length default_bounds + 1)%nat with 18%nat.
      rewrite cnt_before_first in Hscan.
      rewrite Hscan. now apply lower_bound_default.
  - split; [apply nth_In; exact Hj|].
    split; [rewrite below_bucket by (assumption || lia); exact Hlo|].
    intros w Hw Hvw. apply (In_nth _ _ 0) in Hw. destruct Hw as (j' & Hj' & <-).
    change (List.length lower_bounds) with 18%nat in Hj'.
    assert (Hjj : (S j <= j')%nat).
    { destruct (Nat.le_gt_cases j' j) as [Hc|Hc]; [|exact Hc].
      pose proof (lower_bounds_le j' j ltac:(lia)). lia. }
    rewrite below_bucket by (assumption || lia).
    eapply Z.le_trans; [apply Hhi|]. apply cnt_le.
    intros x _ Hx. apply Nat.ltb_lt in Hx. apply Nat.ltb_lt. lia.
Qed.

Lemma percentile_rank_witness :
  exists h v,
    observe_all new_histogram [3; 70; 70; 1500] = Some h
    /\ percentile h 0.5%float = Some v
    /\ In v lower_bounds
    /\ below v [3; 70; 70; 1500] < 2
    /\ forall w, In w lower_bounds -> v < w -> 2 <= below w [3; 70; 70; 1500].
Proof.
  apply (percentile_rank [3; 70; 70; 1500] 0.5%float 2).
  - discriminate.
  - repeat constructor; lia.
  - vm_compute. reflexivity.
  - vm_compute. reflexivity.
  - vm_compute. discriminate.
Defined.

(** X17. When the rank computed from [p] exceeds the number of observations
    (a [p] above one), no bucket reaches it and [percentile] falls back to
    60001, the least value of the overflow bucket, whatever was observed. *)
Theorem percentile_beyond (values : list Z) (p : float) (rank : Z) :
  values <> [] ->
  Z.of_nat (List.length values) < 2 ^ 64 ->
  rank_of p (Z.of_nat (List.length values)) = Some rank ->
  Z.of_nat (List.length values) < rank ->
  exists h,
    observe_all new_histogram values = Some h
    /\ percentile h p = Some 60001.
Proof.
  intros Hne Hlen Hrank Hlt. exists (observed values).
  split; [rewrite new_histogram_observed; now apply observe_all_observed|].
  unfold percentile. cbn [observed total bounds counts].
  destruct (Z.eqb_spec (Z.of_nat (List.length values)) 0) as [E|_].
  - destruct values; [congruence|cbn in E; lia].
  - rewrite Hrank. unfold tally.
    change (List.length default_bounds + 1)%nat with 18%nat.
    apply (scan_beyond values rank Hlen Hlt 18 0).
    now rewrite cnt_before_first.
Qed.

Lemma percentile_beyond_witness :
  exists h,
    observe_all new_histogram [0; 0] = Some h
    /\ percentile h 2%float = Some 60001.
Proof.
  apply (percentile_beyond [0; 0] 2%float 4).
  - discriminate.
  - vm_compute. reflexivity.
  - vm_compute. reflexivity.
  - vm_compute. reflexivity.
Defined.

(** The [counters] of the registry; every name is held once. *)
Definition Counters : Type := list (string * Z).

(** [counters.find(name)] *)
Fixpoint at_name (m : Counters) (name : string) : option Z :=
  match m with
  | [] => None
  | (k, v) :: m' => if String.eqb k name then Some v else at_name m' name
  end.

(** The value read for a name, an absent name reading as zero. *)
Definition value (m : Counters) (name : string) : Z :=
  match at_name m name with
  | Some v => v
  | None => 0
  end.

(** [counters[name] += delta], where [operator[]] first enters a zero for a
    new name. *)
Fixpoint add (m : Counters) (name : string) (delta : Z) : Counters :=
  match m with
  | [] => [(name, u64 (0 + delta))]
  | (k, v) :: m' =>
      if String.eqb k name then (k, u64 (v + delta)) :: m'
      else (k, v) :: add m' name delta
  end.


(** [MetricsRegistry]: the private members. *)
Record MetricsRegistry : Type := mkRegistry {
  counters : Counters;
  histogram : FixedLatencyHistogram
}.

Definition new_registry : MetricsRegistry := mkRegistry [] new_histogram.

(** [MetricsRegistry::incCounter] *)
Definition incCounter (r : MetricsRegistry) (name : string) (delta : Z)
  : MetricsRegistry :=
  mkRegistry (add (counters r) name delta) (histogram r).

(** [MetricsRegistry::observeLatencyMs] *)
Definition observeLatencyMs (r : MetricsRegistry) (v : Z)
  : option MetricsRegistry :=
  let c := add (add (counters r) "latency_count" 1) "latency_sum_ms" v in
  match observe (histogram r) v with
  | Some h => Some (mkRegistry c h)
  | None => None
  end.



Lemma value_add (m : Counters) (name other : string) (delta : Z) :
  value (add m name delta) other
  = if String.eqb name other then u64 (value m name + delta) else value m other.
Proof.
  unfold value. induction m as [|[k v] m IH]; cbn [add at_name].
  - destruct (String.eqb name other); reflexivity.
  - destruct (String.eqb k name) eqn:E1; cbn [at_name].
    + apply String.eqb_eq in E1. subst k.
      destruct (String.eqb name other) eqn:E2; reflexivity.
    + destruct (String.eqb k other) eqn:E3; [|exact IH].
      destruct (String.eqb name other) eqn:E2; [|reflexivity].
      apply String.eqb_eq in E2, E3. subst.
      rewrite String.eqb_refl in E1. discriminate.
Qed.



(** What [PrintSink::execute] reads of a [TupleBuffer]. *)
Record TupleBuffer : Type := mkBuffer {
  valid : bool;
  getNumberOfTuples : Z;
  getCreationTimestampInMS : Z
}.

(** The registry singleton and the output stream. *)
Record World : Type := mkWorld {
  registry : MetricsRegistry;
  outputStream : list string
}.

Definition new_world : World := mkWorld new_registry [].

Definition newline : string := String "010"%char EmptyString.

Section Sink.

(** The two marker values of [Timestamp] and the sink's output parser, all
    declared outside the file of the sink. *)
Variable INVALID_VALUE : Z.
Variable INITIAL_VALUE : Z.
Variable getFormattedBuffer : TupleBuffer -> string.

(** [PrintSink::execute], with the reading of the steady clock as
    [nowMsSigned]. *)
Definition execute (w : World) (inputBuffer : TupleBuffer) (nowMsSigned : Z)
  : outcome World :=
  Registrar.PRECONDITION (valid inputBuffer) "Invalid input buffer in PrintSink."
    (let tuples := getNumberOfTuples inputBuffer in
     let r := incCounter (registry w) "sink_out_total" tuples in
     if tuples =? 0 then Returned (mkWorld r (outputStream w))
     else
       let tsInMs := getCreationTimestampInMS inputBuffer in
       let measured :=
         if (tsInMs =? INVALID_VALUE) || (tsInMs =? INITIAL_VALUE)
         then Some (incCounter r "latency_missing_count" 1)
         else if 0 <=? nowMsSigned
         then
           let nowMs := u64 nowMsSigned in
           let lat := if tsInMs <=? nowMs then u64 (nowMs - tsInMs) else 0 in
           let r := if nowMs <? tsInMs
                    then incCounter r "latency_future_count" 1 else r in
           observeLatencyMs r lat
         else Some r in
       match measured with
       | Some r =>
           Returned
             (mkWorld r
                (outputStream w ++ [(getFormattedBuffer inputBuffer ++ newline)%string]))
       | None => Undefined
       end).

(** The sink run on a sequence of buffers, each with its clock reading. *)
Fixpoint execute_all (w : World) (calls : list (TupleBuffer * Z))
  : outcome World :=
  match calls with
  | [] => Returned w
  | (inputBuffer, nowMsSigned) :: rest =>
      match execute w inputBuffer nowMsSigned with
      | Returned w' => execute_all w' rest
      | Thrown e => Thrown e
      | Aborted message => Aborted message
      | Undefined => Undefined
      end
  end.

(** The tuples of a sequence of buffers. *)
Definition tuples_of (calls : list (TupleBuffer * Z)) : Z :=
  fold_right (fun call acc => getNumberOfTuples (fst call) + acc) 0 calls.

(** The buffers of a sequence that hold a tuple. *)
Definition non_empty (calls : list (TupleBuffer * Z)) : list (TupleBuffer * Z) :=
  filter (fun call => negb (getNumberOfTuples (fst call) =? 0)) calls.

(** What holds of the world between two calls of the sink, [n] calls and
    [sum] tuples after the start. *)
Definition consistent (w : World) (n : nat) (sum : Z) : Prop :=
  let c := counters (registry w) in
  exists latencies,
    histogram (registry w) = observed latencies
    /\ value c "latency_count" = Z.of_nat (List.length latencies)
    /\ 0 <= value c "latency_future_count" <= Z.of_nat (List.length latencies)
    /\ 0 <= value c "latency_missing_count"
    /\ Z.of_nat (List.length latencies) + value c "latency_missing_count"
       <= Z.of_nat (List.length (outputStream w))
    /\ (List.length (outputStream w) <= n)%nat
    /\ value c "sink_out_total" = u64 sum.

Ltac names :=
  repeat match goal with
  | |- context [String.eqb ?a ?b] =>
      let v := eval vm_compute in (String.eqb a b) in
      change (String.eqb a b) with v
  end; cbv iota.

Lemma u64_add (a b : Z) : u64 (u64 a + b) = u64 (a + b).
Proof. unfold u64. apply Zplus_mod_idemp_l. Qed.

Lemma u64_small (a : Z) : 0 <= a < 2 ^ 64 -> u64 a = a.
Proof. intros H. unfold u64. now apply Z.mod_small. Qed.

Ltac settle Hs :=
  cbn [registry outputStream incCounter counters histogram];
  rewrite ?length_app; cbn [List.length];
  rewrite !value_add; names;
  rewrite ?(u64_small (_ + 1)) by lia;
  rewrite ?Hs, ?u64_add;
  repeat split; try assumption; try lia; try (f_equal; lia).

Lemma execute_consistent (w : World) (n : nat) (sum : Z)
    (inputBuffer : TupleBuffer) (nowMsSigned : Z) :
  consistent w n sum -> valid inputBuffer = true ->
  Z.of_nat n + 1 < 2 ^ 64 ->
  exists w',
    execute w inputBuffer nowMsSigned = Returned w'
    /\ consistent w' (S n) (sum + getNumberOfTuples inputBuffer)
    /\ List.length (outputStream w')
       = (List.length (outputStream w)
          + if (getNumberOfTuples inputBuffer =? 0)%Z then 0 else 1)%nat.
Proof.
  intros (lats & Hh & Hc & Hf & Hm & Hout & Hn & Hs) Hvalid Hlt.
  cbv zeta in Hc, Hf, Hm, Hout, Hs.
  unfold execute, Registrar.PRECONDITION. rewrite Hvalid. cbv zeta.
  destruct (getNumberOfTuples inputBuffer =? 0) eqn:Et.
  - eexists. split; [reflexivity|]. split; [|cbn; lia].
    exists lats. settle Hs.
  - destruct ((getCreationTimestampInMS inputBuffer =? INVALID_VALUE)
              || (getCreationTimestampInMS inputBuffer =? INITIAL_VALUE)).
    + eexists. split; [reflexivity|].
      split; [|cbn [outputStream]; rewrite length_app; cbn; lia].
      exists lats. settle Hs.
    + destruct (0 <=? nowMsSigned).
      * set (lat := if getCreationTimestampInMS inputBuffer <=? u64 nowMsSigned
                    then u64 (u64 nowMsSigned - getCreationTimestampInMS inputBuffer)
                    else 0).
        unfold observeLatencyMs.
        assert (Hobs : observe (observed lats) lat = Some (observed (lats ++ [lat])))
          by (apply observe_observed; lia).
        destruct (u64 nowMsSigned <? getCreationTimestampInMS inputBuffer);
          cbn [incCounter histogram]; rewrite Hh, Hobs;
          (eexists; split; [reflexivity|];
           split; [|cbn [outputStream]; rewrite length_app; cbn; lia]);
          exists (lats ++ [lat]); settle Hs.
      * eexists. split; [reflexivity|].
        split; [|cbn [outputStream]; rewrite length_app; cbn; lia].
        exists lats. settle Hs.
Qed.

Lemma execute_all_consistent (calls : list (TupleBuffer * Z)) :
  forall w n sum,
    consistent w n sum ->
    Forall (fun call => valid (fst call) = true) calls ->
    Z.of_nat (n + List.length calls) < 2 ^ 64 ->
    exists w',
      execute_all w calls = Returned w'
      /\ consistent w' (n + List.length calls) (sum + tuples_of calls)
      /\ List.length (outputStream w')
         = (List.length (outputStream w) + List.length (non_empty calls))%nat.
Proof.
  induction calls as [|[inputBuffer nowMsSigned] calls IH];
    intros w n sum Hw Hvalid Hlen.
  - exists w. cbn [execute_all List.length tuples_of fold_right non_empty filter].
    rewrite !Nat.add_0_r, Z.add_0_r. auto.
  - inversion Hvalid as [|? ? Hv Hrest]; subst. cbn [fst] in Hv.
    cbn [List.length] in Hlen.
    destruct (execute_consistent w n sum inputBuffer nowMsSigned Hw Hv)
      as (w1 & Hexec & Hw1 & Hout1); [lia|].
    destruct (IH w1 (S n) (sum + getNumberOfTuples inputBuffer) Hw1 Hrest)
      as (w' & Hrun & Hw' & Hout'); [lia|].
    exists w'. cbn [execute_all]. rewrite Hexec.
    split; [exact Hrun|]. split.
    + replace (n + List.length ((inputBuffer, nowMsSigned) :: calls))%nat
        with (S n + List.length calls)%nat by (cbn [List.length]; lia).
      replace (sum + tuples_of ((inputBuffer, nowMsSigned) :: calls))
        with (sum + getNumberOfTuples inputBuffer + tuples_of calls)
        by (unfold tuples_of; cbn [fold_right fst]; lia).
      exact Hw'.
    + rewrite Hout', Hout1. unfold non_empty. cbn [filter fst].
      destruct (getNumberOfTuples inputBuffer =? 0); cbn [negb List.length]; lia.
Qed.

(** X19. A run of fewer than 2^64 calls of the sink on valid buffers, from a
    fresh registry, always returns, and afterwards the histogram total equals
    [latency_count], [latency_future_count] is at most [latency_count], every
    measured or missing latency belongs to a printed buffer, one line is
    printed for each buffer that holds a tuple and none for an empty one, and
    [sink_out_total] is the sum of the tuples modulo 2^64. *)
Theorem sink_metrics_consistent (calls : list (TupleBuffer * Z)) :
  Forall (fun call => valid (fst call) = true) calls ->
  Z.of_nat (List.length calls) < 2 ^ 64 ->
  exists w',
    execute_all new_world calls = Returned w'
    /\ total (histogram (registry w'))
       = value (counters (registry w')) "latency_count"
    /\ 0 <= value (counters (registry w')) "latency_future_count"
       <= value (counters (registry w')) "latency_count"
    /\ 0 <= value (counters (registry w')) "latency_missing_count"
    /\ value (counters (registry w')) "latency_count"
       + value (counters (registry w')) "latency_missing_count"
       <= Z.of_nat (List.length (non_empty calls))
    /\ List.length (outputStream w') = List.length (non_empty calls)
    /\ value (counters (registry w')) "sink_out_total" = u64 (tuples_of calls).
Proof.
  intros Hvalid Hlen.
  assert (H0 : consistent new_world 0 0).
  { exists []. cbn. repeat split; try reflexivity; lia. }
  destruct (execute_all_consistent calls new_world 0 0 H0 Hvalid Hlen)
    as (w' & Hrun & (lats & Hh & Hc & Hf & Hm & Hout & _ & Hs) & Hprinted).
  cbv zeta in Hc, Hf, Hm, Hout, Hs. cbn [new_world outputStream List.length Nat.add] in Hprinted.
  exists w'. split; [exact Hrun|]. rewrite Hh, Hc. cbn [observed total].
  rewrite <- Hprinted. rewrite Z.add_0_l in Hs. repeat split; assumption || lia.
Qed.

End Sink.

Definition example_calls : list (TupleBuffer * Z) :=
  [(mkBuffer true 2 100, 150); (mkBuffer true 0 0, 160);
   (mkBuffer true 1 500, 170); (mkBuffer true 3 0, 180)].

Lemma sink_metrics_consistent_witness :
  exists w',
    execute_all (2 ^ 64 - 1) 0 (fun _ => "{}"%string) new_world example_calls
    = Returned w'
    /\ total (histogram (registry w'))
       = value (counters (registry w')) "latency_count"
    /\ 0 <= value (counters (registry w')) "latency_future_count"
       <= value (counters (registry w')) "latency_count"
    /\ 0 <= value (counters (registry w')) "latency_missing_count"
    /\ value (counters (registry w')) "latency_count"
       + value (counters (registry w')) "latency_missing_count"
       <= Z.of_nat (List.length (non_empty example_calls))
    /\ List.length (outputStream w') = List.length (non_empty example_calls)
    /\ value (counters (registry w')) "sink_out_total"
       = u64 (tuples_of example_calls).
Proof.
  apply (sink_metrics_consistent (2 ^ 64 - 1) 0 (fun _ => "{}"%string)
           example_calls).
  - repeat constructor.
  - vm_compute. reflexivity.
Defined.

End Metrics.

(** ** The initialisation of the MEOS library *)
Module MeosInit.

Local Open Scope string_scope.

(** The environment of the process; [None] is the null pointer of [getenv]. *)
Definition Env : Type := string -> option string.

Definition getenv (e : Env) (name : string) : option string := e name.

(** [setenv(name, value, 1)] *)
Definition setenv (e : Env) (name value : string) : Env :=
  fun n => if String.eqb n name then Some value else e n.

(** [!p || *p == '\0'] *)
Definition missing (v : option string) : bool :=
  match v with
  | None => true
  | Some EmptyString => true
  | Some (String _ _) => false
  end.

(** The process: its environment, the flag [meos_initialized], the calls of
    [meos_initialize] and [meos_finalize] made so far and the handlers
    registered with [std::atexit]. *)
Record Process : Type := mkProcess {
  environment : Env;
  meos_initialized : bool;
  initialize_calls : nat;
  finalize_calls : nat;
  atexit_handlers : nat
}.

Definition candidates : list string :=
  ["/usr/share/zoneinfo"; "/usr/lib/zoneinfo"; "/usr/share/lib/zoneinfo"].

Section Init.

(** [fs::exists(cand, ec) && !ec] *)
Variable exists_ : string -> bool.

(** The [for] loop over the candidates, left at the first one that exists. *)
Fixpoint set_first_existing (e : Env) (cands : list string) : Env :=
  match cands with
  | [] => e
  | cand :: rest =>
      if exists_ cand then setenv e "TZDIR" cand
      else set_first_existing e rest
  end.

(** [ensureMeosInitialized] *)
Definition ensureMeosInitialized (p : Process) : Process :=
  if negb (meos_initialized p) then
    let e := environment p in
    let tzEnv := getenv e "TZ" in
    let e := if missing tzEnv then setenv e "TZ" "UTC" else e in
    let pgtzEnv := getenv e "PGTZ" in
    let e :=
      if missing pgtzEnv then
        let tzNow := getenv e "TZ" in
        setenv e "PGTZ" (match tzNow with Some tz => tz | None => "UTC"%string end)
      else e in
    let tzdirEnv := getenv e "TZDIR" in
    let e := if missing tzdirEnv then set_first_existing e candidates else e in
    mkProcess e true (S (initialize_calls p)) (finalize_calls p)
      (S (atexit_handlers p))
  else p.

(** [cleanupMeos] *)
Definition cleanupMeos (p : Process) : Process :=
  if meos_initialized p then
    mkProcess (environment p) false (initialize_calls p)
      (S (finalize_calls p)) (atexit_handlers p)
  else p.

Lemma set_first_existing_other (e : Env) (cands : list string) (name : string) :
  name <> "TZDIR"%string -> set_first_existing e cands name = e name.
Proof.
  intros Hn. induction cands as [|cand rest IH]; cbn; [reflexivity|].
  destruct (exists_ cand); [|exact IH].
  unfold setenv. destruct (String.eqb_spec name "TZDIR"); [contradiction|reflexivity].
Qed.

Lemma set_first_existing_tzdir (e : Env) (cands : list string) :
  set_first_existing e cands "TZDIR" = e "TZDIR"
  \/ exists cand,
       In cand cands /\ exists_ cand = true
       /\ set_first_existing e cands "TZDIR" = Some cand.
Proof.
  induction cands as [|cand rest IH]; cbn [set_first_existing]; [now left|].
  destruct (exists_ cand) eqn:E.
  - right. exists cand. split; [now left|]. split; [exact E|reflexivity].
  - destruct IH as [H | (c & Hc & He & Hs)]; [now left|].
    right. exists c. split; [now right|]. now split.
Qed.

(** X20. However often the library is asked for, [meos_initialize] runs once and
    one exit handler is registered: every call after the first changes
    nothing. *)
Theorem initialized_once (n : nat) (p : Process) :
  meos_initialized p = false ->
  let p' := Nat.iter (S n) ensureMeosInitialized p in
  p' = ensureMeosInitialized p
  /\ meos_initialized p' = true
  /\ initialize_calls p' = S (initialize_calls p)
  /\ atexit_handlers p' = S (atexit_handlers p)
  /\ finalize_calls p' = finalize_calls p.
Proof.
  intros Hp. cbv zeta.
  assert (H1 : meos_initialized (ensureMeosInitialized p) = true)
    by (unfold ensureMeosInitialized; now rewrite Hp).
  assert (Hn : Nat.iter (S n) ensureMeosInitialized p = ensureMeosInitialized p).
  { induction n as [|n IH]; [reflexivity|].
    change (Nat.iter (S (S n)) ensureMeosInitialized p)
      with (ensureMeosInitialized (Nat.iter (S n) ensureMeosInitialized p)).
    rewrite IH. unfold ensureMeosInitialized at 1. now rewrite H1. }
  rewrite Hn. split; [reflexivity|]. split; [exact H1|].
  unfold ensureMeosInitialized. rewrite Hp. cbn. auto.
Qed.

(** X21. The first initialisation leaves the process with a time zone: [TZ] and
    [PGTZ] are set and not empty afterwards; a value the user gave for
    [TZ], [PGTZ] or [TZDIR] is kept, a missing [TZ] becomes UTC, a missing
    [PGTZ] takes the value of [TZ], a missing [TZDIR] stays missing or
    becomes a candidate directory that exists; no other variable changes. *)
Theorem initialisation_sets_time_zone (p : Process) :
  meos_initialized p = false ->
  let e := environment p in
  let e' := environment (ensureMeosInitialized p) in
  missing (e' "TZ"%string) = false
  /\ missing (e' "PGTZ"%string) = false
  /\ e' "TZ"%string = (if missing (e "TZ"%string) then Some "UTC"%string
                        else e "TZ"%string)
  /\ e' "PGTZ"%string = (if missing (e "PGTZ"%string) then e' "TZ"%string
                          else e "PGTZ"%string)
  /\ (missing (e "TZDIR"%string) = false -> e' "TZDIR"%string = e "TZDIR"%string)
  /\ (missing (e "TZDIR"%string) = true ->
      e' "TZDIR"%string = e "TZDIR"%string
      \/ exists cand, In cand candidates /\ exists_ cand = true
                      /\ e' "TZDIR"%string = Some cand)
  /\ (forall name,
         name <> "TZ"%string -> name <> "PGTZ"%string ->
         name <> "TZDIR"%string -> e' name = e name).
Proof.
  intros Hp. cbv zeta. unfold ensureMeosInitialized. rewrite Hp.
  cbn [negb environment]. unfold getenv.
  set (e := environment p).
  set (e1 := if missing (e "TZ"%string) then setenv e "TZ" "UTC" else e).
  set (e2 := if missing (e1 "PGTZ"%string)
             then setenv e1 "PGTZ"
                    match e1 "TZ"%string with
                    | Some tz => tz
                    | None => "UTC"%string
                    end
             else e1).
  set (e3 := if missing (e2 "TZDIR"%string)
             then set_first_existing e2 candidates else e2).
  assert (H3 : forall name, name <> "TZDIR"%string -> e3 name = e2 name).
  { intros name Hn. unfold e3. destruct (missing (e2 "TZDIR"%string));
      [now apply set_first_existing_other|reflexivity]. }
  assert (Htz1 : e1 "TZ"%string
                 = if missing (e "TZ"%string) then Some "UTC"%string
                   else e "TZ"%string)
    by (unfold e1; destruct (missing (e "TZ"%string)); reflexivity).
  assert (Hm1 : missing (e1 "TZ"%string) = false)
    by (rewrite Htz1; destruct (missing (e "TZ"%string)) eqn:E; [reflexivity|exact E]).
  assert (Hpg1 : e1 "PGTZ"%string = e "PGTZ"%string)
    by (unfold e1; destruct (missing (e "TZ"%string)); reflexivity).
  assert (Htz2 : e2 "TZ"%string = e1 "TZ"%string)
    by (unfold e2; destruct (missing (e1 "PGTZ"%string)); reflexivity).
  assert (Hpg2 : e2 "PGTZ"%string
                 = if missing (e "PGTZ"%string) then e1 "TZ"%string
                   else e "PGTZ"%string).
  { unfold e2. rewrite Hpg1. destruct (missing (e "PGTZ"%string)); [|exact Hpg1].
    unfold setenv. cbn. destruct (e1 "TZ"%string); [reflexivity|discriminate]. }
  assert (Hdir2 : e2 "TZDIR"%string = e "TZDIR"%string).
  { unfold e2, e1. destruct (missing (e "TZ"%string));
      destruct (missing _); reflexivity. }
  rewrite !H3 by discriminate. rewrite Htz2, Hpg2, Htz1.
  split; [now rewrite <- Htz1|]. split.
  { destruct (missing (e "PGTZ"%string)) eqn:E; [now rewrite <- Htz1|exact E]. }
  split; [reflexivity|]. split; [reflexivity|]. split; [|split].
  - intros Hd. unfold e3. now rewrite Hdir2, Hd.
  - intros Hd. unfold e3. rewrite Hdir2, Hd. rewrite <- Hdir2.
    apply set_first_existing_tzdir.
  - intros name Hn1 Hn2 Hn3. rewrite (H3 name Hn3).
    unfold e2, e1, setenv.
    destruct (missing (e "TZ"%string)); destruct (missing _);
      destruct (String.eqb_spec name "PGTZ"); destruct (String.eqb_spec name "TZ");
      congruence.
Qed.

End Init.

(** A process started with nothing but [HOME] in its environment. *)
Definition bare : Process :=
  mkProcess (fun n => if String.eqb n "HOME" then Some "/root"%string else None)
    false 0 0 0.

Definition only_usr_share (cand : string) : bool :=
  String.eqb cand "/usr/share/zoneinfo".

Lemma initialized_once_witness :
  Nat.iter 3 (ensureMeosInitialized only_usr_share) bare
  = ensureMeosInitialized only_usr_share bare
  /\ meos_initialized (Nat.iter 3 (ensureMeosInitialized only_usr_share) bare)
     = true
  /\ initialize_calls (Nat.iter 3 (ensureMeosInitialized only_usr_share) bare)
     = 1%nat
  /\ atexit_handlers (Nat.iter 3 (ensureMeosInitialized only_usr_share) bare)
     = 1%nat
  /\ finalize_calls (Nat.iter 3 (ensureMeosInitialized only_usr_share) bare)
     = 0%nat.
Proof.
  apply (initialized_once only_usr_share 2 bare). reflexivity.
Defined.

Lemma initialisation_sets_time_zone_witness :
  environment (ensureMeosInitialized only_usr_share bare) "TZ"%string
  = Some "UTC"%string
  /\ environment (ensureMeosInitialized only_usr_share bare) "PGTZ"%string
     = Some "UTC"%string.
Proof.
  destruct (initialisation_sets_time_zone only_usr_share bare eq_refl)
    as (_ & _ & Htz & Hpg & _).
  split; [exact Htz|]. rewrite Hpg. exact Htz.
Defined.

End MeosInit.
